(** * Lumbar: multi-vector store, late-interaction rerank and schema migration

    A shallow embedding of [backend/app/db/milvus.py],
    [backend/app/db/migration_utils.py], the insert and sort helpers of
    [backend/app/rag/utils.py], the retrieval of
    [backend/app/rag/llm_service.py] and the segment loop of
    [backend/app/rag/convert_media.py].

    The Milvus server behind [pymilvus.MilvusClient] is not part of the
    repository.  It is modelled as an in-memory store ([client]) whose every
    call may raise: a fault oracle decides, from the position of the call in
    the run and the call itself, whether the call fails.  The calls made are
    recorded in a log, the way an instrumented store double would.  What the
    client hands back for a delete (primary keys or a count, as its version
    has it) is not computed: a second oracle gives it.

    Python floats are modelled by exact rationals ([Q]); Python dictionaries
    with string keys by [gmap string value]. *)

From Stdlib Require Import QArith Qround Lqa Ascii String.
From stdpp Require Import gmap strings list fin_maps sorting relations.

Local Open Scope nat_scope.

(** ** Python values and dictionaries *)

Inductive value : Type :=
| VNone
| VInt (n : Z)
| VFloat (x : Q)
| VStr (s : string)
| VVec (v : list Q)
| VVecs (vs : list (list Q)).    (* a list of vectors: one multi-vector embedding *)

Abbreviation row := (gmap string value).

(** [d.get(k, default)] *)
Definition dict_get (d : row) (k : string) (default : value) : value :=
  match d !! k with
  | Some v => v
  | None => default
  end.

(** ** Exceptions, results and the state-and-exception monad *)

Inductive exn : Type :=
| MilvusException            (* any error raised by a client call *)
| KeyError (k : string)
| IndexError
| TypeError
| ValueError.

(** [Diverge] is not a Python outcome: it marks a loop of the model that ran
    out of fuel.  No [try] catches it. *)
Inductive result (A : Type) : Type :=
| Ok (a : A)
| Raise (e : exn)
| Diverge.
Arguments Ok {A} a.
Arguments Raise {A} e.
Arguments Diverge {A}.

Definition M (S A : Type) : Type := S -> result A * S.

Definition ret {S A} (a : A) : M S A := fun s => (Ok a, s).

Definition bind {S A B} (m : M S A) (k : A -> M S B) : M S B :=
  fun s =>
    match m s with
    | (Ok a, s') => k a s'
    | (Raise e, s') => (Raise e, s')
    | (Diverge, s') => (Diverge, s')
    end.

Definition raise {S A} (e : exn) : M S A := fun s => (Raise e, s).

(** [try: m  except Exception as e: h e] *)
Definition try_except {S A} (m : M S A) (h : exn -> M S A) : M S A :=
  fun s =>
    match m s with
    | (Ok a, s') => (Ok a, s')
    | (Raise e, s') => h e s'
    | (Diverge, s') => (Diverge, s')
    end.

#[global] Instance M_ret {S} : MRet (M S) := fun A a => ret a.
#[global] Instance M_bind {S} : MBind (M S) := fun A B k m => bind m k.

(** [if b: m] *)
Definition when {S} (b : bool) (m : M S unit) : M S unit :=
  if b then m else ret tt.

(** [d[k]] *)
Definition dict_item {S} (d : row) (k : string) : M S value :=
  match d !! k with
  | Some v => ret v
  | None => raise (KeyError k)
  end.

Fixpoint mapM {S A B} (f : A -> M S B) (l : list A) : M S (list B) :=
  match l with
  | [] => ret []
  | a :: l' => b ← f a; bs ← mapM f l'; ret (b :: bs)
  end.

(** Runs [m] and hands back how it ended, the way a future keeps the result
    or the exception of its task. *)
Definition attempt {S A} (m : M S A) : M S (result A) :=
  fun s =>
    match m s with
    | (Diverge, s') => (Diverge, s')
    | (r, s') => (Ok r, s')
    end.

(** [future.result()] *)
Definition future_result {S A} (r : result A) : M S A := fun s => (r, s).

(** A computation on the client, run where there is also a local variable
    of type [L] (the dictionary a function fills in as it goes). *)
Definition lift {C L A} (m : M C A) : M (C * L) A :=
  fun s => let '(r, c') := m (fst s) in (r, (c', snd s)).

Definition modify_local {C L} (f : L -> L) : M (C * L) unit :=
  fun s => (Ok tt, (fst s, f (snd s))).

(** ** The store behind [MilvusClient] *)

(** Boolean expressions of the store's query language, as far as the code
    builds them. *)
Inductive filter_expr : Type :=
| FAll                                   (* ""  *)
| FImageIdIn (ids : list string)         (* image_id in ['a', ...] *)
| FFileIdIn (ids : list string)          (* file_id in ['a', ...] *)
| FMediaTypeEq (m : string)              (* media_type == 'm' *)
| FTimeRange (start_time end_time : Q)   (* timestamp_start >= s and timestamp_end <= e *)
| FAnd (a b : filter_expr).              (* (a) and (b) *)

Fixpoint filter_fields (f : filter_expr) : list string :=
  match f with
  | FAll => []
  | FImageIdIn _ => ["image_id"]
  | FFileIdIn _ => ["file_id"]
  | FMediaTypeEq _ => ["media_type"]
  | FTimeRange _ _ => ["timestamp_start"; "timestamp_end"]
  | FAnd a b => filter_fields a ++ filter_fields b
  end.

Definition str_in (k : string) (r : row) (ids : list string) : bool :=
  match r !! k with
  | Some (VStr s) => bool_decide (s ∈ ids)
  | _ => false
  end.

Fixpoint eval_filter (f : filter_expr) (r : row) : bool :=
  match f with
  | FAll => true
  | FImageIdIn ids => str_in "image_id" r ids
  | FFileIdIn ids => str_in "file_id" r ids
  | FMediaTypeEq m =>
      match r !! "media_type" with
      | Some (VStr s) => bool_decide (s = m)
      | _ => false
      end
  | FTimeRange a b =>
      match r !! "timestamp_start", r !! "timestamp_end" with
      | Some (VFloat s), Some (VFloat e) => Qle_bool a s && Qle_bool e b
      | _, _ => false
      end
  | FAnd a b => eval_filter a r && eval_filter b r
  end.

Record collection : Type := {
  c_dim : nat;
  c_fields : list string;      (* field names of the schema, "pk" included *)
  c_rows : list row            (* the rows, oldest first; "pk" is left out *)
}.

Inductive call : Type :=
| CHasCollection (name : string)
| CDescribeCollection (name : string)
| CQuery (name : string) (f : filter_expr) (limit offset : nat)
| CDropCollection (name : string)
| CCreateCollection (name : string)
| CReleaseCollection (name : string)
| CDropIndex (name : string)
| CCreateIndex (name : string)
| CLoadCollection (name : string)
| CInsert (name : string) (n : nat)
| CGetCollectionStats (name : string)
| CSearch (name : string) (f : filter_expr)
| CDelete (name : string) (f : filter_expr).

Record client : Type := {
  colls : gmap string collection;
  log : list call;
  faults : nat -> call -> bool;
  answers : nat -> call -> value     (* what a delete hands back *)
}.

Definition with_colls (cs : gmap string collection) (c : client) : client :=
  {| colls := cs; log := log c; faults := faults c; answers := answers c |}.

Definition get_state {S} : M S S := fun s => (Ok s, s).
Definition put_state {S} (s : S) : M S unit := fun _ => (Ok tt, s).

(** Every client call is logged; the oracle may make it raise. *)
Definition tick (k : call) : M client unit :=
  c ← get_state;
  put_state {| colls := colls c; log := log c ++ [k]; faults := faults c;
               answers := answers c |};;
  if faults c (length (log c)) k then raise MilvusException else mret tt.

Definition get_coll (name : string) : M client collection :=
  c ← get_state;
  match colls c !! name with
  | Some col => mret col
  | None => raise MilvusException
  end.

Definition has_collection (name : string) : M client bool :=
  tick (CHasCollection name);;
  c ← get_state;
  mret (bool_decide (is_Some (colls c !! name))).

Definition describe_collection (name : string) : M client (list string) :=
  tick (CDescribeCollection name);;
  col ← get_coll name;
  mret (c_fields col).

Definition drop_collection (name : string) : M client unit :=
  tick (CDropCollection name);;
  c ← get_state;
  put_state (with_colls (delete name (colls c)) c).

(** Creating a collection whose name is taken is an error. *)
Definition client_create_collection (name : string) (dim : nat) (fields : list string)
  : M client unit :=
  tick (CCreateCollection name);;
  c ← get_state;
  match colls c !! name with
  | Some _ => raise MilvusException
  | None =>
      put_state
        (with_colls (<[name := {| c_dim := dim; c_fields := fields; c_rows := [] |}]> (colls c)) c)
  end.

(** Index maintenance does not change the rows; it needs the collection. *)
Definition index_call (k : call) (name : string) : M client unit :=
  tick k;; _ ← get_coll name; mret tt.

(** Output fields: ["*"] asks for every field, any other name must be a field
    of the schema. *)
Definition fields_known (col : collection) (fs : list string) : bool :=
  forallb (fun f => bool_decide (f = "*") || bool_decide (f ∈ c_fields col)) fs.

Definition project (fs : list string) (r : row) : row :=
  if bool_decide ("*" ∈ fs) then r
  else filter (fun kv => kv.1 ∈ fs) r.

Definition client_query (name : string) (f : filter_expr) (output_fields : list string)
    (limit offset : nat) : M client (list row) :=
  tick (CQuery name f limit offset);;
  col ← get_coll name;
  if fields_known col output_fields && fields_known col (filter_fields f) then
    mret (project output_fields <$> take limit (drop offset (filter (fun r => eval_filter f r) (c_rows col))))
  else raise MilvusException.

(** A row can be inserted when it has every field of the schema (the primary
    key is assigned by the store) and its vector has the collection's
    dimension. *)
Definition row_ok (col : collection) (r : row) : bool :=
  forallb (fun f => bool_decide (f = "pk") || bool_decide (is_Some (r !! f))) (c_fields col)
  && match r !! "vector" with
     | Some (VVec v) => bool_decide (length v = c_dim col)
     | _ => false
     end.

Definition client_insert (name : string) (rs : list row) : M client unit :=
  tick (CInsert name (length rs));;
  col ← get_coll name;
  if forallb (row_ok col) rs then
    c ← get_state;
    put_state
      (with_colls (<[name := {| c_dim := c_dim col; c_fields := c_fields col;
                                c_rows := c_rows col ++ rs |}]> (colls c)) c)
  else raise MilvusException.

(** [get_collection_stats(name)['row_count']] *)
Definition get_row_count (name : string) : M client nat :=
  tick (CGetCollectionStats name);;
  col ← get_coll name;
  mret (length (c_rows col)).

(** ** [MilvusManager]: collection management (milvus.py) *)

Module MilvusManager.

Definition schema_fields : list string :=
  ["pk"; "vector"; "image_id"; "page_number"; "file_id";
   "media_type"; "timestamp_start"; "timestamp_end"; "duration"; "segment_id"].

Definition _create_index (collection_name : string) : M client unit :=
  index_call (CReleaseCollection collection_name) collection_name;;
  index_call (CDropIndex collection_name) collection_name;;
  index_call (CCreateIndex collection_name) collection_name;;
  index_call (CLoadCollection collection_name) collection_name.

(** The new row built from an old one by [_restore_collection_data] and by
    [_restore_with_new_schema]: old fields carried over, new fields
    defaulted. *)
Definition migrated_record (record : row) : row :=
  <["vector" := dict_get record "vector" VNone]>
  (<["image_id" := dict_get record "image_id" VNone]>
  (<["page_number" := dict_get record "page_number" (VInt 0)]>
  (<["file_id" := dict_get record "file_id" VNone]>
  (<["media_type" := dict_get record "media_type" (VStr "image")]>
  (<["timestamp_start" := dict_get record "timestamp_start" (VFloat 0)]>
  (<["timestamp_end" := dict_get record "timestamp_end" (VFloat 0)]>
  (<["duration" := dict_get record "duration" (VFloat 0)]>
  (<["segment_id" := dict_get record "segment_id" (VStr "")]> ∅)))))))).

Definition _backup_collection_data (collection_name : string) : M client (option (list row)) :=
  try_except
    (ex ← has_collection collection_name;
     if negb ex then mret None
     else
       all_data ← client_query collection_name FAll ["*"] (100 * 1000) 0;
       mret (Some all_data))
    (fun _ => mret None).

Definition _restore_collection_data (collection_name : string) (data_records : list row)
  : M client unit :=
  match data_records with
  | [] => mret tt
  | _ =>
      (* try: ... except Exception: raise *)
      let migrated_data := migrated_record <$> data_records in
      match migrated_data with
      | [] => mret tt
      | _ => client_insert collection_name migrated_data
      end
  end.

(** Python truth value of [existing_data]: neither [None] nor empty. *)
Definition truthy (data : option (list row)) : bool :=
  match data with
  | Some (_ :: _) => true
  | _ => false
  end.

Definition create_collection (collection_name : string) (dim : nat) (migrate_existing : bool)
  : M client unit :=
  ex ← has_collection collection_name;
  existing_data ←
    (if ex && migrate_existing then
       try_except (_backup_collection_data collection_name) (fun _ => ret None)
     else ret None);
  ex' ← has_collection collection_name;
  when ex' (drop_collection collection_name);;
  client_create_collection collection_name dim schema_fields;;
  _create_index collection_name;;
  when (truthy existing_data && migrate_existing)
    (_restore_collection_data collection_name (default [] existing_data)).

End MilvusManager.

(** ** [DatabaseMigrationManager] (migration_utils.py) *)

Module DatabaseMigrationManager.

Import MilvusManager.

(** The messages of the result dictionaries; the text is the source's, the
    formatted parts are the constructor's arguments. *)
Inductive message : Type :=
| MsgCanCreateNew                         (* 'Collection does not exist, can create new' *)
| MsgMissingFields (missing : list string) (* 'Collection exists but missing fields: ...' *)
| MsgCompatible                           (* 'Collection is compatible with new schema' *)
| MsgCheckError (e : exn)                 (* 'Error checking compatibility: ...' *)
| MsgMigrated (name : string)             (* 'Successfully migrated collection ...' *)
| MsgMigrationFailed (name : string) (e : exn) (* 'Migration failed for collection ...: ...' *)
| MsgNotExistAfter                        (* 'Collection does not exist after migration' *)
| MsgValidationPassed (n : nat)           (* 'Migration validation passed, n records found' *)
| MsgCountMismatch (expected : Z) (actual : nat) (* 'Record count mismatch: expected ..., got ...' *)
| MsgValidationFailed (e : exn).          (* 'Validation failed: ...' *)

Record compatibility : Type := {
  exists_ : bool;
  compatible : bool;
  needs_migration : bool;
  missing_fields : list string;
  check_error : option exn;
  check_message : message
}.

Definition required_new_fields : list string :=
  ["media_type"; "timestamp_start"; "timestamp_end"; "duration"; "segment_id"].

(** The body of the [try] of [check_schema_compatibility]. *)
Definition check_body (collection_name : string) : M client compatibility :=
  ex ← has_collection collection_name;
  if negb ex then
    mret {| exists_ := false; compatible := true; needs_migration := false;
            missing_fields := []; check_error := None; check_message := MsgCanCreateNew |}
  else
    existing_fields ← describe_collection collection_name;
    let missing := filter (fun field => field ∉ existing_fields) required_new_fields in
    match missing with
    | _ :: _ =>
        mret {| exists_ := true; compatible := false; needs_migration := true;
                missing_fields := missing; check_error := None;
                check_message := MsgMissingFields missing |}
    | [] =>
        mret {| exists_ := true; compatible := true; needs_migration := false;
                missing_fields := []; check_error := None; check_message := MsgCompatible |}
    end.

Definition check_schema_compatibility (collection_name : string) : M client compatibility :=
  try_except (check_body collection_name)
    (fun e =>
       mret {| exists_ := false; compatible := false; needs_migration := false;
               missing_fields := []; check_error := Some e; check_message := MsgCheckError e |}).

Definition batch_size_backup : nat := 1000.

(** The [while True] loop of [_create_safe_backup]. *)
Fixpoint backup_loop (fuel : nat) (collection_name : string) (all_data : list row) (offset : nat)
  : M client (list row) :=
  match fuel with
  | 0 => fun c => (Diverge, c)
  | S fuel' =>
      batch_data ← client_query collection_name FAll ["*"] batch_size_backup offset;
      match batch_data with
      | [] => mret all_data
      | _ =>
          let all_data' := all_data ++ batch_data in
          let offset' := offset + length batch_data in
          if length batch_data <? batch_size_backup then mret all_data'
          else backup_loop fuel' collection_name all_data' offset'
      end
  end.

(** Rows of a collection, for the fuel of the loop: one more iteration than
    there are rows is always enough. *)
Definition row_count_of (c : client) (name : string) : nat :=
  match colls c !! name with
  | Some col => length (c_rows col)
  | None => 0
  end.

Definition _create_safe_backup (collection_name : string) : M client (option (list row)) :=
  try_except
    (c ← get_state;
     all_data ← backup_loop (S (row_count_of c collection_name)) collection_name [] 0;
     mret (Some all_data))
    (fun _ => mret None).

Definition batch_size_restore : nat := 100.

(** [range(0, n, step)] *)
Definition range_step (n step : nat) : list nat :=
  (fun k => k * step) <$> seq 0 ((n + step - 1) / step).

(** The [for i in range(0, len(backup_data), batch_size)] loop of
    [_restore_with_new_schema]. *)
Fixpoint restore_loop (collection_name : string) (backup_data : list row) (starts : list nat)
    (migrated_count : nat) : M client nat :=
  match starts with
  | [] => mret migrated_count
  | i :: starts' =>
      let batch := take batch_size_restore (drop i backup_data) in
      let migrated_batch := migrated_record <$> batch in
      match migrated_batch with
      | [] => restore_loop collection_name backup_data starts' migrated_count
      | _ =>
          client_insert collection_name migrated_batch;;
          restore_loop collection_name backup_data starts'
            (migrated_count + length migrated_batch)
      end
  end.

Definition _restore_with_new_schema (collection_name : string) (backup_data : list row)
  : M client nat :=
  (* try: ... except Exception: raise *)
  restore_loop collection_name backup_data
    (range_step (length backup_data) batch_size_restore) 0.

Record validation_result : Type := {
  v_success : bool;
  v_record_count : option nat;
  v_error : option exn;
  v_message : message
}.

Record migration_result : Type := {
  success : bool;
  backup_created : bool;
  data_migrated : bool;
  records_processed : nat;
  errors : list message;
  result_message : option message;
  validation : option validation_result
}.

Definition initial_result : migration_result :=
  {| success := false; backup_created := false; data_migrated := false;
     records_processed := 0; errors := []; result_message := None; validation := None |}.

Definition set_success (b : bool) (r : migration_result) : migration_result :=
  {| success := b; backup_created := backup_created r; data_migrated := data_migrated r;
     records_processed := records_processed r; errors := errors r;
     result_message := result_message r; validation := validation r |}.
Definition set_backup_created (b : bool) (r : migration_result) : migration_result :=
  {| success := success r; backup_created := b; data_migrated := data_migrated r;
     records_processed := records_processed r; errors := errors r;
     result_message := result_message r; validation := validation r |}.
Definition set_data_migrated (b : bool) (r : migration_result) : migration_result :=
  {| success := success r; backup_created := backup_created r; data_migrated := b;
     records_processed := records_processed r; errors := errors r;
     result_message := result_message r; validation := validation r |}.
Definition set_records_processed (n : nat) (r : migration_result) : migration_result :=
  {| success := success r; backup_created := backup_created r; data_migrated := data_migrated r;
     records_processed := n; errors := errors r;
     result_message := result_message r; validation := validation r |}.
Definition add_error (m : message) (r : migration_result) : migration_result :=
  {| success := success r; backup_created := backup_created r; data_migrated := data_migrated r;
     records_processed := records_processed r; errors := errors r ++ [m];
     result_message := result_message r; validation := validation r |}.
Definition set_message (m : message) (r : migration_result) : migration_result :=
  {| success := success r; backup_created := backup_created r; data_migrated := data_migrated r;
     records_processed := records_processed r; errors := errors r;
     result_message := Some m; validation := validation r |}.
Definition set_validation (v : validation_result) (r : migration_result) : migration_result :=
  {| success := success r; backup_created := backup_created r; data_migrated := data_migrated r;
     records_processed := records_processed r; errors := errors r;
     result_message := result_message r; validation := Some v |}.

(** The body of the [try] of [safe_migrate_collection]; the local state is
    the [migration_result] dictionary, which keeps what was written to it
    before an exception. *)
Definition safe_migrate_body (collection_name : string) (dim : nat) (backup : bool)
  : M (client * migration_result) unit :=
  compatibility ← lift (check_schema_compatibility collection_name);
  if negb (needs_migration compatibility) then
    modify_local (set_success true);;
    modify_local (set_message (check_message compatibility))
  else
    backup_data ←
      (if backup && exists_ compatibility then
         backup_data ← lift (_create_safe_backup collection_name);
         modify_local (set_backup_created (bool_decide (is_Some backup_data)));;
         (* "Failed to create backup, proceeding without backup" *)
         ret backup_data
       else ret None);
    when (exists_ compatibility) (lift (drop_collection collection_name));;
    lift (create_collection collection_name dim false);;
    when (truthy backup_data)
      (migrated_count ← lift (_restore_with_new_schema collection_name (default [] backup_data));
       modify_local (set_data_migrated true);;
       modify_local (set_records_processed migrated_count));;
    modify_local (set_success true);;
    modify_local (set_message (MsgMigrated collection_name)).

Definition safe_migrate_collection (collection_name : string) (dim : nat) (backup : bool)
  : M client migration_result :=
  fun c =>
    match safe_migrate_body collection_name dim backup (c, initial_result) with
    | (Ok _, (c', r)) => (Ok r, c')
    | (Raise e, (c', r)) =>
        let error_msg := MsgMigrationFailed collection_name e in
        (Ok (set_message error_msg (add_error error_msg r)), c')
    | (Diverge, (c', _)) => (Diverge, c')
    end.

Definition validate_migration (collection_name : string) (expected_count : option Z)
  : M client validation_result :=
  try_except
    (ex ← has_collection collection_name;
     if negb ex then
       mret {| v_success := false; v_record_count := None; v_error := None;
               v_message := MsgNotExistAfter |}
     else
       actual_count ← get_row_count collection_name;
       let result := {| v_success := true; v_record_count := Some actual_count;
                        v_error := None; v_message := MsgValidationPassed actual_count |} in
       match expected_count with
       | Some expected =>
           if bool_decide (Z.of_nat actual_count ≠ expected) then
             mret {| v_success := false; v_record_count := Some actual_count;
                     v_error := None; v_message := MsgCountMismatch expected actual_count |}
           else mret result
       | None => mret result
       end)
    (fun e =>
       mret {| v_success := false; v_record_count := None; v_error := Some e;
               v_message := MsgValidationFailed e |}).

Definition perform_safe_migration (collection_name : string) (dim : nat)
  : M client migration_result :=
  result ← safe_migrate_collection collection_name dim true;
  if success result then
    validation ← validate_migration collection_name None;
    mret (set_validation validation result)
  else mret result.

End DatabaseMigrationManager.

(** ** Vectors, the coarse search of the store, and numpy *)

Definition inner (a b : list Q) : Q := foldr Qplus 0%Q (zip_with Qmult a b).

Definition row_vector (r : row) : list Q :=
  match r !! "vector" with
  | Some (VVec v) => v
  | _ => []
  end.

(** [l.sort(key=key, reverse=True)]: descending, and stable (elements with
    equal keys keep their order). *)
Fixpoint insert_desc {A} (key : A -> Q) (x : A) (l : list A) : list A :=
  match l with
  | [] => [x]
  | y :: l' => if Qle_bool (key y) (key x) then x :: y :: l' else y :: insert_desc key x l'
  end.

Definition sort_desc {A} (key : A -> Q) (l : list A) : list A :=
  foldr (insert_desc key) [] l.

(** [client.search(collection_name, data, filter=f, limit, output_fields)]:
    for every query vector, the [limit] rows of largest inner product among
    those that pass the filter.  A request without a query vector is
    refused.  The index of the real store is approximate; the model answers
    exactly. *)
Definition client_search (name : string) (data : list (list Q)) (f : filter_expr)
    (limit : nat) (output_fields : list string) : M client (list (list row)) :=
  tick (CSearch name f);;
  match data with
  | [] => raise MilvusException
  | _ =>
      col ← get_coll name;
      if fields_known col output_fields && fields_known col (filter_fields f)
         && forallb (fun q => bool_decide (length q = c_dim col)) data then
        mret ((fun q =>
                 project output_fields <$>
                   take limit (sort_desc (fun r => inner q (row_vector r))
                                 (filter (fun r => eval_filter f r) (c_rows col)))) <$> data)
      else raise MilvusException
  end.

(** [client.search(collection_name, data, limit, output_fields, expr=e)].
    [MilvusClient.search] takes its boolean expression under the name
    [filter]; a call that passes it as [expr] raises inside the client,
    whatever the store holds, so it never returns hits. *)
Definition client_search_expr (name : string) (data : list (list Q)) (expr : filter_expr)
    (limit : nat) (output_fields : list string) : M client (list (list row)) :=
  tick (CSearch name expr);;
  raise MilvusException.

Module np.

(** A two-dimensional array: its shape and its rows. *)
Record ndarray : Type := { nrows : nat; ncols : nat; rows : list (list Q) }.

(** [np.vstack(vs)]: needs at least one vector, all of one length. *)
Definition vstack (vs : list (list Q)) : option ndarray :=
  match vs with
  | [] => None
  | v :: _ =>
      if forallb (fun w => bool_decide (length w = length v)) vs
      then Some {| nrows := length vs; ncols := length v; rows := vs |}
      else None
  end.

(** [np.asarray(data)] for a list of query vectors. *)
Definition asarray (data : list (list Q)) : option ndarray :=
  match data with
  | [] => None
  | _ => vstack data
  end.

Definition get (a : ndarray) (i j : nat) : Q := nth j (nth i (rows a) []) 0%Q.

(** [a.T] *)
Definition T (a : ndarray) : ndarray :=
  {| nrows := ncols a; ncols := nrows a;
     rows := (fun j => (fun i => get a i j) <$> seq 0 (nrows a)) <$> seq 0 (ncols a) |}.

(** [np.dot(a, b)] of two-dimensional arrays. *)
Definition dot (a b : ndarray) : option ndarray :=
  if bool_decide (ncols a = nrows b) then
    Some {| nrows := nrows a; ncols := ncols b;
            rows := (fun i => (fun j =>
                       foldr Qplus 0%Q ((fun k => get a i k * get b k j)%Q <$> seq 0 (ncols a)))
                       <$> seq 0 (ncols b)) <$> seq 0 (nrows a) |}
  else None.

Definition maximum (x y : Q) : Q := if Qle_bool x y then y else x.

(** [a.max(1)]: the maximum of every row; an error when the rows are empty. *)
Definition max1 (a : ndarray) : option (list Q) :=
  if bool_decide (ncols a = 0) then None
  else Some ((fun r => match r with
                       | [] => 0%Q
                       | x :: r' => foldl maximum x r'
                       end) <$> rows a).

(** [v.sum()] *)
Definition sum (v : list Q) : Q := foldl Qplus 0%Q v.

End np.

(** ** [MilvusManager]: insert, search and rerank (milvus.py) *)

Module Search.

Definition of_option {S A} (o : option A) (e : exn) : M S A :=
  match o with
  | Some a => ret a
  | None => raise e
  end.

(** [MilvusManager.insert(data, collection_name)] *)
Definition insert (data : row) (collection_name : string) : M client unit :=
  vecs ← dict_item data "colqwen_vecs";
  match vecs with
  | VVecs colqwen_vecs =>
      let media_type := dict_get data "media_type" (VStr "image") in
      let timestamp_start := dict_get data "timestamp_start" (VFloat 0) in
      let timestamp_end := dict_get data "timestamp_end" (VFloat 0) in
      let duration := dict_get data "duration" (VFloat 0) in
      let segment_id := dict_get data "segment_id" (VStr "") in
      records ← mapM (fun vec =>
                        image_id ← dict_item data "image_id";
                        page_number ← dict_item data "page_number";
                        file_id ← dict_item data "file_id";
                        ret (<["vector" := VVec vec]>
                             (<["image_id" := image_id]>
                             (<["page_number" := page_number]>
                             (<["file_id" := file_id]>
                             (<["media_type" := media_type]>
                             (<["timestamp_start" := timestamp_start]>
                             (<["timestamp_end" := timestamp_end]>
                             (<["duration" := duration]>
                             (<["segment_id" := segment_id]> (∅ : row)))))))))))
                     colqwen_vecs;
      client_insert collection_name records
  | _ => raise TypeError
  end.

(** [insert_to_milvus] of rag/utils.py: one [insert] per embedding, in
    order; [i] is the position of the embedding. *)
Fixpoint insert_to_milvus_from (i : nat) (collection_name : string)
    (embeddings : list (list (list Q))) (image_ids : list string) (file_id : string)
  : M client unit :=
  match embeddings with
  | [] => ret tt
  | emb :: rest =>
      image_id ← of_option (image_ids !! i) IndexError;
      insert (<["colqwen_vecs" := VVecs emb]>
              (<["page_number" := VInt (Z.of_nat i)]>
              (<["image_id" := VStr image_id]>
              (<["file_id" := VStr file_id]> (∅ : row))))) collection_name;;
      insert_to_milvus_from (S i) collection_name rest image_ids file_id
  end.

Definition insert_to_milvus := insert_to_milvus_from 0.

Definition new_output_fields : list string :=
  ["vector"; "image_id"; "page_number"; "file_id";
   "media_type"; "timestamp_start"; "timestamp_end"; "duration"; "segment_id"].

Definition old_output_fields : list string :=
  ["vector"; "image_id"; "page_number"; "file_id"].

(** The filter expression [_search_with_new_schema] builds; [None] when it
    is empty and no [expr] is passed to the client. *)
Definition build_filter (media_type_filter : option string) (time_range_filter : option (list Q))
  : option filter_expr :=
  let filter_expr :=
    match media_type_filter with
    | Some m => if bool_decide (m = "") then None else Some (FMediaTypeEq m)
    | None => None
    end in
  match time_range_filter with
  | Some [start_time; end_time] =>
      let time_filter := FTimeRange start_time end_time in
      match filter_expr with
      | Some fe => Some (FAnd fe time_filter)
      | None => Some time_filter
      end
  | _ => filter_expr
  end.

(** [l[:k]] *)
Definition slice_to {A} (k : Z) (l : list A) : list A :=
  if (0 <=? k)%Z then take (Z.to_nat k) l
  else take (Z.to_nat (Z.of_nat (length l) + k)) l.

Definition hit_image_id (hit : row) : M client string :=
  v ← dict_item hit "image_id";
  match v with
  | VStr s => ret s
  | _ => raise TypeError      (* the store keeps strings there *)
  end.

Fixpoint collect_image_ids (hits : list row) (image_ids : gset string) : M client (gset string) :=
  match hits with
  | [] => ret image_ids
  | hit :: hits' =>
      image_id ← hit_image_id hit;
      collect_image_ids hits' ({[image_id]} ∪ image_ids)
  end.

Definition row_vector_item (r : row) : M client (list Q) :=
  v ← dict_item r "vector";
  match v with
  | VVec x => ret x
  | _ => raise ValueError
  end.

(** [np.dot(data, doc_vecs.T).max(1).sum()] *)
Definition late_interaction_np (data : list (list Q)) (vs : list (list Q)) : M client Q :=
  doc_vecs ← of_option (np.vstack vs) ValueError;
  a ← of_option (np.asarray data) ValueError;
  prod ← of_option (np.dot a (np.T doc_vecs)) ValueError;
  m ← of_option (np.max1 prod) ValueError;
  ret (np.sum m).

Definition dangling_metadata (image_id : string) : row :=
  <["image_id" := VStr image_id]> (<["file_id" := VNone]> (<["page_number" := VNone]> ∅)).

Definition rerank_single_doc (image_id : string) (data : list (list Q))
    (collection_name : string) (output_fields : list string) (use_old_schema : bool)
  : M client (Q * row) :=
  doc_colbert_vecs ←
    client_query collection_name (FImageIdIn [image_id]) output_fields 1000 0;
  match doc_colbert_vecs with
  | [] => ret (0%Q, dangling_metadata image_id)
  | first_record :: _ =>
      file_id ← dict_item first_record "file_id";
      page_number ← dict_item first_record "page_number";
      let metadata : row :=
        if use_old_schema then
          <["image_id" := VStr image_id]>
          (<["file_id" := file_id]>
          (<["page_number" := page_number]>
          (<["media_type" := VStr "image"]>
          (<["timestamp_start" := VFloat 0]>
          (<["timestamp_end" := VFloat 0]>
          (<["duration" := VFloat 0]>
          (<["segment_id" := VStr ""]> ∅)))))))
        else
          <["image_id" := VStr image_id]>
          (<["file_id" := file_id]>
          (<["page_number" := page_number]>
          (<["media_type" := dict_get first_record "media_type" (VStr "image")]>
          (<["timestamp_start" := dict_get first_record "timestamp_start" (VFloat 0)]>
          (<["timestamp_end" := dict_get first_record "timestamp_end" (VFloat 0)]>
          (<["duration" := dict_get first_record "duration" (VFloat 0)]>
          (<["segment_id" := dict_get first_record "segment_id" (VStr "")]> ∅))))))) in
      vs ← mapM row_vector_item doc_colbert_vecs;
      score ← late_interaction_np data vs;
      ret (score, metadata)
  end.

(** One entry of the list [_process_search_results] returns. *)
Definition result_entry (sm : Q * row) : M client row :=
  let '(score, metadata) := sm in
  image_id ← dict_item metadata "image_id";
  file_id ← dict_item metadata "file_id";
  page_number ← dict_item metadata "page_number";
  media_type ← dict_item metadata "media_type";
  timestamp_start ← dict_item metadata "timestamp_start";
  timestamp_end ← dict_item metadata "timestamp_end";
  duration ← dict_item metadata "duration";
  segment_id ← dict_item metadata "segment_id";
  ret (<["score" := VFloat score]>
       (<["image_id" := image_id]>
       (<["file_id" := file_id]>
       (<["page_number" := page_number]>
       (<["media_type" := media_type]>
       (<["timestamp_start" := timestamp_start]>
       (<["timestamp_end" := timestamp_end]>
       (<["duration" := duration]>
       (<["segment_id" := segment_id]> (∅ : row)))))))))).

Section WithScheduler.

(** [with ThreadPoolExecutor(max_workers=300) as executor] submits one
    [rerank_single_doc] task per group and gathers the results as they
    complete.  The executor and its threads are Python's and are not
    modelled.  The order in which the fetches of a set of groups complete is
    not fixed by the code: [sched] turns the elements of the set into that
    order.  The fetches are modelled as issued one after the other, in the
    same order. *)
Variable sched : list string -> list string.

Definition _process_search_results (results : list (list row)) (data : list (list Q))
    (collection_name : string) (topk : Z) (output_fields : list string)
    (use_old_schema : bool) : M client (list row) :=
  image_ids ← collect_image_ids (concat results) ∅;
  futures ← mapM (fun image_id =>
                    attempt (rerank_single_doc image_id data collection_name
                               output_fields use_old_schema))
                 (sched (elements image_ids));
  scores ← mapM future_result futures;
  let scores := sort_desc fst scores in
  mapM result_entry (slice_to topk scores).

Definition _search_with_new_schema (collection_name : string) (data : list (list Q))
    (topk : Z) (media_type_filter : option string) (time_range_filter : option (list Q))
  : M client (list row) :=
  let filter_expr := build_filter media_type_filter time_range_filter in
  results ←
    match filter_expr with
    | Some expr =>          (* search_kwargs["expr"] = filter_expr *)
        client_search_expr collection_name data expr 50 new_output_fields
    | None => client_search collection_name data FAll 50 new_output_fields
    end;
  _process_search_results results data collection_name topk new_output_fields false.

Definition _search_with_old_schema (collection_name : string) (data : list (list Q))
    (topk : Z) : M client (list row) :=
  results ← client_search collection_name data FAll 50 old_output_fields;
  _process_search_results results data collection_name topk old_output_fields true.

Definition search (collection_name : string) (data : list (list Q)) (topk : Z)
    (media_type_filter : option string) (time_range_filter : option (list Q))
  : M client (list row) :=
  try_except
    (_search_with_new_schema collection_name data topk media_type_filter time_range_filter)
    (fun _ => _search_with_old_schema collection_name data topk).

End WithScheduler.

End Search.

(** ** More of the store: deleting rows *)

(** [client.delete(collection_name, filter)]: removes the rows that pass the
    filter.  What it hands back is the store's own answer. *)
Definition client_delete (name : string) (f : filter_expr) : M client value :=
  c0 ← get_state;
  tick (CDelete name f);;
  col ← get_coll name;
  if fields_known col (filter_fields f) then
    c ← get_state;
    put_state
      (with_colls
         (<[name := {| c_dim := c_dim col; c_fields := c_fields col;
                       c_rows := filter (fun r => ¬ eval_filter f r) (c_rows col) |}]> (colls c))
         c);;
    mret (answers c0 (length (log c0)) (CDelete name f))
  else raise MilvusException.

(** ** [MilvusManager]: the other operations (milvus.py) *)

Module Maintenance.

Import MilvusManager.

Definition delete_collection (collection_name : string) : M client bool :=
  ex ← has_collection collection_name;
  if (ex : bool) then (drop_collection collection_name;; ret true) else ret false.

(** The filter string is "file_id in ['a', 'b', ]": membership in the list
    of the ids.  [res], whatever the client hands back, is returned as it
    is. *)
Definition delete_files (collection_name : string) (file_ids : list string) : M client value :=
  res ← client_delete collection_name (FFileIdIn file_ids);
  ret res.

Definition check_collection (collection_name : string) : M client bool :=
  ex ← has_collection collection_name;
  if (ex : bool) then ret true else ret false.

Definition migrate_collection_schema (collection_name : string) (dim : nat) : M client unit :=
  (* try: ... except Exception: raise *)
  ex ← has_collection collection_name;
  if negb ex then create_collection collection_name dim false
  else create_collection collection_name dim true.

End Maintenance.

(** ** Ingestion and retrieval helpers (rag/utils.py, rag/llm_service.py) *)

Module Rag.

(** [segment.get('start_time', segment.get('timestamp', 0.0))] and the like. *)
Definition segment_start (segment : row) : value :=
  dict_get segment "start_time" (dict_get segment "timestamp" (VFloat 0)).

Definition segment_end (segment : row) : value :=
  dict_get segment "end_time" (dict_get segment "timestamp" (VFloat 0)).

(** The dictionary [insert_media_to_milvus] hands to [insert] for the
    segment at position [i]. *)
Definition media_record (i : nat) (emb : list (list Q)) (segment_id : string)
    (segment : row) (file_id media_type : string) : row :=
  <["colqwen_vecs" := VVecs emb]>
  (<["page_number" := VInt (Z.of_nat i)]>
  (<["image_id" := VStr segment_id]>
  (<["file_id" := VStr file_id]>
  (<["media_type" := VStr media_type]>
  (<["timestamp_start" := segment_start segment]>
  (<["timestamp_end" := segment_end segment]>
  (<["duration" := dict_get segment "duration" (VFloat 0)]>
  (<["segment_id" := VStr segment_id]> (∅ : row))))))))).

(** The loop of [insert_records]:
    [for i, (emb, segment_id, segment) in enumerate(zip(...))]. *)
Fixpoint insert_records_from (i : nat) (collection_name : string)
    (zipped : list (list (list Q) * string * row)) (file_id media_type : string)
  : M client unit :=
  match zipped with
  | [] => ret tt
  | (emb, segment_id, segment) :: rest =>
      Search.insert (media_record i emb segment_id segment file_id media_type) collection_name;;
      insert_records_from (S i) collection_name rest file_id media_type
  end.

Definition insert_media_to_milvus (collection_name : string)
    (embeddings : list (list (list Q))) (segment_ids : list string) (file_id : string)
    (segments : list row) (media_type : string) : M client unit :=
  insert_records_from 0 collection_name (zip (zip embeddings segment_ids) segments)
    file_id media_type.

(** [item["score"]] where it is compared with a bound, which is a float:
    the score must be a number. *)
Definition item_score {S} (item : row) : M S Q :=
  v ← dict_item item "score";
  match v with
  | VFloat x => ret x
  | VInt n => ret (inject_Z n)
  | _ => raise TypeError
  end.

(** [[item for item in data if keep(item["score"])]] *)
Fixpoint filter_by_score {S} (keep : Q -> bool) (data : list row) : M S (list row) :=
  match data with
  | [] => ret []
  | item :: data' =>
      score ← item_score item;
      rest ← filter_by_score keep data';
      ret (if keep score then item :: rest else rest)
  end.

(** Python's [<] between two values, as far as [sorted] needs it: numbers
    compare with numbers, strings with strings, lists with lists (the first
    position where two lists differ decides, else the shorter one is the
    smaller); [None] where Python raises TypeError. *)
Definition as_number (v : value) : option Q :=
  match v with
  | VFloat x => Some x
  | VInt n => Some (inject_Z n)
  | _ => None
  end.

Fixpoint vec_eq (v w : list Q) : bool :=
  match v, w with
  | [], [] => true
  | x :: v', y :: w' => Qeq_bool x y && vec_eq v' w'
  | _, _ => false
  end.

Fixpoint vec_lt (v w : list Q) : bool :=
  match v, w with
  | _, [] => false
  | [], _ :: _ => true
  | x :: v', y :: w' => if Qeq_bool x y then vec_lt v' w' else negb (Qle_bool y x)
  end.

Fixpoint vecs_lt (v w : list (list Q)) : bool :=
  match v, w with
  | _, [] => false
  | [], _ :: _ => true
  | x :: v', y :: w' => if vec_eq x y then vecs_lt v' w' else vec_lt x y
  end.

Definition value_lt (a b : value) : option bool :=
  match as_number a, as_number b with
  | Some x, Some y => Some (negb (Qle_bool y x))
  | _, _ =>
      match a, b with
      | VStr s, VStr t => Some (String.ltb s t)
      | VVec v, VVec w => Some (vec_lt v w)
      | VVecs v, VVecs w => Some (vecs_lt v w)
      | VVec [], VVecs w => Some (match w with [] => false | _ => true end)
      | VVecs [], VVec w => Some (match w with [] => false | _ => true end)
      | VVec _, VVecs [] => Some false
      | VVecs _, VVec [] => Some false
      | _, _ => None
      end
  end.

(** [sorted(data, key=..., reverse=True)] on the items with their keys:
    descending and stable.  The keys are compared with [<], and a
    comparison that raises ends the sort; a list of one item is compared
    with nothing. *)
Fixpoint insert_by_key {S} (x : value * row) (l : list (value * row))
  : M S (list (value * row)) :=
  match l with
  | [] => ret [x]
  | y :: l' =>
      lt ← Search.of_option (value_lt x.1 y.1) TypeError;
      if (lt : bool) then (rest ← insert_by_key x l'; ret (y :: rest))
      else ret (x :: y :: l')
  end.

Fixpoint sorted_by_key {S} (l : list (value * row)) : M S (list (value * row)) :=
  match l with
  | [] => ret []
  | x :: l' => rest ← sorted_by_key l'; insert_by_key x rest
  end.

(** [sort_and_filter(data, min_score, max_score)]; [sorted] computes the
    key of every item, then sorts. *)
Definition sort_and_filter {S} (data : list row) (min_score max_score : option Q)
  : M S (list row) :=
  data ← match min_score with
         | Some lo => filter_by_score (fun s => Qle_bool lo s) data
         | None => ret data
         end;
  data ← match max_score with
         | Some hi => filter_by_score (fun s => Qle_bool s hi) data
         | None => ret data
         end;
  keyed ← mapM (fun item => score ← dict_item item "score"; ret (score, item)) data;
  sorted_data ← sorted_by_key keyed;
  ret (snd <$> sorted_data).

(** The bounds [create_chat_stream] puts on the configured [top_K] and
    [score_threshold]. *)
Definition clamp_top_K (top_K : Z) : Z :=
  if (top_K =? -1)%Z then 3%Z
  else if (top_K <? 1)%Z then 1%Z
  else if (30 <? top_K)%Z then 30%Z
  else top_K.

Definition clamp_score_threshold (score_threshold : Q) : Q :=
  if Qeq_bool score_threshold (-1) then 10%Q
  else if negb (Qle_bool 0 score_threshold) then 0%Q
  else if negb (Qle_bool score_threshold 20) then 20%Q
  else score_threshold.

(** [s.replace(a, b)] for single characters. *)
Fixpoint replace_char (a b : Ascii.ascii) (s : string) : string :=
  match s with
  | EmptyString => EmptyString
  | String x s' => String (if Ascii.eqb x a then b else x) (replace_char a b s')
  end.

(** [f"colqwen{base_id.replace('-', '_')}"] *)
Definition collection_name_of (base_id : string) : string :=
  ("colqwen" ++ replace_char "-"%char "_"%char base_id)%string.

Section WithScheduler.

Variable sched : list string -> list string.

(** The search over the knowledge bases of a chat: every base whose
    collection exists is searched and its results are tagged with the
    collection. *)
Fixpoint search_bases (base_ids : list string) (data : list (list Q)) (top_K : Z)
  : M client (list row) :=
  match base_ids with
  | [] => ret []
  | base_id :: rest =>
      let collection_name := collection_name_of base_id in
      ex ← Maintenance.check_collection collection_name;
      scores ←
        (if (ex : bool) then
           scores ← Search.search sched collection_name data top_K None None;
           ret ((fun score => <["collection_name" := VStr collection_name]> score) <$> scores)
         else ret []);
      more ← search_bases rest data top_K;
      ret (scores ++ more)
  end.

(** The retrieval of [create_chat_stream] up to [cut_score]: search, filter
    by the score threshold, sort, and keep the [top_K] best.  The loop over
    [cut_score] that follows it (which looks every file up in the database
    and deletes the vectors of a file that is gone) is not part of this
    definition. *)
Definition retrieve (base_ids : list string) (data : list (list Q)) (top_K : Z)
    (score_threshold : Q) : M client (list row) :=
  let top_K := clamp_top_K top_K in
  let score_threshold := clamp_score_threshold score_threshold in
  result_score ← search_bases base_ids data top_K;
  sorted_score ← sort_and_filter result_score (Some score_threshold) None;
  ret (if (top_K <=? Z.of_nat (length sorted_score))%Z
       then Search.slice_to top_K sorted_score
       else sorted_score).

End WithScheduler.

End Rag.

(** ** The segments of an audio file (rag/convert_media.py) *)

Module MediaConverter.







End MediaConverter.

(** * Properties *)

(** ** Calls that only read the store *)

Definition logged (k : call) (c : client) : client :=
  {| colls := colls c; log := log c ++ [k]; faults := faults c; answers := answers c |}.

(** [c'] is [c] after some more calls that left the collections alone. *)
Definition extends (c c' : client) : Prop :=
  colls c' = colls c /\ faults c' = faults c /\ exists l, log c' = log c ++ l.

Definition readonly {A} (m : M client A) : Prop :=
  forall c, extends c (m c).2.

Ltac munfold :=
  unfold mbind, mret, M_bind, M_ret, bind, ret, raise, try_except, when, lift,
    modify_local, get_state, put_state in *.

Lemma extends_refl c : extends c c.
Proof. repeat split. exists []. by rewrite app_nil_r. Qed.

Lemma extends_trans c1 c2 c3 : extends c1 c2 -> extends c2 c3 -> extends c1 c3.
Proof.
  intros (Hc & Hf & l & Hl) (Hc' & Hf' & l' & Hl'). repeat split; try congruence.
  exists (l ++ l'). rewrite Hl', Hl. by rewrite app_assoc.
Qed.

Lemma readonly_ret {A} (a : A) : readonly (mret a).
Proof. intros c. apply extends_refl. Qed.

Lemma readonly_raise {A} e : readonly (@raise client A e).
Proof. intros c. apply extends_refl. Qed.

Lemma readonly_bind {A B} (m : M client A) (k : A -> M client B) :
  readonly m -> (forall a, readonly (k a)) -> readonly (m ≫= k).
Proof.
  intros Hm Hk c. specialize (Hm c). munfold.
  destruct (m c) as [[a | e |] c1]; simpl in *; auto.
  eapply extends_trans; [exact Hm | apply Hk].
Qed.

Lemma readonly_try {A} (m : M client A) (h : exn -> M client A) :
  readonly m -> (forall e, readonly (h e)) -> readonly (try_except m h).
Proof.
  intros Hm Hh c. specialize (Hm c). munfold.
  destruct (m c) as [[a | e |] c1]; simpl in *; auto.
  eapply extends_trans; [exact Hm | apply Hh].
Qed.

Lemma readonly_get_state : readonly get_state.
Proof. intros c. apply extends_refl. Qed.

Lemma readonly_tick k : readonly (tick k).
Proof.
  intros c. unfold tick. munfold. destruct (faults c (length (log c)) k); simpl;
    (repeat split; eauto).
Qed.

Lemma readonly_get_coll name : readonly (get_coll name).
Proof.
  intros c. unfold get_coll. munfold. destruct (colls c !! name); apply extends_refl.
Qed.

Create HintDb readonly_db.
#[export] Hint Resolve readonly_ret readonly_raise readonly_get_state readonly_tick
  readonly_get_coll : readonly_db.

Ltac readonly_tac :=
  repeat first
    [ solve [ auto with readonly_db ]
    | apply readonly_bind; [ | intros ?; cbv beta ]
    | apply readonly_try; [ | intros ?; cbv beta ]
    | match goal with
      | |- readonly (if ?b then _ else _) => destruct b
      | |- readonly (match ?x with _ => _ end) => destruct x
      end ].

Lemma readonly_has_collection name : readonly (has_collection name).
Proof. unfold has_collection. readonly_tac. Qed.

Lemma readonly_describe_collection name : readonly (describe_collection name).
Proof. unfold describe_collection. readonly_tac. Qed.

Lemma readonly_client_query name f fs limit offset :
  readonly (client_query name f fs limit offset).
Proof. unfold client_query. readonly_tac. Qed.

Lemma readonly_get_row_count name : readonly (get_row_count name).
Proof. unfold get_row_count. readonly_tac. Qed.

#[export] Hint Resolve readonly_has_collection readonly_describe_collection
  readonly_client_query readonly_get_row_count : readonly_db.

Lemma readonly_check_body name : readonly (DatabaseMigrationManager.check_body name).
Proof. unfold DatabaseMigrationManager.check_body. readonly_tac. Qed.

Lemma readonly_check_schema_compatibility name :
  readonly (DatabaseMigrationManager.check_schema_compatibility name).
Proof.
  unfold DatabaseMigrationManager.check_schema_compatibility.
  apply readonly_try; [apply readonly_check_body | intros; apply readonly_ret].
Qed.

Lemma readonly_validate_migration name expected :
  readonly (DatabaseMigrationManager.validate_migration name expected).
Proof. unfold DatabaseMigrationManager.validate_migration. readonly_tac. Qed.

Import MilvusManager DatabaseMigrationManager.

(** ** Running single client calls *)

Definition faulty (c : client) (k : call) : bool := faults c (length (log c)) k.

Lemma tick_run k c :
  tick k c = (if faulty c k then Raise MilvusException else Ok tt, logged k c).
Proof. unfold tick, faulty. munfold. simpl. by destruct (faults c _ k). Qed.

Lemma has_collection_run name c :
  has_collection name c =
    (if faulty c (CHasCollection name) then Raise MilvusException
     else Ok (bool_decide (is_Some (colls c !! name))),
     logged (CHasCollection name) c).
Proof.
  unfold has_collection. munfold. rewrite tick_run. by destruct (faulty c _).
Qed.

Lemma drop_collection_run name c :
  drop_collection name c =
    if faulty c (CDropCollection name)
    then (Raise MilvusException, logged (CDropCollection name) c)
    else (Ok tt, with_colls (delete name (colls c)) (logged (CDropCollection name) c)).
Proof.
  unfold drop_collection. munfold. rewrite tick_run. by destruct (faulty c _).
Qed.

Lemma client_create_collection_run name dim fields c :
  client_create_collection name dim fields c =
    if faulty c (CCreateCollection name)
    then (Raise MilvusException, logged (CCreateCollection name) c)
    else match colls c !! name with
         | Some _ => (Raise MilvusException, logged (CCreateCollection name) c)
         | None =>
             (Ok tt,
              with_colls (<[name := {| c_dim := dim; c_fields := fields; c_rows := [] |}]> (colls c))
                (logged (CCreateCollection name) c))
         end.
Proof.
  unfold client_create_collection. munfold. rewrite tick_run.
  destruct (faulty c _); [done |]. simpl. by destruct (colls c !! name).
Qed.

Lemma extends_logged k c : extends c (logged k c).
Proof. repeat split. by exists [k]. Qed.

Lemma readonly_index_call k name : readonly (index_call k name).
Proof. unfold index_call. readonly_tac. Qed.

Lemma readonly_create_index name : readonly (_create_index name).
Proof.
  unfold _create_index.
  repeat (apply readonly_bind; [apply readonly_index_call | intros ?; cbv beta]).
  apply readonly_index_call.
Qed.

(** ** Computations that cannot run out of fuel *)

Definition total {S A} (m : M S A) : Prop := forall s, (m s).1 <> Diverge.

Lemma total_ret {S A} (a : A) : total (@ret S A a).
Proof. by intros s. Qed.

Lemma total_mret {S A} (a : A) : total (mret a : M S A).
Proof. by intros s. Qed.

Lemma total_raise {S A} e : total (@raise S A e).
Proof. by intros s. Qed.

Lemma total_bind {S A B} (m : M S A) (k : A -> M S B) :
  total m -> (forall a, total (k a)) -> total (m ≫= k).
Proof.
  intros Hm Hk s. specialize (Hm s). munfold.
  destruct (m s) as [[a | e |] s1]; simpl in *; try done. apply Hk.
Qed.

Lemma total_try {S A} (m : M S A) (h : exn -> M S A) :
  total m -> (forall e, total (h e)) -> total (try_except m h).
Proof.
  intros Hm Hh s. specialize (Hm s). munfold.
  destruct (m s) as [[a | e |] s1]; simpl in *; try done. apply Hh.
Qed.

Lemma total_get_state {S} : total (@get_state S).
Proof. by intros s. Qed.

Lemma total_put_state {S} (s : S) : total (put_state s).
Proof. by intros ?. Qed.

Create HintDb total_db.
#[export] Hint Resolve total_ret total_mret total_raise total_get_state total_put_state : total_db.

Ltac total_tac :=
  repeat first
    [ solve [ auto with total_db ]
    | apply total_bind; [ | intros ?; cbv beta ]
    | apply total_try; [ | intros ?; cbv beta ]
    | match goal with
      | |- total (if ?b then _ else _) => destruct b
      | |- total (match ?x with _ => _ end) => destruct x
      end ].

Lemma total_tick k : total (tick k).
Proof. unfold tick. total_tac. Qed.
#[export] Hint Resolve total_tick : total_db.

Lemma total_get_coll name : total (get_coll name).
Proof. unfold get_coll. total_tac. Qed.
#[export] Hint Resolve total_get_coll : total_db.

Lemma total_index_call k name : total (index_call k name).
Proof. unfold index_call. total_tac. Qed.
#[export] Hint Resolve total_index_call : total_db.

Lemma total_create_index name : total (_create_index name).
Proof. unfold _create_index. total_tac. Qed.

Definition new_empty (dim : nat) : collection :=
  {| c_dim := dim; c_fields := schema_fields; c_rows := [] |}.

Definition log_extends (c c' : client) : Prop := exists l, log c' = log c ++ l.

Lemma log_extends_refl c : log_extends c c.
Proof. exists []. by rewrite app_nil_r. Qed.

Lemma log_extends_trans c1 c2 c3 : log_extends c1 c2 -> log_extends c2 c3 -> log_extends c1 c3.
Proof. intros [l Hl] [l' Hl']. exists (l ++ l'). by rewrite Hl', Hl, app_assoc. Qed.

Lemma log_extends_logged k c c' : log_extends c c' -> log_extends c (logged k c').
Proof. intros H. eapply log_extends_trans; [exact H |]. by exists [k]. Qed.

Lemma log_extends_with_colls cs c c' : log_extends c c' -> log_extends c (with_colls cs c').
Proof. done. Qed.

Lemma extends_log_extends c c' : extends c c' -> log_extends c c'.
Proof. by intros (_ & _ & H). Qed.

Ltac log_tac :=
  repeat first [ apply log_extends_refl
               | apply log_extends_logged
               | apply log_extends_with_colls ].

Ltac fresh_done :=
  eexists _, _; split; [reflexivity |]; split; [done |]; split; [log_tac |];
  split; [by left | done].

(** [create_collection] on a name that is free: the collection is either
    still absent or new and empty afterwards, and new and empty when the call
    returns. *)
Lemma create_collection_fresh name dim c :
  colls c !! name = None ->
  exists r c',
    create_collection name dim false c = (r, c') /\
    r <> Diverge /\
    log_extends c c' /\
    (colls c' !! name = None \/ colls c' !! name = Some (new_empty dim)) /\
    (r = Ok tt -> colls c' !! name = Some (new_empty dim)).
Proof.
  intros Hnone. unfold create_collection. munfold.
  rewrite has_collection_run.
  destruct (faulty c _).
  { fresh_done. }
  rewrite Hnone. simpl.
  rewrite has_collection_run.
  destruct (faulty _ _).
  { fresh_done. }
  simpl. rewrite Hnone. simpl.
  rewrite client_create_collection_run.
  destruct (faulty _ _).
  { fresh_done. }
  simpl. rewrite Hnone.
  match goal with |- context [_create_index name ?c3] =>
    pose proof (readonly_create_index name c3) as (Hc & _);
    pose proof (extends_log_extends _ _ (readonly_create_index name c3)) as Hl;
    pose proof (total_create_index name c3) as Ht;
    destruct (_create_index name c3) as [r c4]
  end.
  simpl in Hc, Ht. cbn [snd] in Hl.
  assert (Hnew : colls c4 !! name = Some (new_empty dim)).
  { rewrite Hc. apply lookup_insert_eq. }
  assert (Hlog : log_extends c c4).
  { eapply log_extends_trans; [| exact Hl]. log_tac. }
  destruct r; eexists _, _; (split; [reflexivity |]); repeat split; eauto.
Qed.

Lemma needs_migration_exists name c compat c1 :
  check_schema_compatibility name c = (Ok compat, c1) ->
  needs_migration compat = true ->
  exists_ compat = true /\ is_Some (colls c1 !! name) /\ faults c1 = faults c.
Proof.
  intros Hcheck Hneeds.
  pose proof (readonly_check_schema_compatibility name c) as (Hc & Hf & _).
  rewrite Hcheck in Hc, Hf. simpl in Hc, Hf.
  revert Hcheck.
  unfold check_schema_compatibility, check_body, describe_collection, get_coll. munfold.
  rewrite has_collection_run. destruct (faulty c _); simpl.
  { intros [= <- <-]. done. }
  destruct (bool_decide (is_Some (colls c !! name))) eqn:Hex; simpl.
  2:{ intros [= <- <-]. done. }
  apply bool_decide_eq_true in Hex.
  rewrite tick_run. destruct (faulty _ _); simpl.
  { intros [= <- <-]. done. }
  destruct (colls c !! name) as [col |] eqn:Hcol; simpl.
  2:{ intros [= <- <-]. done. }
  destruct (filter _ _); intros [= <- <-]; [done |].
  rewrite Hc. rewrite Hcol. eauto.
Qed.

(** ** The CHECK phase *)

Section Check.

Import DatabaseMigrationManager.

Lemma no_missing_fields (fields : list string) :
  (forall f, f ∈ required_new_fields -> f ∈ fields) ->
  filter (fun field => field ∉ fields) required_new_fields = [].
Proof.
  intros H. induction required_new_fields as [| f l IH]; [done |].
  rewrite filter_cons. destruct (decide (f ∉ fields)) as [Hn | _].
  - exfalso. apply Hn, H. left.
  - apply IH. intros g Hg. apply H. by right.
Qed.

(** On a collection that has every new field, the check never asks for a
    migration, whatever the store does. *)
Lemma check_compatible name c col :
  colls c !! name = Some col ->
  (forall f, f ∈ required_new_fields -> f ∈ c_fields col) ->
  exists compat c1,
    check_schema_compatibility name c = (Ok compat, c1) /\
    needs_migration compat = false /\
    (check_message compat = MsgCompatible \/ exists e, check_message compat = MsgCheckError e) /\
    ((forall n k, faults c n k = false) -> check_message compat = MsgCompatible).
Proof.
  intros Hcol Hfields.
  unfold check_schema_compatibility, check_body, has_collection, describe_collection,
    get_coll, tick. munfold. simpl.
  destruct (faults c (length (log c)) (CHasCollection name)) eqn:F1; simpl.
  { eexists _, _. split; [reflexivity |]. simpl. repeat split; eauto.
    intros Hno. by rewrite Hno in F1. }
  rewrite Hcol. rewrite bool_decide_eq_true_2 by eauto. simpl.
  destruct (faults c _ (CDescribeCollection name)) eqn:F2; simpl.
  { eexists _, _. split; [reflexivity |]. simpl. repeat split; eauto.
    intros Hno. by rewrite Hno in F2. }
  rewrite Hcol. simpl. rewrite (no_missing_fields _ Hfields). simpl.
  eexists _, _. split; [reflexivity |]. simpl. repeat split; eauto.
Qed.

Lemma schema_has_new_fields f :
  f ∈ required_new_fields -> f ∈ MilvusManager.schema_fields.
Proof.
  unfold required_new_fields, MilvusManager.schema_fields. intros Hf.
  repeat (apply elem_of_cons in Hf as [-> | Hf]; [ by repeat constructor |]).
  by apply elem_of_nil in Hf.
Qed.

Lemma safe_migrate_no_migration name dim backup c compat c1 :
  check_schema_compatibility name c = (Ok compat, c1) ->
  needs_migration compat = false ->
  safe_migrate_collection name dim backup c =
    (Ok (set_message (check_message compat) (set_success true initial_result)), c1).
Proof.
  intros Hcheck Hneeds. unfold safe_migrate_collection, safe_migrate_body. munfold. simpl.
  rewrite Hcheck. simpl. rewrite Hneeds. reflexivity.
Qed.

End Check.

(** ** Sample stores *)

Definition legacy_fields : list string :=
  ["pk"; "vector"; "image_id"; "page_number"; "file_id"].

Definition legacy_row (image_id file_id : string) (page : Z) (v : list Q) : row :=
  <["vector" := VVec v]>
  (<["image_id" := VStr image_id]>
  (<["page_number" := VInt page]>
  (<["file_id" := VStr file_id]> ∅))).

Definition no_faults : nat -> call -> bool := fun _ _ => false.

(** A store whose deletes hand back nothing worth reading. *)
Definition no_answers : nat -> call -> value := fun _ _ => VNone.

(** Every query (page read, group fetch) fails; the other calls succeed. *)
Definition query_faults : nat -> call -> bool :=
  fun _ k => match k with CQuery _ _ _ _ => true | _ => false end.

(** Only [describe_collection] fails. *)
Definition describe_faults : nat -> call -> bool :=
  fun _ k => match k with CDescribeCollection _ => true | _ => false end.

(** A collection "kb" created before the media fields existed, with one row. *)
Definition legacy_collection : collection :=
  {| c_dim := 2; c_fields := legacy_fields; c_rows := [legacy_row "g1" "f1" 0 [1; 0]%Q] |}.

Definition legacy_store (f : nat -> call -> bool) : client :=
  {| colls := {[ "kb" := legacy_collection ]}; log := []; faults := f;
     answers := no_answers |}.

(** A collection "kb" of the current shape, with the migrated row. *)
Definition current_store (f : nat -> call -> bool) : client :=
  {| colls := {[ "kb" := {| c_dim := 2; c_fields := MilvusManager.schema_fields;
                            c_rows := [MilvusManager.migrated_record
                                         (legacy_row "g1" "f1" 0 [1; 0]%Q)] |} ]};
     log := []; faults := f; answers := no_answers |}.

(** ** C10 and C8: errors in the check, and compatible collections *)

Section MigrationNoop.

Import DatabaseMigrationManager.

(** C10: when the body of [check_schema_compatibility] raises (a client call
    of the CHECK phase fails), the check answers with [needs_migration]
    false and the error, and [safe_migrate_collection] returns [success]
    true without any further call to the store: nothing is backed up,
    dropped, created or restored, and the collections are as before. *)
Theorem check_error_reported_as_success name dim backup c e c1 :
  check_body name c = (Raise e, c1) ->
  (exists compat,
      check_schema_compatibility name c = (Ok compat, c1) /\
      needs_migration compat = false /\ check_error compat = Some e) /\
  (exists r,
      safe_migrate_collection name dim backup c = (Ok r, c1) /\
      success r = true /\ backup_created r = false /\ data_migrated r = false /\
      records_processed r = 0 /\ errors r = [] /\
      result_message r = Some (MsgCheckError e)) /\
  colls c1 = colls c.
Proof.
  intros Hbody.
  assert (Hcheck : check_schema_compatibility name c =
    (Ok {| exists_ := false; compatible := false; needs_migration := false;
           missing_fields := []; check_error := Some e;
           check_message := MsgCheckError e |}, c1)).
  { unfold check_schema_compatibility. munfold. by rewrite Hbody. }
  split; [| split].
  - eexists. split; [exact Hcheck | done].
  - eexists. split; [by apply (safe_migrate_no_migration _ _ _ _ _ _ Hcheck) |]. done.
  - pose proof (readonly_check_body name c) as Hro. rewrite Hbody in Hro. apply Hro.
Qed.

Lemma check_error_reported_as_success_witness :
  check_body "kb" (legacy_store describe_faults) =
    (Raise MilvusException,
     (check_body "kb" (legacy_store describe_faults)).2) /\
  exists r,
    safe_migrate_collection "kb" 2 true (legacy_store describe_faults) =
      (Ok r, (check_body "kb" (legacy_store describe_faults)).2) /\
    success r = true.
Proof.
  split; [reflexivity |].
  destruct (check_error_reported_as_success "kb" 2 true (legacy_store describe_faults)
              MilvusException (check_body "kb" (legacy_store describe_faults)).2 eq_refl)
    as (_ & (r & Hr & Hs & _) & _).
  exists r. split; [exact Hr | exact Hs].
Defined.

(** C8: on a collection that already has all the expected fields, a
    migration reports success and changes nothing, and a second migration
    right after the first does the same: no backup, no restore, the
    collections (hence the row count) unchanged, whatever the store does.
    When no call fails, both runs report that the collection is compatible. *)
Theorem migrate_compatible_twice_noop name dim backup c col :
  colls c !! name = Some col ->
  (forall f, f ∈ required_new_fields -> f ∈ c_fields col) ->
  exists r1 c1 r2 c2,
    safe_migrate_collection name dim backup c = (Ok r1, c1) /\
    safe_migrate_collection name dim backup c1 = (Ok r2, c2) /\
    (success r1 = true /\ backup_created r1 = false /\ data_migrated r1 = false /\
     records_processed r1 = 0 /\ errors r1 = []) /\
    (success r2 = true /\ backup_created r2 = false /\ data_migrated r2 = false /\
     records_processed r2 = 0 /\ errors r2 = []) /\
    colls c1 = colls c /\ colls c2 = colls c /\
    row_count_of c2 name = row_count_of c name /\
    ((forall n k, faults c n k = false) ->
     result_message r1 = Some MsgCompatible /\ result_message r2 = Some MsgCompatible).
Proof.
  intros Hcol Hfields.
  destruct (check_compatible name c col Hcol Hfields) as (k1 & c1 & Hk1 & Hn1 & _ & Hm1).
  pose proof (readonly_check_schema_compatibility name c) as (Hc1 & Hf1 & _).
  rewrite Hk1 in Hc1, Hf1. simpl in Hc1, Hf1.
  assert (Hcol1 : colls c1 !! name = Some col) by (by rewrite Hc1).
  destruct (check_compatible name c1 col Hcol1 Hfields) as (k2 & c2 & Hk2 & Hn2 & _ & Hm2).
  pose proof (readonly_check_schema_compatibility name c1) as (Hc2 & _).
  rewrite Hk2 in Hc2. simpl in Hc2.
  eexists; exists c1; eexists; exists c2.
  split; [exact (safe_migrate_no_migration _ dim backup _ _ _ Hk1 Hn1) |].
  split; [exact (safe_migrate_no_migration _ dim backup _ _ _ Hk2 Hn2) |].
  repeat split; try done; try congruence.
  - unfold row_count_of. by rewrite Hc2, Hc1.
  - simpl. by rewrite Hm1.
  - simpl. rewrite Hm2; [done |]. intros n k. by rewrite Hf1.
Qed.

Lemma migrate_compatible_twice_noop_witness :
  exists r1 c1 r2 c2,
    safe_migrate_collection "kb" 2 true (current_store no_faults) = (Ok r1, c1) /\
    safe_migrate_collection "kb" 2 true c1 = (Ok r2, c2) /\
    success r1 = true /\ success r2 = true /\
    row_count_of c2 "kb" = 1 /\
    result_message r2 = Some MsgCompatible.
Proof.
  destruct (migrate_compatible_twice_noop "kb" 2 true (current_store no_faults)
              {| c_dim := 2; c_fields := MilvusManager.schema_fields;
                 c_rows := [MilvusManager.migrated_record (legacy_row "g1" "f1" 0 [1; 0]%Q)] |})
    as (r1 & c1 & r2 & c2 & H1 & H2 & (S1 & _) & (S2 & _) & _ & _ & Hrows & Hmsg).
  - reflexivity.
  - exact schema_has_new_fields.
  - exists r1, c1, r2, c2. repeat split; try assumption.
    apply Hmsg. reflexivity.
Defined.

End MigrationNoop.

(** ** C1 and C7: a backup that fails, and what the validation compares *)

Section BackupAndValidate.

(** C1 (amended): when a migration is needed and the backup cannot read the
    existing rows, [_create_safe_backup] answers [None] and the migration
    goes on without a backup: the next call is the drop of the old
    collection, [backup_created] and [data_migrated] stay false and no row is
    restored.  Once the drop has gone through, the collection is absent or
    new and empty, so its old rows are gone; it is new and empty when the
    migration reports success. *)
Theorem backup_failure_proceeds_without_backup name dim c compat c1 c2 :
  check_schema_compatibility name c = (Ok compat, c1) ->
  needs_migration compat = true ->
  _create_safe_backup name c1 = (Ok None, c2) ->
  exists r c',
    safe_migrate_collection name dim true c = (Ok r, c') /\
    backup_created r = false /\ data_migrated r = false /\ records_processed r = 0 /\
    log_extends (logged (CDropCollection name) c2) c' /\
    (faulty c2 (CDropCollection name) = false ->
       row_count_of c' name = 0 /\
       (success r = true -> colls c' !! name = Some (new_empty dim))).
Proof.
  intros Hcheck Hneeds Hbackup.
  destruct (needs_migration_exists _ _ _ _ Hcheck Hneeds) as (Hex & _ & _).
  unfold safe_migrate_collection, safe_migrate_body. munfold. simpl.
  rewrite Hcheck. simpl. rewrite Hneeds, Hex. simpl. rewrite Hbackup. simpl.
  rewrite drop_collection_run.
  destruct (faulty c2 _) eqn:Fdrop; simpl.
  { eexists _, _. split; [reflexivity |]. simpl. repeat split; try done. log_tac. }
  match goal with |- context [create_collection name dim false ?c3] =>
    destruct (create_collection_fresh name dim c3) as (r & c' & Hcreate & Hnd & Hlog & Hcol & Hok);
      [ apply lookup_delete_eq | rewrite Hcreate ]
  end.
  assert (Hrows : row_count_of c' name = 0).
  { unfold row_count_of. by destruct Hcol as [-> | ->]. }
  destruct r as [[] | e |]; [| | done]; simpl;
    (eexists _, _; split; [reflexivity |]); simpl; repeat split; try done; auto.
Qed.

Lemma client_query_run name f fs limit offset c :
  client_query name f fs limit offset c =
    (if faulty c (CQuery name f limit offset) then Raise MilvusException
     else match colls c !! name with
          | None => Raise MilvusException
          | Some col =>
              if fields_known col fs && fields_known col (filter_fields f)
              then Ok (project fs <$>
                         take limit (drop offset (filter (fun r => eval_filter f r) (c_rows col))))
              else Raise MilvusException
          end,
     logged (CQuery name f limit offset) c).
Proof.
  unfold client_query, get_coll. munfold. rewrite tick_run.
  destruct (faulty c _); [done |]. simpl. destruct (colls c !! name) as [col |]; [| done].
  by destruct (_ && _).
Qed.

Lemma filter_all_rows (l : list row) : filter (fun r => eval_filter FAll r) l = l.
Proof.
  induction l as [| r l IH]; [done |]. rewrite filter_cons_True by done. by rewrite IH.
Qed.

Lemma backup_loop_total fuel name all_data offset c :
  row_count_of c name - offset < fuel ->
  (backup_loop fuel name all_data offset c).1 <> Diverge.
Proof.
  revert all_data offset c. induction fuel as [| fuel IH]; intros all_data offset c Hfuel; [lia |].
  simpl. munfold. rewrite client_query_run.
  destruct (faulty c _); [done |].
  unfold row_count_of in Hfuel.
  destruct (colls c !! name) as [col |] eqn:Hcol; [| done].
  destruct (_ && _); [| done].
  rewrite filter_all_rows.
  destruct (project ["*"] <$> take batch_size_backup (drop offset (c_rows col)))
    as [| r batch] eqn:Hbatch; [done |].
  destruct (length (r :: batch) <? batch_size_backup) eqn:Hlt; [done |].
  apply IH. apply Nat.ltb_ge in Hlt.
  unfold row_count_of. cbn [colls logged]. rewrite Hcol.
  assert (Hlen : length (r :: batch) = length (take batch_size_backup (drop offset (c_rows col)))).
  { by rewrite <- Hbatch, length_fmap. }
  rewrite Hlen in *. rewrite length_take, length_drop in *.
  unfold batch_size_backup in *. lia.
Qed.

Lemma total_create_safe_backup name : total (_create_safe_backup name).
Proof.
  intros c. unfold _create_safe_backup. munfold. cbv beta.
  pose proof (backup_loop_total (S (row_count_of c name)) name [] 0 c) as H.
  destruct (backup_loop (S (row_count_of c name)) name [] 0 c) as [[l | e |] c'];
    cbn [fst] in *; try done.
  exfalso. apply H; [lia | done].
Qed.

Lemma get_row_count_run name c :
  get_row_count name c =
    (if faulty c (CGetCollectionStats name) then Raise MilvusException
     else match colls c !! name with
          | None => Raise MilvusException
          | Some col => Ok (length (c_rows col))
          end,
     logged (CGetCollectionStats name) c).
Proof.
  unfold get_row_count, get_coll. munfold. rewrite tick_run.
  destruct (faulty c _); [done |]. simpl. by destruct (colls c !! name).
Qed.

(** C7 (amended): [validate_migration] always returns a result; with an
    explicit expected count it reports success only when the collection
    exists and its row count equals that count.  With no expected count it
    reports success whenever the collection exists and its statistics can be
    read, whatever the count.  [perform_safe_migration] passes no expected
    count, and the validation it attaches leaves [success] true. *)
Theorem validate_compares_explicit_count_only name dim expected c :
  (exists v c',
      validate_migration name expected c = (Ok v, c') /\ colls c' = colls c /\
      (v_success v = true ->
       exists col, colls c !! name = Some col /\
                   v_record_count v = Some (length (c_rows col)) /\
                   forall n, expected = Some n -> Z.of_nat (length (c_rows col)) = n)) /\
  (forall col,
      colls c !! name = Some col ->
      faulty c (CHasCollection name) = false ->
      faulty (logged (CHasCollection name) c) (CGetCollectionStats name) = false ->
      exists v c',
        validate_migration name None c = (Ok v, c') /\
        v_success v = true /\ v_record_count v = Some (length (c_rows col))) /\
  (forall r c1,
      safe_migrate_collection name dim true c = (Ok r, c1) ->
      success r = true ->
      exists v c2,
        validate_migration name None c1 = (Ok v, c2) /\
        perform_safe_migration name dim c = (Ok (set_validation v r), c2) /\
        success (set_validation v r) = true).
Proof.
  split; [| split].
  - pose proof (readonly_validate_migration name expected c) as (Hc & _).
    revert Hc. unfold validate_migration. munfold.
    rewrite has_collection_run. destruct (faulty c _); simpl.
    { intros Hc. eexists _, _. split; [reflexivity |]. split; [exact Hc | done]. }
    destruct (colls c !! name) as [col |] eqn:Hcol; simpl.
    2:{ intros Hc. eexists _, _. split; [reflexivity |]. split; [exact Hc | done]. }
    rewrite get_row_count_run. destruct (faulty _ _); simpl.
    { intros Hc. eexists _, _. split; [reflexivity |]. split; [exact Hc | done]. }
    rewrite Hcol. simpl. destruct expected as [n |]; simpl.
    + destruct (bool_decide (Z.of_nat (length (c_rows col)) ≠ n)) eqn:Hne; simpl;
        intros Hc; (eexists _, _; split; [reflexivity |]; split; [exact Hc |]); simpl; [done |].
      intros _. exists col. repeat split. intros m [= <-].
      apply bool_decide_eq_false in Hne. by destruct (decide (Z.of_nat (length (c_rows col)) = n)).
    + intros Hc. eexists _, _. split; [reflexivity |]. split; [exact Hc |]. simpl.
      intros _. exists col. repeat split. done.
  - intros col Hcol F1 F2. unfold validate_migration. munfold.
    rewrite has_collection_run, F1. simpl. rewrite Hcol. simpl.
    rewrite get_row_count_run, F2. simpl. rewrite Hcol. simpl.
    eexists _, _. split; [reflexivity |]. done.
  - intros r c1 Hmig Hsucc.
    pose proof (readonly_validate_migration name None c1) as _.
    assert (Hv : exists v c2, validate_migration name None c1 = (Ok v, c2)).
    { unfold validate_migration. munfold.
      rewrite has_collection_run. destruct (faulty c1 _); simpl; [eauto |].
      destruct (bool_decide _); simpl; [| eauto].
      rewrite get_row_count_run. destruct (faulty _ _); simpl; [eauto |].
      destruct (colls c1 !! name); simpl; eauto. }
    destruct Hv as (v & c2 & Hv). exists v, c2. split; [exact Hv |].
    unfold perform_safe_migration. munfold. rewrite Hmig. simpl. rewrite Hsucc.
    rewrite Hv. done.
Qed.

Lemma backup_failure_proceeds_without_backup_witness :
  exists r c',
    safe_migrate_collection "kb" 2 true (legacy_store query_faults) = (Ok r, c') /\
    backup_created r = false /\ data_migrated r = false /\ records_processed r = 0 /\
    row_count_of (legacy_store query_faults) "kb" = 1 /\
    row_count_of c' "kb" = 0.
Proof.
  destruct (backup_failure_proceeds_without_backup "kb" 2 (legacy_store query_faults)
              {| exists_ := true; compatible := false; needs_migration := true;
                 missing_fields := required_new_fields; check_error := None;
                 check_message := MsgMissingFields required_new_fields |}
              (check_schema_compatibility "kb" (legacy_store query_faults)).2
              (_create_safe_backup "kb"
                 (check_schema_compatibility "kb" (legacy_store query_faults)).2).2)
    as (r & c' & Hrun & Hb & Hd & Hn & _ & Hdrop).
  - vm_compute. reflexivity.
  - reflexivity.
  - vm_compute. reflexivity.
  - exists r, c'. repeat split; try assumption. apply Hdrop. vm_compute. reflexivity.
Defined.

(** C1, as stated, fails: on a legacy collection with one row whose page
    read fails, the backup answers [None], and the migration still drops the
    collection, recreates it empty and reports success; the row is lost. *)
Lemma backup_failure_still_drops :
  (_create_safe_backup "kb"
     (check_schema_compatibility "kb" (legacy_store query_faults)).2).1 = Ok None /\
  row_count_of (legacy_store query_faults) "kb" = 1 /\
  (safe_migrate_collection "kb" 2 true (legacy_store query_faults)).1 =
    Ok {| success := true; backup_created := false; data_migrated := false;
          records_processed := 0; errors := [];
          result_message := Some (MsgMigrated "kb"); validation := None |} /\
  log (safe_migrate_collection "kb" 2 true (legacy_store query_faults)).2 =
    [CHasCollection "kb"; CDescribeCollection "kb"; CQuery "kb" FAll 1000 0;
     CDropCollection "kb"; CHasCollection "kb"; CHasCollection "kb";
     CCreateCollection "kb"; CReleaseCollection "kb"; CDropIndex "kb";
     CCreateIndex "kb"; CLoadCollection "kb"] /\
  row_count_of (safe_migrate_collection "kb" 2 true (legacy_store query_faults)).2 "kb" = 0.
Proof. vm_compute. repeat split. Qed.

(** C7, as stated, fails: the same run goes from one row to none, and the
    validation of [perform_safe_migration] passes with zero records while
    [success] stays true. *)
Lemma count_mismatch_not_reported :
  row_count_of (legacy_store query_faults) "kb" = 1 /\
  row_count_of (perform_safe_migration "kb" 2 (legacy_store query_faults)).2 "kb" = 0 /\
  (perform_safe_migration "kb" 2 (legacy_store query_faults)).1 =
    Ok {| success := true; backup_created := false; data_migrated := false;
          records_processed := 0; errors := [];
          result_message := Some (MsgMigrated "kb");
          validation := Some {| v_success := true; v_record_count := Some 0;
                                v_error := None; v_message := MsgValidationPassed 0 |} |}.
Proof. vm_compute. repeat split. Qed.

End BackupAndValidate.

(** ** C5: what an insert writes *)

Section Insert.
Import Search.

(** The record [insert] builds for one vector. *)
Definition record_of (data : row) (image_id page_number file_id : value) (vec : list Q) : row :=
  <["vector" := VVec vec]>
  (<["image_id" := image_id]>
  (<["page_number" := page_number]>
  (<["file_id" := file_id]>
  (<["media_type" := dict_get data "media_type" (VStr "image")]>
  (<["timestamp_start" := dict_get data "timestamp_start" (VFloat 0)]>
  (<["timestamp_end" := dict_get data "timestamp_end" (VFloat 0)]>
  (<["duration" := dict_get data "duration" (VFloat 0)]>
  (<["segment_id" := dict_get data "segment_id" (VStr "")]> (∅ : row))))))))).

Lemma client_insert_run name rs c :
  client_insert name rs c =
    if faulty c (CInsert name (length rs))
    then (Raise MilvusException, logged (CInsert name (length rs)) c)
    else match colls c !! name with
         | None => (Raise MilvusException, logged (CInsert name (length rs)) c)
         | Some col =>
             if forallb (row_ok col) rs
             then (Ok tt,
                   with_colls (<[name := {| c_dim := c_dim col; c_fields := c_fields col;
                                            c_rows := c_rows col ++ rs |}]> (colls c))
                     (logged (CInsert name (length rs)) c))
             else (Raise MilvusException, logged (CInsert name (length rs)) c)
         end.
Proof.
  unfold client_insert, get_coll. munfold. rewrite tick_run.
  destruct (faulty c _); [done |]. simpl. destruct (colls c !! name) as [col |]; [| done].
  by destruct (forallb _ _).
Qed.

Lemma insert_run data name vecs image_id page file_id c :
  data !! "colqwen_vecs" = Some (VVecs vecs) ->
  data !! "image_id" = Some image_id ->
  data !! "page_number" = Some page ->
  data !! "file_id" = Some file_id ->
  insert data name c = client_insert name (record_of data image_id page file_id <$> vecs) c.
Proof.
  intros Hv Hi Hp Hf. unfold insert, dict_item. rewrite Hv, Hi, Hp, Hf. munfold. simpl.
  assert (Hmap : forall c0,
    mapM (fun vec : list Q => fun s : client =>
            (Ok (record_of data image_id page file_id vec), s)) vecs c0
    = (Ok (record_of data image_id page file_id <$> vecs), c0)).
  { clear Hv. induction vecs as [| v vs IH]; intros c0; [done |].
    simpl. munfold. by rewrite IH. }
  unfold record_of in Hmap. rewrite Hmap. done.
Qed.

(** The records [insert_to_milvus] writes for the embedding at position [i]. *)
Definition page_records (i : nat) (image_id file_id : string) (emb : list (list Q)) : list row :=
  record_of ∅ (VStr image_id) (VInt (Z.of_nat i)) (VStr file_id) <$> emb.

Definition add_rows (col : collection) (rs : list row) : collection :=
  {| c_dim := c_dim col; c_fields := c_fields col; c_rows := c_rows col ++ rs |}.

Lemma insert_to_milvus_from_spec name image_ids file_id embeddings :
  forall i c c' col,
    insert_to_milvus_from i name embeddings image_ids file_id c = (Ok tt, c') ->
    colls c !! name = Some col ->
    exists ids,
      Forall2 (fun j id => image_ids !! j = Some id) (seq i (length embeddings)) ids /\
      colls c' !! name =
        Some (add_rows col
                (concat (zip_with (fun j_id emb => page_records j_id.1 j_id.2 file_id emb)
                           (zip (seq i (length embeddings)) ids) embeddings))) /\
      log c' = log c ++ ((fun emb => CInsert name (length emb)) <$> embeddings).
Proof.
  induction embeddings as [| emb rest IH]; intros i c c' col Hrun Hcol.
  - injection Hrun as <-. exists []. split; [constructor |]. split.
    + rewrite Hcol. unfold add_rows. simpl. rewrite app_nil_r. by destruct col.
    + simpl. by rewrite app_nil_r.
  - simpl in Hrun. unfold of_option in Hrun. munfold.
    destruct (image_ids !! i) as [id |] eqn:Hid; [| done]. simpl in Hrun.
    rewrite (insert_run _ name emb (VStr id) (VInt (Z.of_nat i)) (VStr file_id)) in Hrun
      by done.
    rewrite client_insert_run in Hrun.
    destruct (faulty c _); [done |]. rewrite Hcol in Hrun.
    destruct (forallb _ _); [| done].
    eapply IH in Hrun; [| apply lookup_insert_eq].
    destruct Hrun as (ids & Hids & Hc' & Hlog).
    exists (id :: ids). split; [by constructor |]. split.
    + rewrite Hc'. f_equal. unfold add_rows. simpl. f_equal.
      rewrite <- app_assoc. f_equal.
    + rewrite Hlog. cbn [log with_colls logged]. rewrite length_fmap, <- app_assoc. done.
Qed.


(** C5 (amended): an [insert] call with [n] vectors whose dictionary has
    the required keys makes exactly one store call, a bulk insert of [n]
    records; when it succeeds the collection gains exactly these [n]
    records, the i-th carrying the i-th vector, and every one of them carries
    the page number (and group and file) the caller passed; when it fails
    the collections are unchanged.  [insert_to_milvus] makes one such call
    per embedding, with the position of the embedding as page number. *)
Theorem insert_writes_one_record_per_vector data name vecs image_id page file_id c :
  data !! "colqwen_vecs" = Some (VVecs vecs) ->
  data !! "image_id" = Some image_id ->
  data !! "page_number" = Some page ->
  data !! "file_id" = Some file_id ->
  (exists r c',
      insert data name c = (r, c') /\
      log c' = log c ++ [CInsert name (length vecs)] /\
      (r <> Ok tt -> colls c' = colls c) /\
      (r = Ok tt ->
       exists col recs,
         colls c !! name = Some col /\
         colls c' = <[name := add_rows col recs]> (colls c) /\
         length recs = length vecs /\
         forall i v, vecs !! i = Some v ->
           exists rec, recs !! i = Some rec /\
                       rec !! "vector" = Some (VVec v) /\
                       rec !! "page_number" = Some page /\
                       rec !! "image_id" = Some image_id /\
                       rec !! "file_id" = Some file_id)) /\
  (forall embeddings image_ids file c' col,
      insert_to_milvus name embeddings image_ids file c = (Ok tt, c') ->
      colls c !! name = Some col ->
      exists ids,
        Forall2 (fun j id => image_ids !! j = Some id) (seq 0 (length embeddings)) ids /\
        colls c' !! name =
          Some (add_rows col
                  (concat (zip_with (fun j_id emb => page_records j_id.1 j_id.2 file emb)
                             (zip (seq 0 (length embeddings)) ids) embeddings))) /\
        log c' = log c ++ ((fun emb => CInsert name (length emb)) <$> embeddings)) /\
  (forall i group file emb rec,
      rec ∈ page_records i group file emb ->
      rec !! "page_number" = Some (VInt (Z.of_nat i)) /\
      rec !! "image_id" = Some (VStr group) /\ rec !! "file_id" = Some (VStr file)).
Proof.
  intros Hv Hi Hp Hf. split; [| split].
  - rewrite (insert_run _ _ _ _ _ _ _ Hv Hi Hp Hf), client_insert_run.
    rewrite length_fmap.
    destruct (faulty c _).
    { eexists _, _. split; [reflexivity |]. done. }
    destruct (colls c !! name) as [col |] eqn:Hcol.
    2:{ eexists _, _. split; [reflexivity |]. done. }
    destruct (forallb _ _).
    2:{ eexists _, _. split; [reflexivity |]. done. }
    eexists _, _. split; [reflexivity |]. split; [done |]. split; [done |].
    intros _. exists col, (record_of data image_id page file_id <$> vecs).
    split; [done |]. split; [done |]. split; [by rewrite length_fmap |].
    intros i v Hiv. exists (record_of data image_id page file_id v).
    split; [by rewrite list_lookup_fmap, Hiv |]. done.
  - intros embeddings image_ids file c' col. apply insert_to_milvus_from_spec.
  - intros i group file emb rec Hin. unfold page_records in Hin.
    apply list_elem_of_fmap in Hin as (v & -> & _). done.
Qed.

(** A page of two vectors, as [insert_to_milvus] passes it for page 0. *)
Definition two_vector_page : row :=
  <["colqwen_vecs" := VVecs [[1; 0]; [0; 1]]%Q]>
  (<["page_number" := VInt 0]>
  (<["image_id" := VStr "g1"]>
  (<["file_id" := VStr "f1"]> ∅))).

Definition empty_store : client :=
  {| colls := {[ "kb" := {| c_dim := 2; c_fields := schema_fields; c_rows := [] |} ]};
     log := []; faults := no_faults; answers := no_answers |}.

Lemma insert_writes_one_record_per_vector_witness :
  exists r c',
    insert two_vector_page "kb" empty_store = (r, c') /\
    log c' = [CInsert "kb" 2].
Proof.
  destruct (insert_writes_one_record_per_vector two_vector_page "kb"
              [[1; 0]; [0; 1]]%Q (VStr "g1") (VInt 0) (VStr "f1") empty_store
              eq_refl eq_refl eq_refl eq_refl) as ((r & c' & Hrun & Hlog & _) & _).
  exists r, c'. split; [exact Hrun | exact Hlog].
Defined.

(** C5, as stated, fails: both records of a two-vector insert carry the
    page number of the call, 0; the record of the second vector (position 1)
    does not carry 1. *)
Lemma page_number_is_not_position :
  (insert two_vector_page "kb" empty_store).1 = Ok tt /\
  log (insert two_vector_page "kb" empty_store).2 = [CInsert "kb" 2] /\
  ((fun col => (fun r => (r !! "vector", r !! "page_number")) <$> c_rows col) <$>
     colls (insert two_vector_page "kb" empty_store).2 !! "kb") =
    Some [(Some (VVec [1; 0]%Q), Some (VInt 0)); (Some (VVec [0; 1]%Q), Some (VInt 0))].
Proof. vm_compute. repeat split. Qed.

End Insert.

(** ** Late interaction: the score of a list of vectors *)

Section LateInteraction.
Import Search.

(** [m] is the maximum inner product between [q] and a vector of [group]. *)
Definition is_max_inner (group : list (list Q)) (q : list Q) (m : Q) : Prop :=
  (exists v, v ∈ group /\ m = inner q v) /\
  (forall v, v ∈ group -> (inner q v <= m)%Q).

Lemma fmap_nth_seq {A B} (g : A -> B) (l : list A) (d : A) :
  (fun i => g (nth i l d)) <$> seq 0 (length l) = g <$> l.
Proof.
  induction l as [| a l IH]; [done |].
  simpl. f_equal. rewrite <- seq_shift, <- list_fmap_compose. exact IH.
Qed.

Lemma fmap_seq_ext {B} (f g : nat -> B) (n : nat) :
  (forall i, i < n -> f i = g i) -> f <$> seq 0 n = g <$> seq 0 n.
Proof.
  intros H. apply list_fmap_ext. intros i x Hx. apply lookup_seq in Hx as [-> Hi]. by apply H.
Qed.

Lemma sum_products_inner (a b : list Q) :
  length a = length b ->
  foldr Qplus 0%Q ((fun k => nth k a 0 * nth k b 0)%Q <$> seq 0 (length a)) = inner a b.
Proof.
  revert b. induction a as [| x a IH]; intros [| y b] Hlen; try done.
  simpl in *. unfold inner. simpl. f_equal.
  rewrite <- seq_shift, <- list_fmap_compose. apply IH. lia.
Qed.

Lemma maximum_cases x y : (np.maximum x y = x /\ (y <= x)%Q) \/ (np.maximum x y = y /\ (x <= y)%Q).
Proof.
  unfold np.maximum. destruct (Qle_bool x y) eqn:H.
  - right. split; [done |]. by apply Qle_bool_iff.
  - left. split; [done |]. destruct (Qlt_le_dec y x) as [Hlt | Hle].
    + by apply Qlt_le_weak.
    + apply Qle_bool_iff in Hle. congruence.
Qed.

Lemma foldl_maximum_spec (x : Q) (r : list Q) :
  foldl np.maximum x r ∈ x :: r /\ forall y, y ∈ x :: r -> (y <= foldl np.maximum x r)%Q.
Proof.
  revert x. induction r as [| z r IH]; intros x; simpl.
  - split; [left |]. intros y Hy. apply list_elem_of_singleton in Hy as ->. apply Qle_refl.
  - destruct (IH (np.maximum x z)) as [Hin Hub]. split.
    + apply elem_of_cons in Hin as [-> | Hin].
      * destruct (maximum_cases x z) as [[-> _] | [-> _]]; [left | right; left].
      * by do 2 right.
    + intros y Hy.
      assert (Hm : (np.maximum x z <= foldl np.maximum (np.maximum x z) r)%Q) by (apply Hub; left).
      apply elem_of_cons in Hy as [-> | Hy]; [| apply elem_of_cons in Hy as [-> | Hy]].
      * eapply Qle_trans; [| exact Hm].
        destruct (maximum_cases x z) as [[-> _] | [-> ?]]; [apply Qle_refl | done].
      * eapply Qle_trans; [| exact Hm].
        destruct (maximum_cases x z) as [[-> ?] | [-> _]]; [done | apply Qle_refl].
      * apply Hub. by right.
Qed.

Lemma nth_fmap_seq {B} (f : nat -> B) (n i : nat) (d : B) :
  i < n -> nth i (f <$> seq 0 n) d = f i.
Proof.
  intros Hi. rewrite nth_lookup, list_lookup_fmap.
  by rewrite (proj2 (lookup_seq 0 n i i) (conj eq_refl Hi)).
Qed.

Lemma nth_length_in {A} (P : A -> Prop) (l : list A) (i : nat) (d : A) :
  Forall P l -> i < length l -> P (nth i l d).
Proof.
  intros HP Hi. rewrite nth_lookup.
  destruct (lookup_lt_is_Some_2 l i Hi) as [x Hx]. rewrite Hx. simpl.
  by eapply Forall_lookup_1.
Qed.

Lemma vstack_same_length (vs : list (list Q)) (d : nat) :
  vs <> [] -> Forall (fun v => length v = d) vs ->
  np.vstack vs = Some {| np.nrows := length vs; np.ncols := d; np.rows := vs |}.
Proof.
  intros Hne Hall. destruct vs as [| v vs']; [done |]. unfold np.vstack.
  assert (Hv : length v = d) by (by inversion Hall).
  rewrite (proj2 (forallb_forall _ _)).
  - by rewrite Hv.
  - intros w Hw. apply bool_decide_eq_true. rewrite Hv.
    apply list_elem_of_In in Hw. by eapply (proj1 (Forall_forall _ _) Hall).
Qed.

(** The maximum of a non-empty row, as [max(1)] computes it. *)
Definition row_max (r : list Q) : Q :=
  match r with
  | [] => 0%Q
  | x :: r' => foldl np.maximum x r'
  end.

Lemma dot_transpose_rows (data vs : list (list Q)) (d : nat) :
  Forall (fun v => length v = d) vs ->
  Forall (fun q => length q = d) data ->
  np.dot {| np.nrows := length data; np.ncols := d; np.rows := data |}
         (np.T {| np.nrows := length vs; np.ncols := d; np.rows := vs |}) =
  Some {| np.nrows := length data; np.ncols := length vs;
          np.rows := (fun q => inner q <$> vs) <$> data |}.
Proof.
  intros Hvs Hdata. unfold np.dot. simpl.
  rewrite bool_decide_eq_true_2 by done. f_equal. f_equal.
  rewrite <- (fmap_nth_seq (fun q => inner q <$> vs) data []).
  apply fmap_seq_ext. intros i Hi.
  rewrite <- (fmap_nth_seq (inner (nth i data [])) vs []).
  apply fmap_seq_ext. intros j Hj.
  pose proof (nth_length_in _ _ i [] Hdata Hi) as Hq.
  pose proof (nth_length_in _ _ j [] Hvs Hj) as Hv. simpl in Hq, Hv.
  rewrite <- sum_products_inner by congruence. rewrite Hq.
  f_equal. apply fmap_seq_ext. intros k Hk.
  unfold np.get. simpl. f_equal.
  rewrite (nth_fmap_seq _ d k []) by done. by rewrite (nth_fmap_seq _ (length vs) j 0%Q).
Qed.

Lemma late_interaction_np_run (data vs : list (list Q)) (d : nat) (c : client) :
  vs <> [] -> data <> [] ->
  Forall (fun v => length v = d) vs ->
  Forall (fun q => length q = d) data ->
  late_interaction_np data vs c =
    (Ok (np.sum ((fun q => row_max (inner q <$> vs)) <$> data)), c).
Proof.
  intros Hvs Hdata Hvd Hdd. unfold late_interaction_np, of_option. munfold.
  rewrite (vstack_same_length vs d Hvs Hvd). simpl.
  assert (Ha : np.asarray data =
               Some {| np.nrows := length data; np.ncols := d; np.rows := data |}).
  { unfold np.asarray. destruct data; [done |]. by apply vstack_same_length. }
  rewrite Ha. simpl. rewrite (dot_transpose_rows data vs d Hvd Hdd). simpl.
  unfold np.max1. simpl. rewrite bool_decide_eq_false_2 by (by destruct vs). simpl.
  by rewrite <- list_fmap_compose.
Qed.

Lemma row_max_is_max_inner (group : list (list Q)) (q : list Q) :
  group <> [] -> is_max_inner group q (row_max (inner q <$> group)).
Proof.
  intros Hne. destruct group as [| v vs]; [done |]. simpl.
  destruct (foldl_maximum_spec (inner q v) (inner q <$> vs)) as [Hin Hub]. split.
  - change (inner q v :: (inner q <$> vs)) with (inner q <$> v :: vs) in Hin.
    apply list_elem_of_fmap in Hin as (w & Hw & Hin). eauto.
  - intros w Hw. apply Hub.
    change (inner q v :: (inner q <$> vs)) with (inner q <$> v :: vs).
    by apply list_elem_of_fmap_2.
Qed.

Lemma row_vector_item_run (r : row) (v : list Q) (c : client) :
  r !! "vector" = Some (VVec v) -> row_vector_item r c = (Ok v, c).
Proof. intros Hr. unfold row_vector_item, dict_item. rewrite Hr. by munfold. Qed.

Lemma mapM_row_vector_item (docs : list row) (vecs : list (list Q)) (d : nat) (c : client) :
  Forall2 (fun r v => r !! "vector" = Some (VVec v) /\ length v = d) docs vecs ->
  mapM row_vector_item docs c = (Ok vecs, c).
Proof.
  intros H. revert c. induction H as [| r v docs vecs [Hr _] _ IH]; intros c; [done |].
  cbn [mapM]. munfold. rewrite (row_vector_item_run r v c Hr). by rewrite IH.
Qed.

(** The scenario of the specification: group "g1" with the vectors [1,0],
    [0,1], [1,1] of file "f1", group "g2" with the vector [1,0] of file
    "f2". *)
Definition g1_a : row := migrated_record (legacy_row "g1" "f1" 0 [1; 0]%Q).
Definition g1_b : row := migrated_record (legacy_row "g1" "f1" 0 [0; 1]%Q).
Definition g1_c : row := migrated_record (legacy_row "g1" "f1" 0 [1; 1]%Q).
Definition g2_a : row := migrated_record (legacy_row "g2" "f2" 0 [1; 0]%Q).

Definition scenario_collection : collection :=
  {| c_dim := 2; c_fields := schema_fields; c_rows := [g1_a; g1_b; g1_c; g2_a] |}.

Definition scenario_store : client :=
  {| colls := {[ "kb" := scenario_collection ]}; log := []; faults := no_faults;
     answers := no_answers |}.

Definition scenario_query : list (list Q) := [[1; 0]; [0; 1]]%Q.

(** The list a run returned, if it returned one. *)
Definition fetched (r : result (list row) * client) : list row :=
  match r.1 with
  | Ok l => l
  | _ => []
  end.

Definition score_of (r : result (Q * row) * client) : option Q :=
  match r.1 with
  | Ok (score, _) => Some score
  | _ => None
  end.

(** The scenario's scores: 1 + 1 for "g1", 1 + 0 for "g2". *)
Example scenario_scores :
  score_of (rerank_single_doc "g1" scenario_query "kb" new_output_fields false scenario_store)
    = Some 2%Q /\
  score_of (rerank_single_doc "g2" scenario_query "kb" new_output_fields false scenario_store)
    = Some 1%Q.
Proof. vm_compute. split; reflexivity. Qed.

End LateInteraction.

(** ** C3: the list [_process_search_results] returns *)

(** ** Computations that leave the state alone *)

Definition pure {S A} (m : M S A) : Prop :=
  forall s, (m s).2 = s /\ (m s).1 <> Diverge.

Lemma pure_ret {S A} (a : A) : pure (@ret S A a).
Proof. by intros s. Qed.

Lemma pure_mret {S A} (a : A) : pure (mret a : M S A).
Proof. by intros s. Qed.

Lemma pure_raise {S A} e : pure (@raise S A e).
Proof. by intros s. Qed.

Lemma pure_bind {S A B} (m : M S A) (k : A -> M S B) :
  pure m -> (forall a, pure (k a)) -> pure (m ≫= k).
Proof.
  intros Hm Hk s. destruct (Hm s) as [Hs Hd]. munfold.
  destruct (m s) as [[a | e |] s1]; simpl in *; subst; try done. apply Hk.
Qed.

Lemma pure_dict_item {S} (d : row) (k : string) : pure (@dict_item S d k).
Proof. unfold dict_item. destruct (d !! k); [apply pure_ret | apply pure_raise]. Qed.

Lemma pure_of_option {S A} (o : option A) e : pure (@Search.of_option S A o e).
Proof. destruct o; [apply pure_ret | apply pure_raise]. Qed.

Lemma pure_future_result {S A} (r : result A) : r <> Diverge -> pure (@future_result S A r).
Proof. by intros Hr s. Qed.

Lemma pure_mapM {S A B} (f : A -> M S B) (l : list A) :
  (forall a, pure (f a)) -> pure (mapM f l).
Proof.
  intros Hf. induction l as [| a l IH]; [apply pure_ret |].
  simpl. apply pure_bind; [apply Hf | intros b].
  apply pure_bind; [apply IH | intros bs; apply pure_ret].
Qed.

Create HintDb pure_db.
#[export] Hint Resolve pure_ret pure_mret pure_raise pure_dict_item pure_of_option : pure_db.

Ltac pure_tac :=
  repeat first
    [ solve [ auto with pure_db ]
    | apply pure_bind; [ | intros ?; cbv beta ]
    | apply pure_mapM; intros ?
    | match goal with
      | |- pure (if ?b then _ else _) => destruct b
      | |- pure (match ?x with _ => _ end) => destruct x
      end ].

(** What a pure computation returns. *)
Lemma pure_run {S A} (m : M S A) (s : S) :
  pure m -> (exists a, m s = (Ok a, s)) \/ (exists e, m s = (Raise e, s)).
Proof.
  intros Hm. destruct (Hm s) as [Hs Hd].
  destruct (m s) as [[a | e |] s1]; simpl in *; subst; [eauto | eauto | done].
Qed.

Section Rerank.

Import Search.

Lemma pure_row_vector_item r : pure (row_vector_item r).
Proof. unfold row_vector_item. pure_tac. Qed.

Lemma pure_late_interaction_np data vs : pure (late_interaction_np data vs).
Proof. unfold late_interaction_np. pure_tac. Qed.

Lemma pure_hit_image_id hit : pure (hit_image_id hit).
Proof. unfold hit_image_id. pure_tac. Qed.

Lemma pure_result_entry sm : pure (result_entry sm).
Proof. unfold result_entry. destruct sm. pure_tac. Qed.

Lemma pure_collect_image_ids hits acc : pure (collect_image_ids hits acc).
Proof.
  revert acc. induction hits as [| hit hits IH]; intros acc; [apply pure_ret |].
  simpl. apply pure_bind; [apply pure_hit_image_id | intros id; apply IH].
Qed.

Definition group_fetch (name image_id : string) : call :=
  CQuery name (FImageIdIn [image_id]) 1000 0.

(** A rerank of one group is one fetch, whatever comes of it; the metadata
    it returns names the group. *)
Lemma rerank_single_doc_run image_id data name output_fields use_old_schema c :
  exists r,
    rerank_single_doc image_id data name output_fields use_old_schema c =
      (r, logged (group_fetch name image_id) c) /\
    r <> Diverge /\
    forall score metadata, r = Ok (score, metadata) ->
      metadata !! "image_id" = Some (VStr image_id).
Proof.
  unfold rerank_single_doc. munfold. rewrite client_query_run.
  set (c1 := logged _ c).
  destruct (faulty c _); [by eexists |].
  destruct (colls c !! name) as [col |]; [| by eexists].
  destruct (_ && _); [| by eexists].
  destruct (project output_fields <$> _) as [| first rest].
  { eexists. split; [reflexivity |]. split; [done |]. by intros ? ? [= <- <-]. }
  destruct (pure_run (dict_item first "file_id") c1 (pure_dict_item _ _)) as [[f ->] | [e ->]];
    [| by eexists].
  destruct (pure_run (dict_item first "page_number") c1 (pure_dict_item _ _)) as [[p ->] | [e ->]];
    [| by eexists].
  destruct (pure_run (mapM row_vector_item (first :: rest)) c1
              (pure_mapM _ _ pure_row_vector_item)) as [[vs ->] | [e ->]]; [| by eexists].
  destruct (pure_run (late_interaction_np data vs) c1 (pure_late_interaction_np _ _))
    as [[s ->] | [e ->]]; [| by eexists].
  eexists. split; [reflexivity |]. split; [done |].
  intros score metadata [= <- <-]. by destruct use_old_schema.
Qed.

(** The state after the fetches of [ids], in this order. *)
Definition after_fetches (name : string) (ids : list string) (c : client) : client :=
  foldl (fun c id => logged (group_fetch name id) c) c ids.

Lemma after_fetches_log name ids c :
  log (after_fetches name ids c) = log c ++ (group_fetch name <$> ids).
Proof.
  revert c. induction ids as [| id ids IH]; intros c; simpl.
  - by rewrite app_nil_r.
  - rewrite IH. simpl. by rewrite <- app_assoc.
Qed.

Lemma after_fetches_colls name ids c :
  colls (after_fetches name ids c) = colls c /\ faults (after_fetches name ids c) = faults c.
Proof.
  revert c. induction ids as [| id ids IH]; intros c; simpl; [done |].
  destruct (IH (logged (group_fetch name id) c)) as [-> ->]. done.
Qed.

Definition names_group (id : string) (sm : Q * row) : Prop :=
  sm.2 !! "image_id" = Some (VStr id).

Lemma futures_run data name output_fields use_old_schema ids c :
  exists fs,
    mapM (fun image_id =>
            attempt (rerank_single_doc image_id data name output_fields use_old_schema))
         ids c = (Ok fs, after_fetches name ids c) /\
    Forall2 (fun id f => f <> Diverge /\ forall sm, f = Ok sm -> names_group id sm) ids fs.
Proof.
  revert c. induction ids as [| id ids IH]; intros c.
  - exists []. split; [done | constructor].
  - cbn [mapM after_fetches foldl]. munfold. unfold attempt at 1.
    destruct (rerank_single_doc_run id data name output_fields use_old_schema c)
      as (r & -> & Hr & Hid).
    destruct (IH (logged (group_fetch name id) c)) as (fs & Hfs & Hall).
    assert (Hstep : forall r0 : result (Q * row), r0 = r ->
      match r0 with
      | Diverge => (@Diverge (result (Q * row)), logged (group_fetch name id) c)
      | _ => (Ok r0, logged (group_fetch name id) c)
      end = (Ok r, logged (group_fetch name id) c)).
    { intros r0 ->. by destruct r. }
    rewrite (Hstep r eq_refl). unfold after_fetches in Hfs. rewrite Hfs.
    exists (r :: fs). split; [done |]. constructor; [| done].
    split; [done |]. intros [score metadata] Hsm. by apply (Hid score metadata).
Qed.

Lemma future_results_run (fs : list (result (Q * row))) (c : client) :
  Forall (fun f => f <> Diverge) fs ->
  exists r, mapM future_result fs c = (r, c) /\ r <> Diverge /\
            forall scores, r = Ok scores -> fs = Ok <$> scores.
Proof.
  induction 1 as [| f fs Hf _ (r & IH & Hr & Hok)].
  - exists (Ok []). split; [done |]. split; [done |]. by intros ? [= <-].
  - cbn [mapM]. munfold. unfold future_result at 1. rewrite IH.
    destruct f as [sm | e |]; [| by eexists | done].
    destruct r as [scores | e |]; [| by eexists | done].
    eexists. split; [reflexivity |]. split; [done |].
    intros ? [= <-]. simpl. f_equal. by apply Hok.
Qed.

Definition entry_score (e : row) : Q :=
  match e !! "score" with
  | Some (VFloat x) => x
  | _ => 0%Q
  end.

Definition metadata_keys : list string :=
  ["image_id"; "file_id"; "page_number"; "media_type"; "timestamp_start"; "timestamp_end";
   "duration"; "segment_id"].

(** The entry of the returned list made from a scored group: the score, and
    the eight fields of the metadata. *)
Definition entry_of (sm : Q * row) (e : row) : Prop :=
  e !! "score" = Some (VFloat sm.1) /\
  forall k, k ∈ metadata_keys -> is_Some (e !! k) /\ e !! k = sm.2 !! k.

Lemma result_entry_run (sm : Q * row) (c : client) :
  exists r, result_entry sm c = (r, c) /\ r <> Diverge /\
            forall e, r = Ok e -> entry_of sm e.
Proof.
  destruct sm as [score metadata]. unfold result_entry, dict_item. munfold.
  repeat match goal with
    | |- context [metadata !! ?k] =>
        let H := fresh "H" in
        destruct (metadata !! k) eqn:H; simpl; [| by eexists]
    end.
  eexists. split; [reflexivity |]. split; [done |]. intros e [= <-].
  split; [done |]. intros k Hk. unfold metadata_keys in Hk. simpl.
  repeat (apply elem_of_cons in Hk as [-> | Hk];
          [ split; [by eexists |]; symmetry; etransitivity; [eassumption | reflexivity] |]).
  by apply elem_of_nil in Hk.
Qed.

Lemma result_entries_run (sms : list (Q * row)) (c : client) :
  exists r, mapM result_entry sms c = (r, c) /\ r <> Diverge /\
            forall l, r = Ok l -> Forall2 entry_of sms l.
Proof.
  induction sms as [| sm sms (r & IH & Hr & Hok)].
  - exists (Ok []). split; [done |]. split; [done |]. intros ? [= <-]. constructor.
  - cbn [mapM]. munfold.
    destruct (result_entry_run sm c) as (r1 & -> & Hr1 & Hok1). rewrite IH.
    destruct r1 as [e | e |]; [| by eexists | done].
    destruct r as [l | e' |]; [| by eexists | done].
    eexists. split; [reflexivity |]. split; [done |].
    intros ? [= <-]. constructor; [by apply Hok1 | by apply Hok].
Qed.

(** ** Sorting by descending key *)

Definition key_ge {A} (key : A -> Q) (a b : A) : Prop := (key b <= key a)%Q.

Lemma insert_desc_perm {A} (key : A -> Q) (x : A) (l : list A) :
  insert_desc key x l ≡ₚ x :: l.
Proof.
  induction l as [| y l IH]; [done |]. simpl.
  destruct (Qle_bool (key y) (key x)); [done |]. rewrite IH. apply Permutation_swap.
Qed.

Lemma sort_desc_perm {A} (key : A -> Q) (l : list A) : sort_desc key l ≡ₚ l.
Proof.
  induction l as [| x l IH]; [done |]. simpl. rewrite insert_desc_perm. by rewrite IH.
Qed.

Lemma insert_desc_sorted {A} (key : A -> Q) (x : A) (l : list A) :
  StronglySorted (key_ge key) l -> StronglySorted (key_ge key) (insert_desc key x l).
Proof.
  induction 1 as [| y l Hl IH Hy]; simpl.
  - repeat constructor.
  - destruct (Qle_bool (key y) (key x)) eqn:Hle.
    + apply Qle_bool_iff in Hle. constructor; [by constructor |].
      constructor; [exact Hle |].
      eapply Forall_impl; [exact Hy |]. intros z Hz. unfold key_ge in *.
      by eapply Qle_trans.
    + constructor; [exact IH |]. rewrite insert_desc_perm. constructor; [| exact Hy].
      unfold key_ge. destruct (Qlt_le_dec (key x) (key y)) as [Hlt | Hge].
      * by apply Qlt_le_weak.
      * apply Qle_bool_iff in Hge. congruence.
Qed.

Lemma sort_desc_sorted {A} (key : A -> Q) (l : list A) :
  StronglySorted (key_ge key) (sort_desc key l).
Proof.
  induction l as [| x l IH]; [constructor |]. simpl. by apply insert_desc_sorted.
Qed.

Lemma StronglySorted_take {A} (R : relation A) (n : nat) (l : list A) :
  StronglySorted R l -> StronglySorted R (take n l).
Proof.
  intros H. rewrite <- (take_drop n l) in H. by apply StronglySorted_app_1_l in H.
Qed.

Lemma StronglySorted_Forall2 {A B} (R : relation A) (R' : relation B) (P : A -> B -> Prop)
    (l : list A) (k : list B) :
  (forall a a' b b', P a b -> P a' b' -> R a a' -> R' b b') ->
  Forall2 P l k -> StronglySorted R l -> StronglySorted R' k.
Proof.
  intros HP H. induction H as [| a b l k Hab Hlk IH]; intros Hs; [constructor |].
  apply StronglySorted_inv in Hs as [Hs Hall]. constructor; [by apply IH |].
  clear IH Hs. induction Hlk as [| a' b' l k Hab' _ IH]; [constructor |].
  inversion Hall; subst. constructor; [by eapply HP | by apply IH].
Qed.

Lemma slice_to_nonneg {A} (k : Z) (l : list A) :
  (0 <= k)%Z -> slice_to k l = take (Z.to_nat k) l.
Proof. intros Hk. unfold slice_to. by rewrite (proj2 (Z.leb_le 0 k) Hk). Qed.


Definition hit_of_group (hits : list row) (id : string) : Prop :=
  exists hit, hit ∈ hits /\ hit !! "image_id" = Some (VStr id).

Lemma collect_image_ids_ok hits acc c c' ids :
  collect_image_ids hits acc c = (Ok ids, c') ->
  forall id, id ∈ ids <-> id ∈ acc \/ hit_of_group hits id.
Proof.
  revert acc. induction hits as [| hit hits IH]; intros acc Hrun id.
  - injection Hrun as <- _. split; [by left |]. intros [H | (h & Hh & _)]; [done |].
    by apply elem_of_nil in Hh.
  - cbn [collect_image_ids] in Hrun. unfold hit_image_id, dict_item in Hrun. munfold.
    destruct (hit !! "image_id") as [v |] eqn:Hv; [| done]. simpl in Hrun.
    destruct v; try done. simpl in Hrun. apply IH with (id := id) in Hrun. rewrite Hrun.
    rewrite elem_of_union, elem_of_singleton. split.
    + intros [[-> | H] | (h & Hh & Hid)]; [right | by left | right].
      * exists hit. split; [left | done].
      * exists h. split; [by right | done].
    + intros [H | (h & Hh & Hid)]; [by left; right |].
      apply elem_of_cons in Hh as [-> | Hh].
      * left; left. congruence.
      * right. by exists h.
Qed.

(** C3: whenever [_process_search_results] returns, the list has at most
    [topk] entries ([topk] not negative), every entry has a score at least
    as large as the entries after it, no group occurs twice in it, every
    entry is for a group of the coarse hits, and every distinct group of the
    coarse hits was fetched (and scored) exactly once. *)
Theorem process_results_topk_sorted_distinct (sched : list string -> list string)
    results data name (topk : Z) output_fields use_old_schema (c c' : client) (l : list row) :
  (forall ids, sched ids ≡ₚ ids) ->
  (0 <= topk)%Z ->
  _process_search_results sched results data name topk output_fields use_old_schema c
    = (Ok l, c') ->
  length l ≤ Z.to_nat topk /\
  StronglySorted (key_ge entry_score) l /\
  NoDup ((fun e => e !! "image_id") <$> l) /\
  (forall e, e ∈ l ->
     exists id, e !! "image_id" = Some (VStr id) /\ hit_of_group (concat results) id) /\
  exists ids,
    NoDup ids /\ (forall id, id ∈ ids <-> hit_of_group (concat results) id) /\
    log c' = log c ++ (group_fetch name <$> ids).
Proof.
  intros Hsched Htopk. unfold _process_search_results. munfold.
  destruct (pure_run (collect_image_ids (concat results) ∅) c (pure_collect_image_ids _ _))
    as [[ids Hids] | [e ->]]; [| done].
  rewrite Hids.
  pose proof (collect_image_ids_ok _ _ _ _ _ Hids) as Hmem.
  destruct (futures_run data name output_fields use_old_schema (sched (elements ids)) c)
    as (fs & -> & Hfs).
  set (order := sched (elements ids)) in *. set (c1 := after_fetches name order c).
  destruct (future_results_run fs c1) as (r & -> & Hr & Hscores).
  { eapply Forall2_Forall_r; [exact Hfs |]. apply Forall_forall. by intros ? _ ? [? _]. }
  destruct r as [scores | e |]; [| done | done].
  specialize (Hscores scores eq_refl). subst fs.
  destruct (result_entries_run (slice_to topk (sort_desc fst scores)) c1)
    as (r & -> & _ & Hentries).
  destruct r as [l0 | e |]; [| done | done].
  intros [= -> <-]. specialize (Hentries l eq_refl).
  rewrite slice_to_nonneg in Hentries by done.
  assert (Horder : NoDup order /\ forall id, id ∈ order <-> hit_of_group (concat results) id).
  { unfold order. split.
    - rewrite Hsched. apply NoDup_elements.
    - intros id. rewrite Hsched, elem_of_elements, Hmem. split; [| by right].
      intros [H | H]; [by apply not_elem_of_empty in H | done]. }
  destruct Horder as [Hnd Hgroups].
  assert (Hnames : Forall2 names_group order scores).
  { apply Forall2_fmap_r in Hfs. eapply Forall2_impl; [exact Hfs |].
    intros id sm [_ H]. by apply H. }
  assert (Hgroup_ids : (fun sm : Q * row => sm.2 !! "image_id") <$> scores
                       = (fun id => Some (VStr id)) <$> order).
  { clear -Hnames. induction Hnames as [| id sm ? ? H _ IH]; [done |].
    rewrite !fmap_cons, IH. unfold names_group in H. by rewrite H. }
  assert (Hentry_ids : (fun e : row => e !! "image_id") <$> l
                       = (fun sm : Q * row => sm.2 !! "image_id")
                           <$> take (Z.to_nat topk) (sort_desc fst scores)).
  { clear -Hentries. induction Hentries as [| sm e ? ? [_ H] _ IH]; [done |].
    rewrite !fmap_cons, IH. f_equal. apply H. unfold metadata_keys. left. }
  repeat split.
  - rewrite <- (Forall2_length _ _ _ Hentries), length_take. lia.
  - eapply StronglySorted_Forall2; [| exact Hentries |
      apply StronglySorted_take, (sort_desc_sorted fst scores)].
    intros a a' b b' [Hb _] [Hb' _] Hge. unfold key_ge, entry_score in *.
    by rewrite Hb, Hb'.
  - rewrite Hentry_ids, fmap_take. eapply sublist_NoDup; [| apply sublist_take].
    rewrite sort_desc_perm, Hgroup_ids. apply NoDup_fmap_2; [| done].
    by intros ? ? [= ->].
  - intros e He.
    assert (Hin : e !! "image_id" ∈ (fun e : row => e !! "image_id") <$> l)
      by (by apply list_elem_of_fmap_2).
    rewrite Hentry_ids, fmap_take in Hin.
    eapply elem_of_sublist in Hin; [| apply sublist_take].
    rewrite sort_desc_perm, Hgroup_ids in Hin.
    apply list_elem_of_fmap in Hin as (id & Hid & Hin). exists id. split; [done |].
    by apply Hgroups.
  - exists order. split; [done |]. split; [done |]. apply after_fetches_log.
Qed.

End Rerank.

(** ** The two search paths *)

Section SearchPaths.

Import Search.

Lemma project_lookup (fs : list string) (r : row) (k : string) :
  k ∈ fs -> project fs r !! k = r !! k.
Proof.
  intros Hk. unfold project. case_bool_decide; [done |].
  destruct (r !! k) as [v |] eqn:Hr.
  - by apply map_lookup_filter_Some.
  - apply map_lookup_filter_None. left. done.
Qed.

Lemma client_search_run name data f limit output_fields c :
  data <> [] ->
  client_search name data f limit output_fields c =
    (if faulty c (CSearch name f) then Raise MilvusException
     else match colls c !! name with
          | None => Raise MilvusException
          | Some col =>
              if fields_known col output_fields && fields_known col (filter_fields f)
                 && forallb (fun q => bool_decide (length q = c_dim col)) data
              then Ok ((fun q =>
                          project output_fields <$>
                            take limit (sort_desc (fun r => inner q (row_vector r))
                                          (filter (fun r => eval_filter f r) (c_rows col))))
                         <$> data)
              else Raise MilvusException
          end,
     logged (CSearch name f) c).
Proof.
  intros Hdata. unfold client_search, get_coll. munfold. rewrite tick_run.
  destruct (faulty c _); [done |]. destruct data as [| q data]; [done |].
  simpl. destruct (colls c !! name) as [col |]; [| done].
  by destruct (_ && _).
Qed.

(** A search without a query vector is refused. *)
Lemma client_search_no_data name f limit output_fields c :
  client_search name [] f limit output_fields c
    = (Raise MilvusException, logged (CSearch name f) c).
Proof.
  unfold client_search. munfold. rewrite tick_run. by destruct (faulty c _).
Qed.

(** A search that passes its expression as [expr] raises. *)
Lemma client_search_expr_run name data expr limit output_fields c :
  client_search_expr name data expr limit output_fields c
    = (Raise MilvusException, logged (CSearch name expr) c).
Proof.
  unfold client_search_expr. munfold. rewrite tick_run. by destruct (faulty c _).
Qed.

(** A search on a collection that is not there raises. *)
Lemma client_search_missing name data f limit output_fields c :
  colls c !! name = None ->
  client_search name data f limit output_fields c
    = (Raise MilvusException, logged (CSearch name f) c).
Proof.
  intros Hnone. destruct data as [| q data]; [apply client_search_no_data |].
  rewrite client_search_run by done. rewrite Hnone. by destruct (faulty c _).
Qed.

Lemma elem_of_concat {A} (x : A) (ls : list (list A)) :
  x ∈ concat ls <-> exists l, x ∈ l /\ l ∈ ls.
Proof.
  induction ls as [| l ls IH]; simpl.
  - split; [by intros ?%elem_of_nil | by intros (? & _ & ?%elem_of_nil)].
  - rewrite elem_of_app, IH. split.
    + intros [H | (l' & H & Hl')]; [exists l; split; [done | left] |].
      exists l'. split; [done | by right].
    + intros (l' & H & [-> | Hl']%elem_of_cons); [by left | right; by exists l'].
Qed.

(** Every coarse hit is the projection of a row that passes the filter. *)
Lemma search_hits_from_rows (data : list (list Q)) f limit output_fields (rows : list row) hit :
  hit ∈ concat ((fun q =>
                   project output_fields <$>
                     take limit (sort_desc (fun r => inner q (row_vector r))
                                   (filter (fun r => eval_filter f r) rows))) <$> data) ->
  exists r, r ∈ rows /\ eval_filter f r = true /\ hit = project output_fields r.
Proof.
  intros Hin. apply elem_of_concat in Hin as (hits & Hhit & Hhits).
  apply list_elem_of_fmap in Hhits as (q & -> & _).
  apply list_elem_of_fmap in Hhit as (r & -> & Hr).
  eapply elem_of_sublist in Hr; [| apply sublist_take].
  rewrite sort_desc_perm in Hr. apply list_elem_of_filter in Hr as [Hpass Hr].
  exists r. split; [done |]. split; [by apply Is_true_true | done].
Qed.

(** In a collection without the media fields, the search of the new-schema
    path raises. *)
Lemma new_schema_search_raises sched name data topk mf tf c col :
  colls c !! name = Some col ->
  "media_type" ∉ c_fields col ->
  _search_with_new_schema sched name data topk mf tf c =
    (Raise MilvusException, logged (CSearch name (default FAll (build_filter mf tf))) c).
Proof.
  intros Hcol Hno. unfold _search_with_new_schema. munfold.
  destruct (build_filter mf tf) as [expr |]; cbn [default].
  { by rewrite client_search_expr_run. }
  destruct data as [| q data]; [by rewrite client_search_no_data |].
  rewrite client_search_run by done.
  destruct (faulty c _); [done |]. rewrite Hcol.
  assert (Hk : fields_known col new_output_fields = false).
  { unfold fields_known, new_output_fields. simpl.
    rewrite (bool_decide_eq_false_2 ("media_type" ∈ c_fields col)) by done.
    by rewrite !andb_false_r. }
  by rewrite Hk.
Qed.




(** The optional media fields and their documented defaults. *)
Definition media_defaults : list (string * value) :=
  [("media_type", VStr "image"); ("timestamp_start", VFloat 0); ("timestamp_end", VFloat 0);
   ("duration", VFloat 0); ("segment_id", VStr "")].

(** The metadata of a group that has rows comes from the first row fetched:
    on the legacy path the media fields are the defaults, on the new path
    they are read from that row, with the defaults for what is missing. *)
Definition metadata_from (use_old_schema : bool) (first metadata : row) : Prop :=
  metadata !! "file_id" = first !! "file_id" /\
  metadata !! "page_number" = first !! "page_number" /\
  forall k dflt, (k, dflt) ∈ media_defaults ->
    metadata !! k = Some (if use_old_schema then dflt else dict_get first k dflt).

Lemma rerank_single_doc_metadata image_id data name output_fields use_old_schema c r c1 :
  rerank_single_doc image_id data name output_fields use_old_schema c = (r, c1) ->
  forall score metadata, r = Ok (score, metadata) ->
    metadata = dangling_metadata image_id \/
    exists col row0,
      colls c !! name = Some col /\ row0 ∈ c_rows col /\
      eval_filter (FImageIdIn [image_id]) row0 = true /\
      metadata_from use_old_schema (project output_fields row0) metadata.
Proof.
  unfold rerank_single_doc. munfold. rewrite client_query_run.
  set (c2 := logged _ c).
  destruct (faulty c _); [by intros [= <- _] |].
  destruct (colls c !! name) as [col |] eqn:Hcol; [| by intros [= <- _]].
  destruct (_ && _); [| by intros [= <- _]].
  destruct (project output_fields <$> _) as [| first rest] eqn:Hdocs.
  { intros [= <- _] score metadata [= _ <-]. by left. }
  assert (Hfirst : exists row0, row0 ∈ c_rows col /\
            eval_filter (FImageIdIn [image_id]) row0 = true /\
            first = project output_fields row0).
  { assert (Hin : first ∈ project output_fields <$>
                    take 1000 (drop 0 (filter (fun r => eval_filter (FImageIdIn [image_id]) r)
                                         (c_rows col)))) by (rewrite Hdocs; left).
    apply list_elem_of_fmap in Hin as (row0 & -> & Hin).
    eapply elem_of_sublist in Hin; [| apply sublist_take].
    rewrite drop_0 in Hin. apply list_elem_of_filter in Hin as [Hpass Hin].
    exists row0. split; [done |]. split; [by apply Is_true_true | done]. }
  destruct Hfirst as (row0 & Hrow0 & Hpass & ->).
  unfold dict_item at 1 2.
  destruct (project output_fields row0 !! "file_id") as [f |] eqn:Hf; [| by intros [= <- _]].
  destruct (project output_fields row0 !! "page_number") as [p |] eqn:Hp;
    [| by intros [= <- _]].
  unfold ret. cbv beta iota.
  destruct (pure_run (mapM row_vector_item (project output_fields row0 :: rest)) c2
              (pure_mapM _ _ pure_row_vector_item)) as [[vs ->] | [e ->]];
    [| by intros [= <- _]].
  destruct (pure_run (late_interaction_np data vs) c2 (pure_late_interaction_np _ _))
    as [[s ->] | [e ->]]; [| by intros [= <- _]].
  intros [= <- _] score metadata [= _ <-]. right. exists col, row0.
  split; [done |]. split; [done |]. split; [done |].
  split; [by destruct use_old_schema |]. split; [by destruct use_old_schema |].
  intros k dflt Hk. unfold media_defaults in Hk.
  repeat (apply elem_of_cons in Hk as [[= -> ->] | Hk]; [by destruct use_old_schema |]).
  by apply elem_of_nil in Hk.
Qed.


(** A state of the same store, later in the run. *)
Definition same_store (c c0 : client) : Prop :=
  colls c0 = colls c /\ faults c0 = faults c.

Lemma same_store_after_fetches name ids c c0 :
  same_store c c0 -> same_store c (after_fetches name ids c0).
Proof.
  intros [Hc Hf]. destruct (after_fetches_colls name ids c0) as [Hc' Hf'].
  split; congruence.
Qed.

(** Every future holds what the rerank of its group returned, run at some
    later state of the same store. *)
Definition future_of data name output_fields use_old_schema (c : client)
    (id : string) (f : result (Q * row)) : Prop :=
  exists c0, same_store c c0 /\
    rerank_single_doc id data name output_fields use_old_schema c0 =
      (f, logged (group_fetch name id) c0).

Lemma futures_run_states data name output_fields use_old_schema ids c c1 :
  same_store c c1 ->
  exists fs,
    mapM (fun image_id =>
            attempt (rerank_single_doc image_id data name output_fields use_old_schema))
         ids c1 = (Ok fs, after_fetches name ids c1) /\
    Forall (fun f => f <> Diverge) fs /\
    Forall2 (future_of data name output_fields use_old_schema c) ids fs.
Proof.
  revert c1. induction ids as [| id ids IH]; intros c1 Hsame.
  - exists []. split; [done |]. split; constructor.
  - cbn [mapM after_fetches foldl]. munfold. unfold attempt at 1.
    destruct (rerank_single_doc_run id data name output_fields use_old_schema c1)
      as (r & Hrun & Hr & _).
    rewrite Hrun.
    destruct (IH (logged (group_fetch name id) c1)) as (fs & Hfs & Hnd & Hall).
    { destruct Hsame as [Hc Hf]. by split. }
    assert (Hstep : forall r0 : result (Q * row), r0 = r ->
      match r0 with
      | Diverge => (@Diverge (result (Q * row)), logged (group_fetch name id) c1)
      | _ => (Ok r0, logged (group_fetch name id) c1)
      end = (Ok r, logged (group_fetch name id) c1)).
    { intros r0 ->. by destruct r. }
    rewrite (Hstep r eq_refl). unfold after_fetches in Hfs. rewrite Hfs.
    exists (r :: fs). split; [done |]. split; [by constructor |].
    constructor; [| done]. by exists c1.
Qed.

(** How a returned list was made: the groups of the hits, one rerank per
    group in the order of the scheduler, the sort, the cut and the entries. *)
Lemma process_results_inv (sched : list string -> list string) results data name (topk : Z)
    output_fields use_old_schema (c c' : client) (l : list row) :
  _process_search_results sched results data name topk output_fields use_old_schema c
    = (Ok l, c') ->
  exists (ids : gset string) scores,
    (forall id, id ∈ ids <-> hit_of_group (concat results) id) /\
    c' = after_fetches name (sched (elements ids)) c /\
    Forall2 (fun id sm => future_of data name output_fields use_old_schema c id (Ok sm))
      (sched (elements ids)) scores /\
    Forall2 entry_of (slice_to topk (sort_desc fst scores)) l.
Proof.
  unfold _process_search_results. munfold.
  destruct (pure_run (collect_image_ids (concat results) ∅) c (pure_collect_image_ids _ _))
    as [[ids Hids] | [e ->]]; [| done].
  rewrite Hids.
  pose proof (collect_image_ids_ok _ _ _ _ _ Hids) as Hmem.
  destruct (futures_run_states data name output_fields use_old_schema (sched (elements ids)) c c)
    as (fs & -> & Hnd & Hfs); [done |].
  destruct (future_results_run fs (after_fetches name (sched (elements ids)) c) Hnd)
    as (r & -> & Hr & Hscores).
  destruct r as [scores | e |]; [| done | done].
  specialize (Hscores scores eq_refl). subst fs.
  destruct (result_entries_run (slice_to topk (sort_desc fst scores))
              (after_fetches name (sched (elements ids)) c)) as (r & -> & _ & Hentries).
  destruct r as [l0 | e |]; [| done | done].
  intros Heq. assert (l0 = l /\ after_fetches name (sched (elements ids)) c = c') as [-> <-].
  { by inversion Heq. }
  exists ids, scores. split.
  { intros id. rewrite Hmem. split; [| by right].
    intros [H | H]; [by apply not_elem_of_empty in H | done]. }
  split; [done |]. split; [| exact (Hentries _ eq_refl)].
  rewrite Forall2_fmap_r in Hfs. exact Hfs.
Qed.

(** Every entry of a returned list comes from a scored group. *)
Lemma slice_sort_elem_of {A} (key : A -> Q) (k : Z) (l : list A) (x : A) :
  x ∈ slice_to k (sort_desc key l) -> x ∈ l.
Proof.
  unfold slice_to. intros H. rewrite <- (sort_desc_perm key l).
  destruct (0 <=? k)%Z; (eapply elem_of_sublist; [exact H | apply sublist_take]).
Qed.

Lemma entry_has_source (sched : list string -> list string) results data name (topk : Z)
    output_fields use_old_schema (c c' : client) (l : list row) (e : row) :
  (forall ids, sched ids ≡ₚ ids) ->
  _process_search_results sched results data name topk output_fields use_old_schema c
    = (Ok l, c') ->
  e ∈ l ->
  exists id sm,
    hit_of_group (concat results) id /\
    future_of data name output_fields use_old_schema c id (Ok sm) /\
    entry_of sm e.
Proof.
  intros Hsched Hrun He.
  destruct (process_results_inv _ _ _ _ _ _ _ _ _ _ Hrun) as (ids & scores & Hmem & _ & Hfs & Hl).
  apply list_elem_of_lookup in He as [i He].
  destruct (Forall2_lookup_r _ _ _ _ _ Hl He) as (sm & Hsm & Hentry).
  apply list_elem_of_lookup_2, slice_sort_elem_of in Hsm.
  apply list_elem_of_lookup in Hsm as [j Hsm].
  destruct (Forall2_lookup_r _ _ _ _ _ Hfs Hsm) as (id & Hid & Hfut).
  exists id, sm. split; [| done].
  apply Hmem. apply elem_of_elements. rewrite <- (Hsched (elements ids)).
  by eapply list_elem_of_lookup_2.
Qed.


(** ** Reranks that return *)

(** A row as the store keeps it under either schema: its group, file and
    page, and a vector of dimension [d].  The media fields are optional. *)
Definition row_wf (d : nat) (r : row) : Prop :=
  (exists id, r !! "image_id" = Some (VStr id)) /\
  is_Some (r !! "file_id") /\ is_Some (r !! "page_number") /\
  exists v, r !! "vector" = Some (VVec v) /\ length v = d.

Lemma row_wf_project (d : nat) (fs : list string) (r : row) :
  (forall k, k ∈ old_output_fields -> k ∈ fs) ->
  row_wf d r -> row_wf d (project fs r).
Proof.
  intros Hfs (Hid & Hf & Hp & Hv). unfold row_wf.
  rewrite !project_lookup by (apply Hfs; unfold old_output_fields; by repeat constructor).
  done.
Qed.

Lemma fields_known_elem (col : collection) (fs : list string) (k : string) :
  fields_known col fs = true -> k ∈ fs -> k <> "*" -> k ∈ c_fields col.
Proof.
  unfold fields_known. intros Hall Hk Hstar.
  rewrite forallb_forall in Hall. apply list_elem_of_In, Hall in Hk.
  apply orb_true_iff in Hk as [Hk | Hk]; apply bool_decide_eq_true in Hk; done.
Qed.

Lemma vectors_of_rows (d : nat) (docs : list row) :
  Forall (row_wf d) docs ->
  Forall2 (fun r v => r !! "vector" = Some (VVec v) /\ length v = d) docs (row_vector <$> docs).
Proof.
  induction 1 as [| r docs (_ & _ & _ & v & Hv & Hlen) _ IH]; [constructor |].
  rewrite fmap_cons. constructor; [| done]. unfold row_vector. by rewrite Hv.
Qed.

Lemma rerank_single_doc_returns image_id data name output_fields use_old_schema c col :
  colls c !! name = Some col ->
  faulty c (group_fetch name image_id) = false ->
  fields_known col output_fields = true ->
  (forall k, k ∈ old_output_fields -> k ∈ output_fields) ->
  Forall (row_wf (c_dim col)) (c_rows col) ->
  (exists r, r ∈ c_rows col /\ r !! "image_id" = Some (VStr image_id)) ->
  data <> [] ->
  Forall (fun q => length q = c_dim col) data ->
  exists score metadata,
    rerank_single_doc image_id data name output_fields use_old_schema c =
      (Ok (score, metadata), logged (group_fetch name image_id) c) /\
    forall k, k ∈ metadata_keys -> is_Some (metadata !! k).
Proof.
  intros Hcol Hfault Hknown Hfs Hwf (r0 & Hr0 & Hid0) Hdata Hdim.
  unfold rerank_single_doc. munfold. rewrite client_query_run.
  unfold group_fetch in Hfault. rewrite Hfault, Hcol, Hknown.
  assert (Hk : fields_known col (filter_fields (FImageIdIn [image_id])) = true).
  { unfold fields_known. cbn [filter_fields forallb].
    rewrite (bool_decide_eq_true_2 ("image_id" ∈ c_fields col)); [by rewrite orb_true_r |].
    apply (fields_known_elem col output_fields); [done | | done].
    apply Hfs. unfold old_output_fields. by repeat constructor. }
  rewrite Hk. cbn [andb]. rewrite drop_0.
  set (matching := filter (fun r => eval_filter (FImageIdIn [image_id]) r) (c_rows col)).
  assert (Hin0 : r0 ∈ matching).
  { apply list_elem_of_filter. split; [| done]. simpl. unfold str_in. rewrite Hid0.
    apply Is_true_true_2, bool_decide_eq_true_2. left. }
  assert (Hmwf : Forall (row_wf (c_dim col)) (project output_fields <$> take 1000 matching)).
  { apply Forall_fmap, Forall_forall. intros r Hr. simpl. apply row_wf_project; [done |].
    eapply elem_of_sublist in Hr; [| apply sublist_take].
    apply list_elem_of_filter in Hr as [_ Hr]. by eapply (proj1 (Forall_forall _ _) Hwf). }
  destruct matching as [| m0 ms]; [by apply elem_of_nil in Hin0 |].
  change (take 1000 (m0 :: ms)) with (m0 :: take 999 ms) in *.
  rewrite fmap_cons in *.
  set (first := project output_fields m0) in *.
  set (rest := project output_fields <$> take 999 ms) in *.
  assert (Hfirst : row_wf (c_dim col) first) by (by inversion Hmwf).
  destruct Hfirst as (_ & [f Hf] & [p Hp] & _).
  unfold dict_item at 1 2. rewrite Hf, Hp. unfold ret. cbv beta iota.
  rewrite (mapM_row_vector_item _ _ _ _ (vectors_of_rows _ _ Hmwf)).
  rewrite (late_interaction_np_run data _ (c_dim col)); [| done | done | | done].
  2:{ apply Forall_fmap. eapply Forall_impl; [exact Hmwf |].
      intros r (_ & _ & _ & v & Hv & Hlen). unfold row_vector. simpl. by rewrite Hv. }
  eexists _, _. split; [reflexivity |].
  intros k Hk'. unfold metadata_keys in Hk'.
  repeat (apply elem_of_cons in Hk' as [-> | Hk']; [by destruct use_old_schema |]).
  by apply elem_of_nil in Hk'.
Qed.


(** The rows of a group, oldest first.  Its fetch asks for 1000 rows at
    most. *)
Definition group_rows (image_id : string) (col : collection) : list row :=
  filter (fun r => eval_filter (FImageIdIn [image_id]) r) (c_rows col).

Lemma row_vector_project (fs : list string) (l : list row) :
  (forall k, k ∈ old_output_fields -> k ∈ fs) ->
  row_vector <$> (project fs <$> l) = row_vector <$> l.
Proof.
  intros Hfs. rewrite <- list_fmap_compose. apply list_fmap_ext. intros i r _.
  unfold compose, row_vector. rewrite project_lookup; [done |].
  apply Hfs. unfold old_output_fields. by repeat constructor.
Qed.

Lemma image_id_known (col : collection) (output_fields : list string) image_id :
  fields_known col output_fields = true ->
  (forall k, k ∈ old_output_fields -> k ∈ output_fields) ->
  fields_known col (filter_fields (FImageIdIn [image_id])) = true.
Proof.
  intros Hknown Hfs. unfold fields_known. cbn [filter_fields forallb].
  rewrite (bool_decide_eq_true_2 ("image_id" ∈ c_fields col)); [by rewrite orb_true_r |].
  apply (fields_known_elem col output_fields); [done | | done].
  apply Hfs. unfold old_output_fields. by repeat constructor.
Qed.

(** The score of a group that has rows, as numpy computes it from the rows
    fetched. *)
Lemma rerank_single_doc_score image_id data name output_fields use_old_schema c col :
  colls c !! name = Some col ->
  faulty c (group_fetch name image_id) = false ->
  fields_known col output_fields = true ->
  (forall k, k ∈ old_output_fields -> k ∈ output_fields) ->
  Forall (row_wf (c_dim col)) (group_rows image_id col) ->
  group_rows image_id col <> [] ->
  data <> [] ->
  Forall (fun q => length q = c_dim col) data ->
  exists metadata,
    rerank_single_doc image_id data name output_fields use_old_schema c =
      (Ok (np.sum ((fun q =>
                      row_max (inner q <$> (row_vector <$> take 1000 (group_rows image_id col))))
                     <$> data), metadata),
       logged (group_fetch name image_id) c).
Proof.
  intros Hcol Hfault Hknown Hfs Hwf Hne Hdata Hdim.
  unfold rerank_single_doc. munfold. rewrite client_query_run.
  unfold group_fetch in Hfault. rewrite Hfault, Hcol, Hknown.
  rewrite (image_id_known col output_fields image_id Hknown Hfs). cbn [andb]. rewrite drop_0.
  fold (group_rows image_id col).
  rewrite <- (row_vector_project output_fields (take 1000 (group_rows image_id col)) Hfs).
  assert (Hmwf : Forall (row_wf (c_dim col))
                   (project output_fields <$> take 1000 (group_rows image_id col))).
  { apply Forall_fmap, Forall_forall. intros r Hr. simpl. apply row_wf_project; [done |].
    eapply elem_of_sublist in Hr; [| apply sublist_take].
    by eapply (proj1 (Forall_forall _ _) Hwf). }
  destruct (group_rows image_id col) as [| m0 ms]; [done |].
  change (take 1000 (m0 :: ms)) with (m0 :: take 999 ms) in *.
  rewrite fmap_cons in *.
  set (first := project output_fields m0) in *.
  set (rest := project output_fields <$> take 999 ms) in *.
  assert (Hfirst : row_wf (c_dim col) first) by (by inversion Hmwf).
  destruct Hfirst as (_ & [f Hf] & [p Hp] & _).
  unfold dict_item at 1 2. rewrite Hf, Hp. unfold ret. cbv beta iota.
  rewrite (mapM_row_vector_item _ _ _ _ (vectors_of_rows _ _ Hmwf)).
  rewrite (late_interaction_np_run data _ (c_dim col)); [| done | done | | done].
  2:{ apply Forall_fmap. eapply Forall_impl; [exact Hmwf |].
      intros r (_ & _ & _ & v & Hv & Hlen). unfold row_vector. simpl. by rewrite Hv. }
  eexists. reflexivity.
Qed.

(** A group without rows gets the score 0.0. *)
Lemma rerank_single_doc_no_rows image_id data name output_fields use_old_schema c col :
  colls c !! name = Some col ->
  faulty c (group_fetch name image_id) = false ->
  fields_known col output_fields = true ->
  (forall k, k ∈ old_output_fields -> k ∈ output_fields) ->
  group_rows image_id col = [] ->
  rerank_single_doc image_id data name output_fields use_old_schema c =
    (Ok (0%Q, dangling_metadata image_id), logged (group_fetch name image_id) c).
Proof.
  intros Hcol Hfault Hknown Hfs Hnil.
  unfold rerank_single_doc. munfold. rewrite client_query_run.
  unfold group_fetch in Hfault. rewrite Hfault, Hcol, Hknown.
  rewrite (image_id_known col output_fields image_id Hknown Hfs). cbn [andb]. rewrite drop_0.
  fold (group_rows image_id col). by rewrite Hnil.
Qed.

Definition no_faults_in (c : client) : Prop := forall n k, faults c n k = false.

Definition full_metadata (sm : Q * row) : Prop :=
  forall k, k ∈ metadata_keys -> is_Some (sm.2 !! k).

Lemma collect_image_ids_returns hits acc c :
  Forall (fun hit : row => exists id, hit !! "image_id" = Some (VStr id)) hits ->
  exists ids, collect_image_ids hits acc c = (Ok ids, c).
Proof.
  intros H. revert acc. induction H as [| hit hits [id Hid] _ IH]; intros acc.
  - by eexists.
  - cbn [collect_image_ids]. unfold hit_image_id, dict_item. rewrite Hid. munfold. simpl.
    apply IH.
Qed.

Lemma futures_return data name output_fields use_old_schema ids c col :
  colls c !! name = Some col ->
  no_faults_in c ->
  fields_known col output_fields = true ->
  (forall k, k ∈ old_output_fields -> k ∈ output_fields) ->
  Forall (row_wf (c_dim col)) (c_rows col) ->
  Forall (fun id => exists r, r ∈ c_rows col /\ r !! "image_id" = Some (VStr id)) ids ->
  data <> [] ->
  Forall (fun q => length q = c_dim col) data ->
  exists scores,
    mapM (fun image_id =>
            attempt (rerank_single_doc image_id data name output_fields use_old_schema))
         ids c = (Ok (Ok <$> scores), after_fetches name ids c) /\
    Forall full_metadata scores.
Proof.
  intros Hcol Hno Hknown Hfs Hwf Hids Hdata Hdim. revert c Hcol Hno.
  induction Hids as [| id ids Hid _ IH]; intros c Hcol Hno.
  - exists []. split; [done | constructor].
  - cbn [mapM after_fetches foldl]. munfold. unfold attempt at 1.
    destruct (rerank_single_doc_returns id data name output_fields use_old_schema c col)
      as (score & metadata & -> & Hfull); try done.
    { apply Hno. }
    destruct (IH (logged (group_fetch name id) c)) as (scores & Hrun & Hall); [done | done |].
    unfold after_fetches in Hrun. rewrite Hrun.
    exists ((score, metadata) :: scores). split; [done |]. by constructor.
Qed.

Lemma future_results_return (scores : list (Q * row)) (c : client) :
  mapM future_result (Ok <$> scores) c = (Ok scores, c).
Proof.
  induction scores as [| sm scores IH]; [done |].
  rewrite fmap_cons. cbn [mapM]. munfold. unfold future_result at 1. by rewrite IH.
Qed.

Lemma result_entries_return (sms : list (Q * row)) (c : client) :
  Forall full_metadata sms ->
  exists l, mapM result_entry sms c = (Ok l, c).
Proof.
  induction 1 as [| [score metadata] sms Hfull _ [l IH]]; [by eexists |].
  cbn [mapM]. munfold.
  assert (Hentry : exists e, result_entry (score, metadata) c = (Ok e, c)).
  { unfold result_entry, dict_item. munfold. unfold full_metadata, metadata_keys in Hfull.
    simpl in Hfull.
    repeat match goal with
      | |- context [metadata !! ?k] =>
          let v := fresh "v" in let H := fresh "H" in
          destruct (Hfull k) as [v H]; [by repeat constructor |]; rewrite H; simpl
      end.
    by eexists. }
  destruct Hentry as [e ->]. rewrite IH. by eexists.
Qed.

(** On a store that answers, whose rows have their group, file, page and a
    vector of the right dimension, the rerank of hits that come from its rows
    returns a list: no optional field is needed. *)
Lemma process_results_returns (sched : list string -> list string) results data name
    (topk : Z) output_fields use_old_schema (c : client) (col : collection) :
  (forall ids, sched ids ≡ₚ ids) ->
  colls c !! name = Some col ->
  no_faults_in c ->
  fields_known col output_fields = true ->
  (forall k, k ∈ old_output_fields -> k ∈ output_fields) ->
  Forall (row_wf (c_dim col)) (c_rows col) ->
  (forall hit, hit ∈ concat results ->
     exists r, r ∈ c_rows col /\ hit = project output_fields r) ->
  data <> [] ->
  Forall (fun q => length q = c_dim col) data ->
  exists l c',
    _process_search_results sched results data name topk output_fields use_old_schema c
      = (Ok l, c').
Proof.
  intros Hsched Hcol Hno Hknown Hfs Hwf Hhits Hdata Hdim.
  assert (Himg : "image_id" ∈ output_fields).
  { apply Hfs. unfold old_output_fields. by repeat constructor. }
  unfold _process_search_results. munfold.
  destruct (collect_image_ids_returns (concat results) ∅ c) as [ids Hids].
  { apply Forall_forall. intros hit Hhit. destruct (Hhits hit Hhit) as (r & Hr & ->).
    rewrite project_lookup by done.
    by destruct (proj1 (Forall_forall _ _) Hwf r Hr) as (Hid & _). }
  rewrite Hids. pose proof (collect_image_ids_ok _ _ _ _ _ Hids) as Hmem.
  destruct (futures_return data name output_fields use_old_schema (sched (elements ids)) c col)
    as (scores & -> & Hfull); try done.
  { apply Forall_forall. intros id Hid. rewrite Hsched in Hid.
    apply elem_of_elements, Hmem in Hid as [Hid | (hit & Hhit & Hid)];
      [by apply not_elem_of_empty in Hid |].
    destruct (Hhits hit Hhit) as (r & Hr & ->). rewrite project_lookup in Hid by done.
    by exists r. }
  rewrite future_results_return.
  destruct (result_entries_return (slice_to topk (sort_desc fst scores))
              (after_fetches name (sched (elements ids)) c)) as [l ->].
  { apply Forall_forall. intros sm Hsm. apply slice_sort_elem_of in Hsm.
    by apply (proj1 (Forall_forall _ _) Hfull). }
  by eexists _, _.
Qed.


(** ** The legacy path *)

Lemma entry_has_future (sched : list string -> list string) results data name (topk : Z)
    output_fields use_old_schema (c c' : client) (l : list row) (e : row) :
  _process_search_results sched results data name topk output_fields use_old_schema c
    = (Ok l, c') ->
  e ∈ l ->
  exists id sm,
    future_of data name output_fields use_old_schema c id (Ok sm) /\ entry_of sm e.
Proof.
  intros Hrun He.
  destruct (process_results_inv _ _ _ _ _ _ _ _ _ _ Hrun) as (ids & scores & _ & _ & Hfs & Hl).
  apply list_elem_of_lookup in He as [i He].
  destruct (Forall2_lookup_r _ _ _ _ _ Hl He) as (sm & Hsm & Hentry).
  apply list_elem_of_lookup_2, slice_sort_elem_of in Hsm.
  apply list_elem_of_lookup in Hsm as [j Hsm].
  destruct (Forall2_lookup_r _ _ _ _ _ Hfs Hsm) as (id & Hid & Hfut).
  by exists id, sm.
Qed.

Lemma media_key_is_metadata_key k dflt :
  (k, dflt) ∈ media_defaults -> k ∈ metadata_keys.
Proof.
  unfold media_defaults, metadata_keys. intros Hk.
  repeat (apply elem_of_cons in Hk as [[= -> _] | Hk]; [by repeat constructor |]).
  by apply elem_of_nil in Hk.
Qed.

Lemma dangling_has_no_media image_id k dflt :
  (k, dflt) ∈ media_defaults -> dangling_metadata image_id !! k = None.
Proof.
  unfold media_defaults. intros Hk.
  repeat (apply elem_of_cons in Hk as [[= -> _] | Hk]; [done |]).
  by apply elem_of_nil in Hk.
Qed.

(** The media fields of an entry: those of the first row fetched for its
    group, or the defaults. *)
Lemma entry_media_fields (sched : list string -> list string) results data name (topk : Z)
    output_fields use_old_schema (c c' : client) (l : list row) (e : row) :
  _process_search_results sched results data name topk output_fields use_old_schema c
    = (Ok l, c') ->
  e ∈ l ->
  exists id col row0,
    e !! "image_id" = Some (VStr id) /\
    colls c !! name = Some col /\ row0 ∈ c_rows col /\
    eval_filter (FImageIdIn [id]) row0 = true /\
    forall k dflt, (k, dflt) ∈ media_defaults ->
      e !! k = Some (if use_old_schema then dflt
                     else dict_get (project output_fields row0) k dflt).
Proof.
  intros Hrun He.
  destruct (entry_has_future _ _ _ _ _ _ _ _ _ _ _ Hrun He)
    as (id & [score metadata] & (c0 & [Hc0 _] & Hfut) & Hscore & Hkeys).
  destruct (rerank_single_doc_run id data name output_fields use_old_schema c0)
    as (r & Hrun0 & _ & Hname).
  rewrite Hfut in Hrun0. injection Hrun0 as <-.
  specialize (Hname score metadata eq_refl).
  destruct (rerank_single_doc_metadata _ _ _ _ _ _ _ _ Hfut score metadata eq_refl)
    as [-> | (col & row0 & Hcol & Hrow0 & Hpass & _ & _ & Hmedia)].
  - exfalso. destruct (Hkeys "media_type") as [[v Hv] Heq]; [by repeat constructor |].
    simpl in Heq. rewrite Hv in Heq. by rewrite (dangling_has_no_media id "media_type" (VStr "image")) in Heq
      by (by repeat constructor).
  - exists id, col, row0. split.
    { destruct (Hkeys "image_id") as [_ ->]; [by repeat constructor | done]. }
    rewrite <- Hc0. split; [done |]. split; [done |]. split; [done |].
    intros k dflt Hk. destruct (Hkeys k) as [_ ->]; [by eapply media_key_is_metadata_key |].
    by apply Hmedia.
Qed.

Lemma old_schema_defaults (sched : list string -> list string) name data (topk : Z)
    (c c' : client) (l : list row) :
  _search_with_old_schema sched name data topk c = (Ok l, c') ->
  forall e, e ∈ l -> forall k dflt, (k, dflt) ∈ media_defaults -> e !! k = Some dflt.
Proof.
  unfold _search_with_old_schema. munfold.
  destruct (client_search name data FAll 50 old_output_fields c) as [[results | e |] c1];
    [| done | done].
  intros Hrun e He k dflt Hk.
  destruct (entry_media_fields _ _ _ _ _ _ _ _ _ _ _ Hrun He) as (_ & _ & _ & _ & _ & _ & _ & H).
  by apply H.
Qed.

Lemma old_schema_returns (sched : list string -> list string) name data (topk : Z)
    (c : client) (col : collection) :
  (forall ids, sched ids ≡ₚ ids) ->
  colls c !! name = Some col ->
  no_faults_in c ->
  fields_known col old_output_fields = true ->
  Forall (row_wf (c_dim col)) (c_rows col) ->
  data <> [] ->
  Forall (fun q => length q = c_dim col) data ->
  exists l c', _search_with_old_schema sched name data topk c = (Ok l, c').
Proof.
  intros Hsched Hcol Hno Hknown Hwf Hdata Hdim.
  unfold _search_with_old_schema. munfold. rewrite client_search_run by done.
  unfold faulty. rewrite Hno, Hcol, Hknown. cbn [filter_fields fields_known forallb andb].
  rewrite (proj2 (forallb_forall _ _)).
  2:{ intros q Hq. apply bool_decide_eq_true.
      apply list_elem_of_In in Hq. by apply (proj1 (Forall_forall _ _) Hdim). }
  apply (process_results_returns sched _ data name topk old_output_fields true _ col);
    try done.
  intros hit Hhit. apply search_hits_from_rows in Hhit as (r & Hr & _ & ->). by exists r.
Qed.

End SearchPaths.

(** ** C6, C4 and the scenario: what the two paths return *)

Section LegacyDefaults.

Import Search.

(** C6: on a collection created before the media fields existed, a search
    is answered by the legacy path, and every record it returns carries the
    documented defaults: media type "image", both timestamps and the
    duration 0.0, segment id "".  Any list the legacy path returns has them.
    The search does return a list when the store answers and its rows have
    the four legacy fields: the optional fields are not needed. *)
Theorem legacy_rows_read_with_defaults (sched : list string -> list string) name data
    (topk : Z) media_type_filter time_range_filter (c : client) (col : collection) :
  colls c !! name = Some col ->
  "media_type" ∉ c_fields col ->
  (forall c0 l c',
      _search_with_old_schema sched name data topk c0 = (Ok l, c') ->
      forall e, e ∈ l -> forall k dflt, (k, dflt) ∈ media_defaults -> e !! k = Some dflt) /\
  (forall l c',
      search sched name data topk media_type_filter time_range_filter c = (Ok l, c') ->
      forall e, e ∈ l -> forall k dflt, (k, dflt) ∈ media_defaults -> e !! k = Some dflt) /\
  ((forall ids, sched ids ≡ₚ ids) ->
   no_faults_in c ->
   fields_known col old_output_fields = true ->
   Forall (row_wf (c_dim col)) (c_rows col) ->
   data <> [] ->
   Forall (fun q => length q = c_dim col) data ->
   exists l c',
     search sched name data topk media_type_filter time_range_filter c = (Ok l, c')).
Proof.
  intros Hcol Hlegacy.
  assert (Hsearch : search sched name data topk media_type_filter time_range_filter c =
            _search_with_old_schema sched name data topk
              (logged (CSearch name (default FAll
                         (build_filter media_type_filter time_range_filter))) c)).
  { unfold search. munfold.
    by rewrite (new_schema_search_raises _ _ _ _ _ _ _ _ Hcol Hlegacy). }
  split; [| split].
  - intros c0 l c'. apply old_schema_defaults.
  - intros l c'. rewrite Hsearch. apply old_schema_defaults.
  - intros Hsched Hno Hknown Hwf Hdata Hdim. rewrite Hsearch.
    by apply (old_schema_returns sched name data topk _ col).
Qed.

Lemma media_type_not_legacy : "media_type" ∉ legacy_fields.
Proof.
  unfold legacy_fields. intros H.
  repeat (apply elem_of_cons in H as [H | H]; [discriminate |]).
  by apply elem_of_nil in H.
Qed.

Lemma legacy_row_wf image_id file_id page v : row_wf (length v) (legacy_row image_id file_id page v).
Proof.
  unfold row_wf, legacy_row. split; [by eexists |]. split; [by eexists |].
  split; [by eexists |]. by eexists.
Qed.

Lemma legacy_rows_read_with_defaults_witness :
  exists l c',
    search id "kb" scenario_query 2 (Some "audio") (Some [10; 40]%Q) (legacy_store no_faults)
      = (Ok l, c') /\
    forall e, e ∈ l -> e !! "media_type" = Some (VStr "image").
Proof.
  destruct (legacy_rows_read_with_defaults id "kb" scenario_query 2 (Some "audio")
              (Some [10; 40]%Q) (legacy_store no_faults) legacy_collection eq_refl
              media_type_not_legacy) as (_ & Hsafe & Htotal).
  destruct Htotal as (l & c' & Hrun).
  - intros ids. reflexivity.
  - intros n k. reflexivity.
  - reflexivity.
  - constructor; [apply (legacy_row_wf "g1" "f1" 0 [1; 0]%Q) | constructor].
  - discriminate.
  - repeat constructor.
  - exists l, c'. split; [exact Hrun |]. intros e He.
    apply (Hsafe l c' Hrun e He). left.
Defined.

End LegacyDefaults.

Section Filters.

Import Search.

Lemma eval_filter_image_id id (r : row) :
  eval_filter (FImageIdIn [id]) r = true -> r !! "image_id" = Some (VStr id).
Proof.
  simpl. unfold str_in. destruct (r !! "image_id") as [[| | | s | |] |]; try done.
  intros H%bool_decide_eq_true. by apply list_elem_of_singleton in H as ->.
Qed.

Lemma old_fields_in_new k : k ∈ old_output_fields -> k ∈ new_output_fields.
Proof.
  unfold old_output_fields, new_output_fields. intros Hk.
  repeat (apply elem_of_cons in Hk as [-> | Hk]; [by repeat constructor |]).
  by apply elem_of_nil in Hk.
Qed.

(** A search without a filter is answered by the new-schema path when the
    store answers and the rows have their fields. *)
Lemma new_schema_returns (sched : list string -> list string) name data (topk : Z)
    media_type_filter time_range_filter (c : client) (col : collection) :
  (forall ids, sched ids ≡ₚ ids) ->
  colls c !! name = Some col ->
  no_faults_in c ->
  fields_known col new_output_fields = true ->
  build_filter media_type_filter time_range_filter = None ->
  Forall (row_wf (c_dim col)) (c_rows col) ->
  data <> [] ->
  Forall (fun q => length q = c_dim col) data ->
  exists l c',
    _search_with_new_schema sched name data topk media_type_filter time_range_filter c
      = (Ok l, c').
Proof.
  intros Hsched Hcol Hno Hknown Hfilter Hwf Hdata Hdim.
  unfold _search_with_new_schema. munfold. rewrite Hfilter.
  rewrite client_search_run by done.
  unfold faulty. rewrite Hno, Hcol, Hknown. cbn [filter_fields fields_known forallb andb].
  rewrite (proj2 (forallb_forall _ _)).
  2:{ intros q Hq. apply bool_decide_eq_true.
      apply list_elem_of_In in Hq. by apply (proj1 (Forall_forall _ _) Hdim). }
  apply (process_results_returns sched _ data name topk new_output_fields false _ col);
    try done.
  - apply old_fields_in_new.
  - intros hit Hhit. apply search_hits_from_rows in Hhit as (r & Hr & _ & ->). by exists r.
Qed.

(** An audio segment "s1" of file "f1", from second 12 to second 20. *)
Definition audio_row : row :=
  <["media_type" := VStr "audio"]>
  (<["timestamp_start" := VFloat 12]>
  (<["timestamp_end" := VFloat 20]>
  (<["duration" := VFloat 8]>
  (<["segment_id" := VStr "s1"]> (legacy_row "s1" "f1" 0 [1; 0]%Q))))).

Definition audio_collection : collection :=
  {| c_dim := 2; c_fields := schema_fields; c_rows := [audio_row] |}.

Definition audio_store : client :=
  {| colls := {[ "kb" := audio_collection ]}; log := []; faults := no_faults;
     answers := no_answers |}.

Lemma audio_row_wf : row_wf 2 audio_row.
Proof.
  unfold row_wf. split; [eexists; vm_compute; reflexivity |].
  split; [eexists; vm_compute; reflexivity |]. split; [eexists; vm_compute; reflexivity |].
  eexists. split; [vm_compute; reflexivity | reflexivity].
Qed.

(** What a record says of its group, its media type and its time range. *)
Definition media_view (e : row) : option value * option value * option value * option value :=
  (e !! "image_id", e !! "media_type", e !! "timestamp_start", e !! "timestamp_end").

(** C4: the filters of a search are lost.  [_search_with_new_schema] builds
    the expression (the media type and the time range joined by [and]) and
    passes it to the client as [expr]; the client raises on it, [search]
    catches the exception and answers through the legacy path, which has no
    filter.  On a collection whose only row is an audio segment from second
    12 to second 20, a search for videos, and a search for audio between
    seconds 30 and 40, both return the record of that segment, with the
    defaults of the legacy path for its media fields, after three calls:
    the search with the expression, which raises, the legacy search without
    any, and the fetch of the group.  The row passes neither filter. *)
Theorem filtered_search_returns_unfiltered :
  media_view <$> fetched (search id "kb" scenario_query 2 (Some "video") None audio_store)
  = [(Some (VStr "s1"), Some (VStr "image"), Some (VFloat 0), Some (VFloat 0))] /\
  log (search id "kb" scenario_query 2 (Some "video") None audio_store).2
  = [CSearch "kb" (FMediaTypeEq "video"); CSearch "kb" FAll;
     CQuery "kb" (FImageIdIn ["s1"]) 1000 0] /\
  eval_filter (FMediaTypeEq "video") audio_row = false /\
  media_view <$> fetched (search id "kb" scenario_query 2 (Some "audio") (Some [30; 40]%Q)
                            audio_store)
  = [(Some (VStr "s1"), Some (VStr "image"), Some (VFloat 0), Some (VFloat 0))] /\
  log (search id "kb" scenario_query 2 (Some "audio") (Some [30; 40]%Q) audio_store).2
  = [CSearch "kb" (FAnd (FMediaTypeEq "audio") (FTimeRange 30 40)); CSearch "kb" FAll;
     CQuery "kb" (FImageIdIn ["s1"]) 1000 0] /\
  eval_filter (FAnd (FMediaTypeEq "audio") (FTimeRange 30 40)) audio_row = false.
Proof. vm_compute. repeat split; reflexivity. Qed.

End Filters.

Section Scenario.

Import Search.

(** The coarse hits of a search that reached every row of the scenario. *)
Definition scenario_results : list (list row) :=
  [project new_output_fields <$> [g1_a; g1_b; g1_c; g2_a]].

Lemma migrated_legacy_row_wf image_id file_id page v :
  row_wf (length v) (migrated_record (legacy_row image_id file_id page v)).
Proof.
  unfold row_wf. split; [by eexists |]. split; [by eexists |].
  split; [by eexists |]. by eexists.
Qed.

Lemma scenario_rows_wf : Forall (row_wf 2) [g1_a; g1_b; g1_c; g2_a].
Proof.
  constructor; [apply (migrated_legacy_row_wf "g1" "f1" 0 [1; 0]%Q) |].
  constructor; [apply (migrated_legacy_row_wf "g1" "f1" 0 [0; 1]%Q) |].
  constructor; [apply (migrated_legacy_row_wf "g1" "f1" 0 [1; 1]%Q) |].
  constructor; [apply (migrated_legacy_row_wf "g2" "f2" 0 [1; 0]%Q) | constructor].
Qed.

Lemma process_results_topk_sorted_distinct_witness :
  exists l c',
    _process_search_results id scenario_results scenario_query "kb" 1 new_output_fields false
      scenario_store = (Ok l, c') /\
    length l ≤ 1 /\
    StronglySorted (key_ge entry_score) l /\
    NoDup ((fun e => e !! "image_id") <$> l).
Proof.
  destruct (process_results_returns id scenario_results scenario_query "kb" 1
              new_output_fields false scenario_store scenario_collection)
    as (l & c' & Hrun).
  - intros ids. reflexivity.
  - reflexivity.
  - intros n k. reflexivity.
  - reflexivity.
  - apply old_fields_in_new.
  - exact scenario_rows_wf.
  - intros hit Hhit. change (concat scenario_results) with
      (project new_output_fields <$> [g1_a; g1_b; g1_c; g2_a]) in Hhit.
    apply list_elem_of_fmap in Hhit as (r & Hr & Hin). by exists r.
  - discriminate.
  - repeat constructor.
  - destruct (process_results_topk_sorted_distinct id scenario_results scenario_query "kb" 1
                new_output_fields false scenario_store c' l)
      as (Hlen & Hsorted & Hnodup & _).
    + intros ids. reflexivity.
    + lia.
    + exact Hrun.
    + exists l, c'. split; [exact Hrun |]. split; [exact Hlen |]. split; assumption.
Defined.

(** The ranking of the scenario: "g1" with score 2, then "g2" with score 1;
    with [topk] 1 only "g1" is returned. *)
Example scenario_ranking :
  (fun e => (e !! "image_id", e !! "score")) <$>
    fetched (search id "kb" scenario_query 2 None None scenario_store) =
  [(Some (VStr "g1"), Some (VFloat 2)); (Some (VStr "g2"), Some (VFloat 1))] /\
  (fun e => (e !! "image_id", e !! "score")) <$>
    fetched (search id "kb" scenario_query 1 None None scenario_store) =
  [(Some (VStr "g1"), Some (VFloat 2))].
Proof. vm_compute. split; reflexivity. Qed.

End Scenario.

(** ** C2: the score of a group *)

Section GroupScore.

Import Search.

(** The sum of a list of numbers, term by term. *)
Definition sum_of (ms : list Q) : Q := foldr Qplus 0%Q ms.

Lemma foldl_Qplus (a : Q) (v : list Q) : (foldl Qplus a v == a + sum_of v)%Q.
Proof.
  revert a. induction v as [| x v IH]; intros a; cbn [foldl sum_of foldr].
  - lra.
  - rewrite IH. fold (sum_of v). lra.
Qed.

Lemma np_sum_is_sum (v : list Q) : (np.sum v == sum_of v)%Q.
Proof. unfold np.sum. rewrite foldl_Qplus. lra. Qed.

Lemma maxima_of_rows (group data : list (list Q)) :
  group <> [] ->
  Forall2 (is_max_inner group) data ((fun q => row_max (inner q <$> group)) <$> data).
Proof.
  intros Hne. apply Forall2_fmap_r, Forall_Forall2_diag, Forall_forall. intros q _.
  by apply row_max_is_max_inner.
Qed.

(** C2 (amended): the score [rerank_single_doc] gives a group is the sum,
    over the query vectors, of the maximum inner product between the query
    vector and a vector of the group, among the first 1000 rows of the
    group: the fetch asks for no more.  For a group of at most 1000 rows
    these are all its vectors.  A group whose fetch returns no row gets the
    score 0.0. *)
Theorem rerank_score_is_late_interaction image_id data name output_fields use_old_schema
    (c : client) (col : collection) :
  colls c !! name = Some col ->
  faulty c (group_fetch name image_id) = false ->
  fields_known col output_fields = true ->
  (forall k, k ∈ old_output_fields -> k ∈ output_fields) ->
  Forall (row_wf (c_dim col)) (group_rows image_id col) ->
  data <> [] ->
  Forall (fun q => length q = c_dim col) data ->
  exists score metadata,
    rerank_single_doc image_id data name output_fields use_old_schema c
      = (Ok (score, metadata), logged (group_fetch name image_id) c) /\
    (group_rows image_id col = [] -> score = 0%Q) /\
    (group_rows image_id col <> [] ->
     exists ms,
       Forall2 (is_max_inner (row_vector <$> take 1000 (group_rows image_id col))) data ms /\
       (score == sum_of ms)%Q) /\
    (group_rows image_id col <> [] -> length (group_rows image_id col) ≤ 1000 ->
     exists ms,
       Forall2 (is_max_inner (row_vector <$> group_rows image_id col)) data ms /\
       (score == sum_of ms)%Q).
Proof.
  intros Hcol Hfault Hknown Hfs Hwf Hdata Hdim.
  destruct (group_rows image_id col) as [| r0 rs] eqn:Hrows.
  { exists 0%Q, (dangling_metadata image_id).
    split; [by apply (rerank_single_doc_no_rows _ _ _ _ _ _ col) |]. by repeat split. }
  destruct (rerank_single_doc_score image_id data name output_fields use_old_schema c col)
    as [metadata Hrun]; try done.
  { by rewrite Hrows. } { by rewrite Hrows. }
  rewrite Hrows in Hrun.
  assert (Hmain : exists ms,
            Forall2 (is_max_inner (row_vector <$> take 1000 (r0 :: rs))) data ms /\
            (np.sum ((fun q => row_max (inner q <$> (row_vector <$> take 1000 (r0 :: rs))))
                       <$> data) == sum_of ms)%Q).
  { eexists. split; [apply maxima_of_rows; discriminate | apply np_sum_is_sum]. }
  eexists _, metadata. split; [exact Hrun |]. split; [done |].
  split; [by intros _ |].
  intros _ Hlen. destruct Hmain as (ms & Hmax & Heq). exists ms. split; [| exact Heq].
  by rewrite take_ge in Hmax.
Qed.

Lemma rerank_score_is_late_interaction_witness :
  exists score metadata c' ms,
    rerank_single_doc "g1" scenario_query "kb" new_output_fields false scenario_store
      = (Ok (score, metadata), c') /\
    Forall2 (is_max_inner [[1; 0]; [0; 1]; [1; 1]]%Q) scenario_query ms /\
    (score == sum_of ms)%Q.
Proof.
  assert (Hvecs : row_vector <$> take 1000 (group_rows "g1" scenario_collection)
                  = [[1; 0]; [0; 1]; [1; 1]]%Q) by (vm_compute; reflexivity).
  destruct (rerank_score_is_late_interaction "g1" scenario_query "kb" new_output_fields false
              scenario_store scenario_collection)
    as (score & metadata & Hrun & _ & Hsum & _).
  - reflexivity.
  - reflexivity.
  - reflexivity.
  - apply old_fields_in_new.
  - apply Forall_forall. intros r Hr. apply list_elem_of_filter in Hr as [_ Hr].
    revert r Hr. apply Forall_forall. exact scenario_rows_wf.
  - discriminate.
  - repeat constructor.
  - destruct Hsum as (ms & Hmax & Heq).
    { intros Hnil. rewrite Hnil in Hvecs. discriminate Hvecs. }
    rewrite Hvecs in Hmax. exists score, metadata. eexists. exists ms.
    split; [exact Hrun |]. split; [exact Hmax | exact Heq].
Defined.

(** A group of 1001 rows: a thousand with the vector [0], then one with the
    vector [1]. *)
Definition zero_row : row := migrated_record (legacy_row "g" "f" 0 [0]%Q).
Definition one_row : row := migrated_record (legacy_row "g" "f" 0 [1]%Q).

Definition large_collection : collection :=
  {| c_dim := 1; c_fields := schema_fields; c_rows := replicate 1000 zero_row ++ [one_row] |}.

Definition large_store : client :=
  {| colls := {[ "large" := large_collection ]}; log := []; faults := no_faults;
     answers := no_answers |}.

Lemma filter_all_pass {A} (P : A -> bool) (l : list A) :
  Forall (fun x => P x = true) l -> filter (fun x => P x) l = l.
Proof.
  induction 1 as [| x l Hx _ IH]; [done |].
  rewrite filter_cons_True by (by rewrite Hx). by rewrite IH.
Qed.

Lemma large_group_rows :
  group_rows "g" large_collection = replicate 1000 zero_row ++ [one_row].
Proof.
  unfold group_rows. cbn [c_rows large_collection]. apply filter_all_pass.
  apply Forall_app. split.
  - apply Forall_replicate. vm_compute. reflexivity.
  - constructor; [vm_compute; reflexivity | constructor].
Qed.

(** C2, as stated, fails: for the query vector [1] the largest inner product
    with a vector of the group is 1, that of its last row, and the score of
    the group is 0: the fetch returned the first 1000 rows only. *)
Lemma rerank_score_misses_rows_past_limit :
  length (group_rows "g" large_collection) = 1001 /\
  is_max_inner (row_vector <$> group_rows "g" large_collection) [1]%Q 1%Q /\
  exists score metadata c',
    rerank_single_doc "g" [[1]]%Q "large" new_output_fields false large_store
      = (Ok (score, metadata), c') /\
    score = 0%Q /\
    forall ms,
      Forall2 (is_max_inner (row_vector <$> group_rows "g" large_collection)) [[1]]%Q ms ->
      ~ (score == sum_of ms)%Q.
Proof.
  assert (Hone : [1]%Q ∈ row_vector <$> group_rows "g" large_collection).
  { rewrite large_group_rows, fmap_app. apply elem_of_app. right.
    change (row_vector <$> [one_row]) with [[1]%Q]. left. }
  split; [| split].
  - rewrite large_group_rows, length_app, length_replicate. reflexivity.
  - split; [exists [1]%Q; split; [exact Hone | reflexivity] |].
    intros v Hv. rewrite large_group_rows, fmap_app in Hv.
    apply elem_of_app in Hv as [Hv | Hv].
    + apply list_elem_of_fmap in Hv as (r & -> & Hr).
      apply elem_of_replicate in Hr as [-> _]. apply Qle_bool_iff. vm_compute. reflexivity.
    + change (row_vector <$> [one_row]) with [[1]%Q] in Hv.
      apply list_elem_of_singleton in Hv as ->. apply Qle_bool_iff. vm_compute. reflexivity.
  - assert (Hscore : score_of (rerank_single_doc "g" [[1]]%Q "large" new_output_fields false
                                 large_store) = Some 0%Q) by (vm_compute; reflexivity).
    unfold score_of in Hscore.
    destruct (rerank_single_doc "g" [[1]]%Q "large" new_output_fields false large_store)
      as [[[score metadata] | e |] c'] eqn:Hrun; cbn [fst] in Hscore;
      [| discriminate Hscore | discriminate Hscore].
    apply (inj Some) in Hscore. subst score.
    exists 0%Q, metadata, c'. split; [reflexivity |]. split; [reflexivity |].
    intros ms Hms Heq.
    inversion Hms as [| q m qs ms' [_ Hub] Hrest]; subst.
    inversion Hrest; subst.
    specialize (Hub [1]%Q Hone). unfold inner in Hub. cbn [zip_with foldr] in Hub.
    unfold sum_of in Heq. cbn [foldr] in Heq. lra.
Qed.

End GroupScore.

(** * More of the code: migrations, maintenance, search and ingestion *)

(** ** Runs on a store that answers every call *)

Lemma no_faults_logged k c : no_faults_in c -> no_faults_in (logged k c).
Proof. intros H n k'. apply H. Qed.

Lemma no_faults_with_colls cs c : no_faults_in c -> no_faults_in (with_colls cs c).
Proof. intros H n k'. apply H. Qed.

Lemma no_faults_extends c c' : extends c c' -> no_faults_in c -> no_faults_in c'.
Proof. intros (_ & Hf & _) H n k. rewrite Hf. apply H. Qed.

Lemma faulty_no_faults c k : no_faults_in c -> faulty c k = false.
Proof. intros H. apply H. Qed.

Lemma project_star (rs : list row) : project ["*"] <$> rs = rs.
Proof.
  induction rs as [| r rs IH]; [done |]. rewrite fmap_cons, IH. f_equal.
Qed.

(** The offsets of the pages [_create_safe_backup] reads from [offset] on
    in a collection of [n] rows. *)
Definition page_offsets (n offset : nat) : list nat :=
  (fun j => offset + j * batch_size_backup) <$> seq 0 ((n - offset) / batch_size_backup + 1).

Lemma page_offsets_last n offset :
  n - offset < batch_size_backup -> page_offsets n offset = [offset].
Proof.
  intros H. unfold page_offsets. rewrite Nat.div_small by done. simpl. f_equal. lia.
Qed.

Lemma page_offsets_next n offset :
  offset + batch_size_backup <= n ->
  page_offsets n offset = offset :: page_offsets n (offset + batch_size_backup).
Proof.
  intros H. unfold page_offsets.
  assert (Hq : (n - offset) / batch_size_backup
               = S ((n - (offset + batch_size_backup)) / batch_size_backup)).
  { replace (n - offset) with ((n - (offset + batch_size_backup)) + 1 * batch_size_backup)
      by lia.
    rewrite Nat.div_add by done. lia. }
  rewrite Hq. set (q := (n - (offset + batch_size_backup)) / batch_size_backup).
  replace (S q + 1) with (S (q + 1)) by lia.
  cbn [seq]. rewrite fmap_cons. f_equal; [lia |].
  rewrite <- seq_shift, <- list_fmap_compose. apply list_fmap_ext. intros i j _. unfold compose. cbv beta. lia.
Qed.

Definition page_query (name : string) (offset : nat) : call :=
  CQuery name FAll batch_size_backup offset.

(** On a store that answers, the loop of the backup reads every row from
    [offset] on, page by page. *)
Lemma backup_loop_reads_all fuel name all_data offset c col :
  no_faults_in c ->
  colls c !! name = Some col ->
  offset <= length (c_rows col) ->
  length (c_rows col) - offset < fuel ->
  exists c',
    backup_loop fuel name all_data offset c = (Ok (all_data ++ drop offset (c_rows col)), c') /\
    colls c' = colls c /\ faults c' = faults c /\
    log c' = log c ++ (page_query name <$> page_offsets (length (c_rows col)) offset).
Proof.
  revert all_data offset c. induction fuel as [| fuel IH];
    intros all_data offset c Hno Hcol Hoff Hfuel; [lia |].
  cbn [backup_loop]. munfold. rewrite client_query_run.
  rewrite (faulty_no_faults _ _ Hno), Hcol. cbn [fields_known filter_fields forallb andb].
  rewrite bool_decide_eq_true_2 by done. cbn [orb andb].
  rewrite filter_all_rows, project_star.
  set (c1 := logged _ c).
  destruct (take batch_size_backup (drop offset (c_rows col))) as [| r batch] eqn:Hbatch.
  - (* an empty page: [offset] is the number of rows *)
    assert (Hlen : length (take batch_size_backup (drop offset (c_rows col))) = 0)
      by (by rewrite Hbatch).
    rewrite length_take, length_drop in Hlen.
    assert (Heq : offset = length (c_rows col)) by (unfold batch_size_backup in Hlen; lia).
    exists c1. split.
    { rewrite drop_ge by lia. by rewrite app_nil_r. }
    split; [done |]. split; [done |].
    rewrite page_offsets_last by (unfold batch_size_backup; lia). done.
  - assert (Hlen : length (r :: batch) = Nat.min batch_size_backup (length (c_rows col) - offset)).
    { by rewrite <- Hbatch, length_take, length_drop. }
    destruct (length (r :: batch) <? batch_size_backup) eqn:Hlt.
    + (* a short page: the last one *)
      apply Nat.ltb_lt in Hlt. exists c1. split.
      { rewrite <- Hbatch. rewrite take_ge; [done |]. rewrite length_drop. lia. }
      split; [done |]. split; [done |].
      rewrite page_offsets_last by lia. done.
    + (* a full page: read on *)
      apply Nat.ltb_ge in Hlt.
      assert (Hpos : 0 < batch_size_backup) by (unfold batch_size_backup; lia).
      destruct (IH (all_data ++ r :: batch) (offset + length (r :: batch)) c1)
        as (c' & Hrun & Hc & Hf & Hlog); [by apply no_faults_logged | done | lia | lia |].
      assert (Hfull : length (r :: batch) = batch_size_backup) by lia.
      exists c'. split.
      { rewrite Hrun, Hfull, <- Hbatch, <- app_assoc, <- drop_drop, take_drop. done. }
      split; [done |]. split; [done |].
      rewrite Hlog, Hfull. unfold c1. cbn [log logged]. rewrite <- app_assoc. f_equal.
      rewrite (page_offsets_next _ offset) by lia. done.
Qed.


Ltac no_fault Hno :=
  match goal with
  | |- context [faulty ?c ?k] =>
      rewrite (faulty_no_faults c k)
        by (repeat first [exact Hno | apply no_faults_logged | apply no_faults_with_colls])
  end.

Ltac mstep := munfold; cbv beta iota.

Lemma index_call_run k name c :
  index_call k name c =
    (if faulty c k then Raise MilvusException
     else match colls c !! name with
          | Some _ => Ok tt
          | None => Raise MilvusException
          end,
     logged k c).
Proof.
  unfold index_call, get_coll. munfold. rewrite tick_run.
  destruct (faulty c k); [done |]. simpl. by destruct (colls c !! name).
Qed.



(** ** Restoring a backup in batches *)

Definition batch_call (name : string) (k : call) : Prop :=
  exists n, k = CInsert name n /\ 0 < n <= batch_size_restore.

Lemma add_rows_nil col : add_rows col [] = col.
Proof. destruct col. unfold add_rows. simpl. by rewrite app_nil_r. Qed.

Lemma add_rows_app col a b : add_rows (add_rows col a) b = add_rows col (a ++ b).
Proof. unfold add_rows. simpl. by rewrite app_assoc. Qed.

Lemma forallb_Forall_true {A} (f : A -> bool) (l : list A) :
  Forall (fun x => f x = true) l -> forallb f l = true.
Proof. induction 1 as [| x l Hx _ IH]; [done |]. simpl. by rewrite Hx, IH. Qed.

Lemma take_next_batch {A} (data : list A) (j k B : nat) :
  take B (drop (j * B) data) ++ take (k * B) (drop (S j * B) data)
  = take (S k * B) (drop (j * B) data).
Proof.
  replace (S j * B) with (j * B + B) by lia. rewrite <- drop_drop.
  rewrite take_take_drop. f_equal.
Qed.

(** The loop of [_restore_with_new_schema], started at batch [j] with [m]
    batches to go: [k] batches are written before it stops. *)
Lemma restore_loop_spec name data m : forall j count c col,
  colls c !! name = Some col ->
  (m = 0 \/ (j + m - 1) * batch_size_restore < length data) ->
  exists r c' k l,
    restore_loop name data ((fun i => i * batch_size_restore) <$> seq j m) count c = (r, c') /\
    colls c' =
      <[name := add_rows col (migrated_record <$>
                    take (k * batch_size_restore) (drop (j * batch_size_restore) data))]>
        (colls c) /\
    faults c' = faults c /\
    log c' = log c ++ l /\ Forall (batch_call name) l /\
    ((r = Ok (count + length (take (m * batch_size_restore) (drop (j * batch_size_restore) data)))
      /\ k = m /\ length l = m) \/
     (r = Raise MilvusException /\ k < m /\ length l = S k)) /\
    (no_faults_in c -> Forall (fun r => row_ok col r = true) (migrated_record <$> data) -> k = m).
Proof.
  unfold batch_call. unfold batch_size_restore.
  induction m as [| m IH]; intros j count c col Hcol Hne.
  - exists (Ok count), c, 0, []. split; [done |]. split.
    { simpl. by rewrite add_rows_nil, insert_id. }
    split; [done |]. split; [by rewrite app_nil_r |]. split; [constructor |].
    split; [left; simpl; by rewrite Nat.add_0_r | done].
  - destruct Hne as [Hne | Hne]; [done |].
    cbn [seq fmap list_fmap restore_loop]. unfold batch_size_restore.
    destruct (take 100 (drop (j * 100) data)) as [| r0 batch] eqn:Hbatch.
    { exfalso. assert (Hl : length (take 100 (drop (j * 100) data)) = 0) by (by rewrite Hbatch).
      rewrite length_take, length_drop in Hl. lia. }
    assert (Hlen : 0 < length (migrated_record <$> r0 :: batch) <= 100).
    { rewrite length_fmap, <- Hbatch, length_take, length_drop. lia. }
    rewrite fmap_cons. rewrite <- (fmap_cons migrated_record r0 batch).
    mstep. rewrite client_insert_run.
    destruct (faulty c _) eqn:Hfault.
    { exists (Raise MilvusException), (logged (CInsert name (length (migrated_record <$> r0 :: batch))) c),
        0, [CInsert name (length (migrated_record <$> r0 :: batch))].
      split; [done |]. split; [simpl; by rewrite add_rows_nil, insert_id |].
      split; [done |]. split; [done |]. split; [repeat constructor; eauto |].
      split; [right; repeat split; lia |].
      intros Hno _. by rewrite (faulty_no_faults _ _ Hno) in Hfault. }
    rewrite Hcol.
    destruct (forallb (row_ok col) (migrated_record <$> r0 :: batch)) eqn:Hok.
    2:{ exists (Raise MilvusException), (logged (CInsert name (length (migrated_record <$> r0 :: batch))) c),
        0, [CInsert name (length (migrated_record <$> r0 :: batch))].
      split; [done |]. split; [simpl; by rewrite add_rows_nil, insert_id |].
      split; [done |]. split; [done |]. split; [repeat constructor; eauto |].
      split; [right; repeat split; lia |].
      intros _ Hall. exfalso.
      rewrite forallb_Forall_true in Hok; [done |].
      rewrite <- Hbatch. rewrite Forall_fmap in Hall |- *.
      by apply Forall_take, Forall_drop. }
    match goal with |- context [restore_loop name data _ ?n ?c2] =>
      destruct (IH (S j) n c2 (add_rows col (migrated_record <$> r0 :: batch)))
        as (r & c' & k & l & Hrun & Hc & Hf & Hlog & Hcalls & Hres & Hfull);
        [ apply lookup_insert_eq | destruct m; [by left | right; lia] | ]
    end.
    exists r, c', (S k), (CInsert name (length (migrated_record <$> r0 :: batch)) :: l).
    split; [exact Hrun |]. split.
    { rewrite Hc. cbn [colls with_colls]. rewrite insert_insert_eq. f_equal.
      rewrite add_rows_app, <- fmap_app, <- Hbatch. by rewrite take_next_batch. }
    split; [by rewrite Hf |].
    split; [rewrite Hlog; cbn [log logged with_colls]; by rewrite <- app_assoc |].
    split; [constructor; eauto |].
    split.
    { destruct Hres as [(-> & -> & Hl) | (-> & Hk & Hl)]; [left | right].
      - split; [| split; [done | simpl; by rewrite Hl]].
        f_equal. rewrite <- (take_next_batch data j m 100), length_app, Hbatch.
        rewrite length_fmap. lia.
      - repeat split; [lia | simpl; by rewrite Hl]. }
    intros Hno Hall. f_equal. apply Hfull; [| exact Hall].
    by apply no_faults_with_colls, no_faults_logged.
Qed.

Lemma range_step_bounds (n : nat) :
  let m := (n + batch_size_restore - 1) / batch_size_restore in
  (m = 0 \/ (0 + m - 1) * batch_size_restore < n) /\
  n <= m * batch_size_restore < n + batch_size_restore.
Proof.
  unfold batch_size_restore. cbv zeta.
  pose proof (Nat.div_mod_eq (n + 100 - 1) 100) as Hd.
  pose proof (Nat.mod_upper_bound (n + 100 - 1) 100) as Hm.
  set (m := (n + 100 - 1) / 100) in *. lia.
Qed.

(** X1: on a store that answers, [_create_safe_backup] returns every row of
    the collection, in order, and leaves the collections alone.  It reads
    pages of 1000 rows at the offsets 0, 1000, 2000, ...; a collection of
    [n] rows takes [n / 1000 + 1] queries (the last page is the first one
    that is not full, and it is empty when [n] is a multiple of 1000). *)
Theorem backup_reads_every_row name c col :
  no_faults_in c ->
  colls c !! name = Some col ->
  exists c',
    _create_safe_backup name c = (Ok (Some (c_rows col)), c') /\
    colls c' = colls c /\
    log c' = log c ++ ((fun j => CQuery name FAll 1000 (j * 1000)) <$>
                         seq 0 (length (c_rows col) / 1000 + 1)).
Proof.
  intros Hno Hcol. unfold _create_safe_backup. mstep.
  destruct (backup_loop_reads_all (S (row_count_of c name)) name [] 0 c col)
    as (c' & Hrun & Hc & _ & Hlog); [done | done | lia | |].
  { unfold row_count_of. rewrite Hcol. lia. }
  rewrite Hrun. exists c'. split; [done |]. split; [done |].
  rewrite Hlog. f_equal. unfold page_offsets, page_query, batch_size_backup.
  rewrite <- list_fmap_compose, Nat.sub_0_r. done.
Qed.

Lemma backup_reads_every_row_witness :
  exists c',
    _create_safe_backup "kb" (legacy_store no_faults)
      = (Ok (Some [legacy_row "g1" "f1" 0 [1; 0]%Q]), c') /\
    log c' = [CQuery "kb" FAll 1000 0].
Proof.
  destruct (backup_reads_every_row "kb" (legacy_store no_faults) legacy_collection)
    as (c' & Hrun & _ & Hlog); [done | done |].
  exists c'. split; [exact Hrun | exact Hlog].
Defined.

(** X2: [_restore_with_new_schema] writes the backup in order, in batches of
    at most 100 records, one insert per batch.  When it returns, it returns
    the number of records of the backup, and the collection has gained the
    migrated form of every record.  When an insert fails, the exception
    leaves the function and the batches written before stay in the
    collection: a whole number of batches, short of the backup.  On a store
    that answers and accepts the records, it returns. *)
Theorem restore_writes_whole_batches name data c col :
  colls c !! name = Some col ->
  exists r c' k l,
    _restore_with_new_schema name data c = (r, c') /\
    colls c' =
      <[name := add_rows col (migrated_record <$> take (k * 100) data)]> (colls c) /\
    log c' = log c ++ l /\
    Forall (fun call => exists n, call = CInsert name n /\ 0 < n <= 100) l /\
    ((r = Ok (length data) /\ length l = k /\ length data <= k * 100 < length data + 100) \/
     (r = Raise MilvusException /\ length l = S k /\ k * 100 < length data)) /\
    (no_faults_in c -> Forall (fun r => row_ok col r = true) (migrated_record <$> data) ->
     r = Ok (length data)).
Proof.
  intros Hcol. unfold _restore_with_new_schema, range_step.
  destruct (range_step_bounds (length data)) as (Hne & Hup). cbv zeta in Hne, Hup.
  set (m := (length data + batch_size_restore - 1) / batch_size_restore) in *.
  destruct (restore_loop_spec name data m 0 0 c col Hcol Hne)
    as (r & c' & k & l & Hrun & Hc & _ & Hlog & Hcalls & Hres & Hfull).
  unfold batch_call, batch_size_restore in *. cbn [Nat.mul] in *.
  rewrite drop_0 in Hc, Hres.
  assert (Hall : length (take (m * 100) data) = length data)
    by (rewrite length_take; lia).
  exists r, c', k, l. split; [exact Hrun |]. split; [exact Hc |]. split; [exact Hlog |].
  split; [exact Hcalls |]. split.
  - destruct Hres as [(-> & -> & Hl) | (-> & Hk & Hl)]; [left | right].
    + rewrite Hall. repeat split; [done | lia | lia].
    + repeat split; [done |]. lia.
  - intros Hno Hok. destruct Hres as [(-> & _ & _) | (_ & Hk & _)].
    + by rewrite Hall.
    + specialize (Hfull Hno Hok). lia.
Qed.

Lemma restore_writes_whole_batches_witness :
  exists c' l,
    _restore_with_new_schema "kb" [legacy_row "g1" "f1" 0 [1; 0]%Q] empty_store = (Ok 1, c') /\
    log c' = log empty_store ++ l /\ length l = 1.
Proof.
  destruct (restore_writes_whole_batches "kb" [legacy_row "g1" "f1" 0 [1; 0]%Q] empty_store
              {| c_dim := 2; c_fields := schema_fields; c_rows := [] |} eq_refl)
    as (r & c' & k & l & Hrun & _ & Hlog & _ & Hres & Hret).
  assert (Hr : r = Ok 1).
  { apply Hret; [done |]. constructor; [by vm_compute | constructor]. }
  subst r. exists c', l. split; [exact Hrun |]. split; [exact Hlog |].
  destruct Hres as [(_ & Hl & Hk) | (Hr & _)]; [| discriminate Hr].
  simpl in Hk. lia.
Defined.

(** ** A migration on a store that answers *)


Definition has_vector (dim : nat) (r : row) : Prop :=
  exists v, r !! "vector" = Some (VVec v) /\ length v = dim.

Lemma migrated_record_ok dim fields r :
  has_vector dim r ->
  row_ok {| c_dim := dim; c_fields := schema_fields; c_rows := fields |} (migrated_record r) = true.
Proof.
  intros (v & Hv & Hlen). unfold row_ok. apply andb_true_iff. split.
  - cbn [c_fields]. unfold schema_fields. cbn [forallb].
    repeat (apply andb_true_iff; split); try done;
      apply orb_true_iff; right; apply bool_decide_eq_true_2; by eexists.
  - change (migrated_record r !! "vector") with (Some (dict_get r "vector" VNone)).
    unfold dict_get. rewrite Hv. cbn [c_dim]. by apply bool_decide_eq_true_2.
Qed.





(** X4: migrating a collection that does not exist creates nothing and
    still reports success, whatever the store does: the only calls are the
    two existence checks (of the check and of the validation), the
    collections are as before, and the validation [perform_safe_migration]
    attaches reports failure while [success] stays true. *)
Theorem migrate_missing_collection name dim c :
  colls c !! name = None ->
  exists r v c',
    perform_safe_migration name dim c = (Ok r, c') /\
    success r = true /\ errors r = [] /\
    backup_created r = false /\ data_migrated r = false /\
    validation r = Some v /\ v_success v = false /\
    colls c' = colls c /\
    log c' = log c ++ [CHasCollection name; CHasCollection name].
Proof.
  intros Hnone.
  assert (Hfalse : bool_decide (is_Some (@None collection)) = false)
    by (apply bool_decide_eq_false_2; by intros [? ?]).
  assert (Hcheck : exists compat,
    check_schema_compatibility name c = (Ok compat, logged (CHasCollection name) c) /\
    needs_migration compat = false).
  { unfold check_schema_compatibility, check_body. mstep. rewrite has_collection_run.
    destruct (faulty c _); [by eexists |].
    rewrite Hnone, Hfalse. cbn [negb]. mstep. by eexists. }
  destruct Hcheck as (compat & Hcheck & Hneeds).
  unfold perform_safe_migration. mstep.
  rewrite (safe_migrate_no_migration name dim true c compat _ Hcheck Hneeds).
  cbn [success set_message set_success]. unfold validate_migration. mstep.
  rewrite has_collection_run. cbn [colls logged log].
  destruct (faulty _ _).
  - eexists _, _, _. split; [reflexivity |]. cbn. rewrite <- app_assoc. done.
  - rewrite Hnone, Hfalse. cbn [negb]. mstep.
    eexists _, _, _. split; [reflexivity |]. cbn. rewrite <- app_assoc. done.
Qed.

Lemma migrate_missing_collection_witness :
  exists r v c',
    perform_safe_migration "other" 2 (legacy_store no_faults) = (Ok r, c') /\
    success r = true /\ validation r = Some v /\ v_success v = false /\
    colls c' = colls (legacy_store no_faults).
Proof.
  destruct (migrate_missing_collection "other" 2 (legacy_store no_faults) eq_refl)
    as (r & v & c' & Hrun & Hs & _ & _ & _ & Hv & Hvs & Hc & _).
  exists r, v, c'. split; [exact Hrun |]. split; [exact Hs |]. split; [exact Hv |].
  split; [exact Hvs | exact Hc].
Defined.

(** ** The migration always answers *)

Lemma total_when {S} (b : bool) (m : M S unit) : total m -> total (when b m).
Proof. intros Hm. unfold when. destruct b; [done | apply total_ret]. Qed.

Lemma total_has_collection name : total (has_collection name).
Proof. unfold has_collection. total_tac. Qed.

Lemma total_describe_collection name : total (describe_collection name).
Proof. unfold describe_collection. total_tac. Qed.

Lemma total_drop_collection name : total (drop_collection name).
Proof. unfold drop_collection. total_tac. Qed.

Lemma total_client_create_collection name dim fields :
  total (client_create_collection name dim fields).
Proof. unfold client_create_collection. total_tac. Qed.

Lemma total_client_query name f fs limit offset : total (client_query name f fs limit offset).
Proof. unfold client_query. total_tac. Qed.

Lemma total_client_insert name rs : total (client_insert name rs).
Proof. unfold client_insert. total_tac. Qed.

#[export] Hint Resolve total_has_collection total_describe_collection total_drop_collection
  total_client_create_collection total_client_query total_client_insert total_create_index
  : total_db.

Lemma total_check_schema_compatibility name : total (check_schema_compatibility name).
Proof. unfold check_schema_compatibility, check_body. total_tac. Qed.

Lemma total_backup_collection_data name : total (_backup_collection_data name).
Proof. unfold _backup_collection_data. total_tac. Qed.

Lemma total_restore_collection_data name data : total (_restore_collection_data name data).
Proof. unfold _restore_collection_data. total_tac. Qed.

Lemma total_create_collection name dim migrate_existing :
  total (create_collection name dim migrate_existing).
Proof.
  unfold create_collection.
  apply total_bind; [apply total_has_collection | intros ex].
  apply total_bind.
  { destruct (ex && migrate_existing); [| apply total_ret].
    apply total_try; [apply total_backup_collection_data | intros ?; apply total_ret]. }
  intros existing_data.
  apply total_bind; [apply total_has_collection | intros ex'].
  apply total_bind; [apply total_when, total_drop_collection | intros _].
  apply total_bind; [apply total_client_create_collection | intros _].
  apply total_bind; [apply total_create_index | intros _].
  apply total_when, total_restore_collection_data.
Qed.

Lemma total_restore_loop name data starts : forall count,
  total (restore_loop name data starts count).
Proof.
  induction starts as [| i starts IH]; intros count; [apply total_mret |].
  cbn [restore_loop]. destruct (migrated_record <$> _); [apply IH |].
  apply total_bind; [apply total_client_insert | intros _; apply IH].
Qed.

Lemma total_restore_with_new_schema name data : total (_restore_with_new_schema name data).
Proof. apply total_restore_loop. Qed.

#[export] Hint Resolve total_check_schema_compatibility total_create_safe_backup
  total_create_collection total_restore_with_new_schema : total_db.

Ltac run_step :=
  match goal with
  | |- context [match ?m ?c with pair _ _ => _ end] =>
      let Ht := fresh "Ht" in
      assert (Ht : total m) by auto with total_db;
      specialize (Ht c);
      destruct (m c) as [[? | ? |] ?]; cbn [fst] in Ht; [ | | done ];
      mstep; cbn [fst snd]
  end.

Ltac branch_step :=
  match goal with
  | |- context [if ?b then _ else _] => destruct b; mstep; cbn [fst snd]
  end.

Ltac report_leaf :=
  eexists _, _; split; [reflexivity |]; cbn;
  first [ left; done | right; split; [done |]; eexists; done ].

(** X5: [safe_migrate_collection] never raises, whatever the store does:
    it always returns a result.  The result either reports success with no
    error, or reports failure with exactly one error, the exception that
    stopped the migration, which is also its message. *)
Theorem safe_migrate_collection_always_reports name dim backup c :
  exists r c',
    safe_migrate_collection name dim backup c = (Ok r, c') /\
    ((success r = true /\ errors r = []) \/
     (success r = false /\
      exists e, errors r = [MsgMigrationFailed name e] /\
                result_message r = Some (MsgMigrationFailed name e))).
Proof.
  unfold safe_migrate_collection, safe_migrate_body. mstep. cbn [fst snd].
  repeat first [ run_step | branch_step | report_leaf ].
Qed.

(** ** What an operation on one collection leaves alone *)

(** [c'] differs from [c] at most in the collection [name] and in the log. *)
Definition frame (name : string) (c c' : client) : Prop :=
  faults c' = faults c /\
  forall other, other <> name -> colls c' !! other = colls c !! other.

Definition framed {A} (name : string) (m : M client A) : Prop :=
  forall c, frame name c (m c).2.

Lemma frame_refl name c : frame name c c.
Proof. by split. Qed.

Lemma frame_trans name c1 c2 c3 : frame name c1 c2 -> frame name c2 c3 -> frame name c1 c3.
Proof.
  intros (Hf & Hc) (Hf' & Hc'). split; [by rewrite Hf', Hf |].
  intros other Hne. by rewrite Hc', Hc.
Qed.

Lemma frame_extends name c c' : extends c c' -> frame name c c'.
Proof. intros (Hc & Hf & _). split; [done |]. intros other _. by rewrite Hc. Qed.

Lemma framed_readonly {A} name (m : M client A) : readonly m -> framed name m.
Proof. intros H c. apply frame_extends, H. Qed.

Lemma framed_bind {A B} name (m : M client A) (k : A -> M client B) :
  framed name m -> (forall a, framed name (k a)) -> framed name (m ≫= k).
Proof.
  intros Hm Hk c. specialize (Hm c). munfold.
  destruct (m c) as [[a | e |] c1]; simpl in *; try done.
  eapply frame_trans; [exact Hm | apply Hk].
Qed.

Lemma framed_try {A} name (m : M client A) (h : exn -> M client A) :
  framed name m -> (forall e, framed name (h e)) -> framed name (try_except m h).
Proof.
  intros Hm Hh c. specialize (Hm c). munfold.
  destruct (m c) as [[a | e |] c1]; simpl in *; try done.
  eapply frame_trans; [exact Hm | apply Hh].
Qed.

Lemma framed_ret {A} name (a : A) : framed name (ret a).
Proof. intros c. apply frame_refl. Qed.

Lemma framed_mret {A} name (a : A) : framed name (mret a).
Proof. intros c. apply frame_refl. Qed.

Lemma framed_raise {A} name e : framed name (@raise client A e).
Proof. intros c. apply frame_refl. Qed.

Lemma framed_when name (b : bool) (m : M client unit) : framed name m -> framed name (when b m).
Proof. intros Hm. unfold when. destruct b; [done | apply framed_ret]. Qed.

Lemma frame_with_colls name (x : collection) c c' :
  frame name c c' -> frame name c (with_colls (<[name := x]> (colls c')) c').
Proof.
  intros (Hf & Hc). split; [done |]. intros other Hne. cbn [colls with_colls].
  rewrite lookup_insert_ne by done. by apply Hc.
Qed.

Lemma framed_drop_collection name : framed name (drop_collection name).
Proof.
  intros c. rewrite drop_collection_run. destruct (faulty c _); cbn [snd].
  - apply frame_extends, extends_logged.
  - split; [done |]. intros other Hne. cbn [colls with_colls logged].
    by rewrite lookup_delete_ne.
Qed.

Lemma framed_client_create_collection name dim fields :
  framed name (client_create_collection name dim fields).
Proof.
  intros c. rewrite client_create_collection_run.
  destruct (faulty c _); cbn [snd]; [apply frame_extends, extends_logged |].
  destruct (colls c !! name); cbn [snd]; [apply frame_extends, extends_logged |].
  apply (frame_with_colls name _ c (logged _ c)), frame_extends, extends_logged.
Qed.

Lemma framed_client_insert name rs : framed name (client_insert name rs).
Proof.
  intros c. rewrite client_insert_run.
  destruct (faulty c _); cbn [snd]; [apply frame_extends, extends_logged |].
  destruct (colls c !! name); cbn [snd]; [| apply frame_extends, extends_logged].
  destruct (forallb _ _); cbn [snd]; [| apply frame_extends, extends_logged].
  apply (frame_with_colls name _ c (logged _ c)), frame_extends, extends_logged.
Qed.

Lemma framed_client_delete name f : framed name (client_delete name f).
Proof.
  intros c. unfold client_delete, get_coll. munfold. rewrite tick_run.
  destruct (faulty c _); cbn [snd]; [apply frame_extends, extends_logged |].
  cbn [colls logged]. destruct (colls c !! name); cbn [snd];
    [| apply frame_extends, extends_logged].
  destruct (fields_known _ _); cbn [snd]; [| apply frame_extends, extends_logged].
  apply (frame_with_colls name _ c (logged _ c)), frame_extends, extends_logged.
Qed.

Create HintDb framed_db.
#[export] Hint Resolve framed_ret framed_mret framed_raise framed_drop_collection
  framed_client_create_collection framed_client_insert framed_client_delete : framed_db.
#[export] Hint Extern 1 (framed _ _) =>
  apply framed_readonly; solve [auto with readonly_db] : framed_db.

Ltac framed_tac :=
  repeat first
    [ solve [ auto with framed_db ]
    | apply framed_bind; [ | intros ?; cbv beta ]
    | apply framed_try; [ | intros ?; cbv beta ]
    | apply framed_when
    | match goal with
      | |- framed _ (if ?b then _ else _) => destruct b
      | |- framed _ (match ?x with _ => _ end) => destruct x
      end ].

Lemma framed_create_index name : framed name (_create_index name).
Proof. apply framed_readonly, readonly_create_index. Qed.

Lemma framed_backup_collection_data name : framed name (_backup_collection_data name).
Proof. unfold _backup_collection_data. framed_tac. Qed.

Lemma framed_restore_collection_data name data :
  framed name (_restore_collection_data name data).
Proof.
  unfold _restore_collection_data. destruct data; [auto with framed_db |].
  cbv zeta. destruct (migrated_record <$> _); auto with framed_db.
Qed.

#[export] Hint Resolve framed_create_index framed_backup_collection_data
  framed_restore_collection_data : framed_db.

Lemma framed_create_collection name dim migrate_existing :
  framed name (create_collection name dim migrate_existing).
Proof. unfold create_collection. framed_tac. Qed.

Lemma framed_backup_loop name fuel : forall all_data offset,
  framed name (backup_loop fuel name all_data offset).
Proof.
  induction fuel as [| fuel IH]; intros all_data offset; [intros c; apply frame_refl |].
  cbn [backup_loop]. apply framed_bind; [auto with framed_db | intros batch].
  destruct batch; [auto with framed_db |].
  destruct (_ <? _); [auto with framed_db | apply IH].
Qed.

Lemma framed_create_safe_backup name : framed name (_create_safe_backup name).
Proof.
  unfold _create_safe_backup. apply framed_try; [| intros ?; auto with framed_db].
  intros c. munfold. cbv beta.
  pose proof (framed_backup_loop name (S (row_count_of c name)) [] 0 c) as H.
  destruct (backup_loop _ name [] 0 c) as [[l | e |] c']; exact H.
Qed.

Lemma framed_restore_loop name data starts : forall count,
  framed name (restore_loop name data starts count).
Proof.
  induction starts as [| i starts IH]; intros count; [auto with framed_db |].
  cbn [restore_loop]. destruct (migrated_record <$> _); [apply IH |].
  apply framed_bind; [auto with framed_db | intros _; apply IH].
Qed.

#[export] Hint Resolve framed_create_collection framed_create_safe_backup : framed_db.

(** The same for the computations that also carry the result dictionary. *)
Definition framed_local {L A} (name : string) (m : M (client * L) A) : Prop :=
  forall s, frame name s.1 (m s).2.1.

Lemma framed_local_lift {L A} name (m : M client A) :
  framed name m -> framed_local name (lift m : M (client * L) A).
Proof.
  intros Hm s. specialize (Hm s.1). unfold lift. by destruct (m s.1).
Qed.

Lemma framed_local_modify {L} name (f : L -> L) :
  framed_local name (modify_local f : M (client * L) unit).
Proof. intros s. apply frame_refl. Qed.

Lemma framed_local_ret {L A} name (a : A) : framed_local name (ret a : M (client * L) A).
Proof. intros s. apply frame_refl. Qed.

Lemma framed_local_bind {L A B} name (m : M (client * L) A) (k : A -> M (client * L) B) :
  framed_local name m -> (forall a, framed_local name (k a)) -> framed_local name (m ≫= k).
Proof.
  intros Hm Hk s. specialize (Hm s). munfold.
  destruct (m s) as [[a | e |] s1]; simpl in *; try done.
  eapply frame_trans; [exact Hm | apply Hk].
Qed.

Lemma framed_local_when {L} name (b : bool) (m : M (client * L) unit) :
  framed_local name m -> framed_local name (when b m).
Proof. intros Hm. unfold when. destruct b; [done | apply framed_local_ret]. Qed.

Lemma framed_local_safe_migrate_body name dim backup :
  framed_local name (safe_migrate_body name dim backup).
Proof.
  unfold safe_migrate_body.
  apply framed_local_bind.
  { apply framed_local_lift, framed_readonly, readonly_check_schema_compatibility. }
  intros compat. destruct (negb _).
  { apply framed_local_bind; intros; apply framed_local_modify. }
  apply framed_local_bind.
  { destruct (_ && _); [| apply framed_local_ret].
    apply framed_local_bind; [apply framed_local_lift, framed_create_safe_backup |].
    intros ?. apply framed_local_bind; [apply framed_local_modify |].
    intros ?. apply framed_local_ret. }
  intros backup_data.
  apply framed_local_bind.
  { apply framed_local_when, framed_local_lift, framed_drop_collection. }
  intros _. apply framed_local_bind.
  { apply framed_local_lift, framed_create_collection. }
  intros _. apply framed_local_bind.
  { apply framed_local_when, framed_local_bind.
    - apply framed_local_lift, framed_restore_loop.
    - intros ?. apply framed_local_bind; intros; apply framed_local_modify. }
  intros _. apply framed_local_bind; intros; apply framed_local_modify.
Qed.

Lemma framed_safe_migrate_collection name dim backup :
  framed name (safe_migrate_collection name dim backup).
Proof.
  intros c. unfold safe_migrate_collection.
  pose proof (framed_local_safe_migrate_body name dim backup (c, initial_result)) as H.
  destruct (safe_migrate_body name dim backup (c, initial_result)) as [[[] | e |] [c' r]];
    exact H.
Qed.

(** X6: a migration touches no collection but its own, whatever the store
    does and however the migration ends: every other collection of the store
    is afterwards what it was before.  The same holds with the validation
    of [perform_safe_migration]. *)
Theorem migration_leaves_other_collections name dim backup c other :
  other <> name ->
  colls (safe_migrate_collection name dim backup c).2 !! other = colls c !! other /\
  colls (perform_safe_migration name dim c).2 !! other = colls c !! other.
Proof.
  intros Hne. split.
  - by apply (framed_safe_migrate_collection name dim backup c).
  - assert (H : framed name (perform_safe_migration name dim)).
    { unfold perform_safe_migration.
      apply framed_bind; [apply framed_safe_migrate_collection | intros r].
      destruct (success r); [| apply framed_mret].
      apply framed_bind; [| intros ?; apply framed_mret].
      apply framed_readonly, readonly_validate_migration. }
    by apply (H c).
Qed.

(** A store with the legacy collection "kb" and a current collection "docs". *)
Definition shared_store : client :=
  {| colls := <["docs" := new_empty 2]> {[ "kb" := legacy_collection ]};
     log := []; faults := no_faults; answers := no_answers |}.

Lemma migration_leaves_other_collections_witness :
  colls (safe_migrate_collection "kb" 2 true shared_store).2 !! "docs"
    = colls shared_store !! "docs" /\
  colls (perform_safe_migration "kb" 2 shared_store).2 !! "docs"
    = colls shared_store !! "docs".
Proof.
  apply (migration_leaves_other_collections "kb" 2 true shared_store "docs").
  discriminate.
Defined.


(** ** Searches only read *)

Section SearchReads.

Import Search Maintenance Rag.

Lemma readonly_pure {A} (m : M client A) : pure m -> readonly m.
Proof. intros Hm c. destruct (Hm c) as [-> _]. apply extends_refl. Qed.

Lemma readonly_mapM {A B} (f : A -> M client B) (l : list A) :
  (forall a, readonly (f a)) -> readonly (mapM f l).
Proof.
  intros Hf. induction l as [| a l IH]; [apply readonly_ret |].
  cbn [mapM]. apply readonly_bind; [apply Hf | intros b].
  apply readonly_bind; [apply IH | intros bs; apply readonly_ret].
Qed.

Lemma readonly_attempt {A} (m : M client A) : readonly m -> readonly (attempt m).
Proof.
  intros Hm c. specialize (Hm c). unfold attempt. by destruct (m c) as [[a | e |] c1].
Qed.

Lemma readonly_future_result {A} (r : result A) : readonly (future_result r).
Proof. intros c. apply extends_refl. Qed.

Lemma readonly_client_search name data f limit output_fields :
  readonly (client_search name data f limit output_fields).
Proof. unfold client_search. destruct data; readonly_tac. Qed.

Lemma readonly_client_search_expr name data expr limit output_fields :
  readonly (client_search_expr name data expr limit output_fields).
Proof. unfold client_search_expr. readonly_tac. Qed.

Lemma readonly_rerank_single_doc image_id data name output_fields use_old_schema :
  readonly (rerank_single_doc image_id data name output_fields use_old_schema).
Proof.
  intros c.
  destruct (rerank_single_doc_run image_id data name output_fields use_old_schema c)
    as (r & -> & _). apply extends_logged.
Qed.

Lemma readonly_process_search_results sched results data name topk output_fields
    use_old_schema :
  readonly (_process_search_results sched results data name topk output_fields use_old_schema).
Proof.
  unfold _process_search_results.
  apply readonly_bind; [apply readonly_pure, pure_collect_image_ids | intros ids].
  apply readonly_bind.
  { apply readonly_mapM. intros id. apply readonly_attempt, readonly_rerank_single_doc. }
  intros futures. apply readonly_bind.
  { apply readonly_mapM. intros f. apply readonly_future_result. }
  intros scores. apply readonly_mapM. intros sm. apply readonly_pure, pure_result_entry.
Qed.

Lemma readonly_search_with_new_schema sched name data topk mf tf :
  readonly (_search_with_new_schema sched name data topk mf tf).
Proof.
  unfold _search_with_new_schema.
  apply readonly_bind; [| intros results; apply readonly_process_search_results].
  destruct (build_filter mf tf);
    [apply readonly_client_search_expr | apply readonly_client_search].
Qed.

Lemma readonly_search_with_old_schema sched name data topk :
  readonly (_search_with_old_schema sched name data topk).
Proof.
  unfold _search_with_old_schema.
  apply readonly_bind; [apply readonly_client_search | intros results].
  apply readonly_process_search_results.
Qed.

Lemma readonly_search sched name data topk mf tf :
  readonly (search sched name data topk mf tf).
Proof.
  unfold search. apply readonly_try; [apply readonly_search_with_new_schema |].
  intros _. apply readonly_search_with_old_schema.
Qed.

(** X7: a search never writes: whatever the store does and however the
    search ends (by either path, with or without filters, with a list or
    with an exception), the collections of the store are afterwards what
    they were before, and the calls made are added to the log. *)
Theorem search_never_writes sched name data topk mf tf c :
  colls (search sched name data topk mf tf c).2 = colls c /\
  exists calls, log (search sched name data topk mf tf c).2 = log c ++ calls.
Proof.
  destruct (readonly_search sched name data topk mf tf c) as (Hc & _ & Hl). by split.
Qed.

End SearchReads.

(** ** What a search can return *)

Section SearchSound.

Import Search Maintenance.

(** An entry describes a row: it has the group, the file and the page of the
    row. *)
Definition describes (e row0 : row) : Prop :=
  e !! "image_id" = row0 !! "image_id" /\
  e !! "file_id" = row0 !! "file_id" /\
  e !! "page_number" = row0 !! "page_number".

Lemma entry_from_row sched results data name (topk : Z) output_fields use_old_schema
    (c c' : client) (l : list row) (e : row) :
  (forall k, k ∈ old_output_fields -> k ∈ output_fields) ->
  _process_search_results sched results data name topk output_fields use_old_schema c
    = (Ok l, c') ->
  e ∈ l ->
  exists col row0, colls c !! name = Some col /\ row0 ∈ c_rows col /\ describes e row0.
Proof.
  intros Hfields Hrun He.
  destruct (entry_has_future _ _ _ _ _ _ _ _ _ _ _ Hrun He)
    as (id & [score metadata] & (c0 & [Hc0 _] & Hfut) & Hscore & Hkeys).
  destruct (rerank_single_doc_run id data name output_fields use_old_schema c0)
    as (r & Hrun0 & _ & Hname).
  rewrite Hfut in Hrun0. injection Hrun0 as <-.
  specialize (Hname score metadata eq_refl).
  destruct (rerank_single_doc_metadata _ _ _ _ _ _ _ _ Hfut score metadata eq_refl)
    as [-> | (col & row0 & Hcol & Hrow0 & Hpass & Hfile & Hpage & _)].
  - exfalso. destruct (Hkeys "media_type") as [[v Hv] Heq]; [by repeat constructor |].
    simpl in Heq. rewrite Hv in Heq.
    by rewrite (dangling_has_no_media id "media_type" (VStr "image")) in Heq
      by (by repeat constructor).
  - exists col, row0. rewrite <- Hc0. split; [done |]. split; [done |].
    unfold describes. split; [| split].
    + destruct (Hkeys "image_id") as [_ ->]; [by repeat constructor |]. simpl.
      rewrite Hname. symmetry. by apply eval_filter_image_id.
    + destruct (Hkeys "file_id") as [_ ->]; [by repeat constructor |]. simpl.
      rewrite Hfile. apply project_lookup, Hfields. unfold old_output_fields.
      by repeat constructor.
    + destruct (Hkeys "page_number") as [_ ->]; [by repeat constructor |]. simpl.
      rewrite Hpage. apply project_lookup, Hfields. unfold old_output_fields.
      by repeat constructor.
Qed.

Lemma new_path_entry_from_row sched name data (topk : Z) mf tf (c c' : client) l e :
  _search_with_new_schema sched name data topk mf tf c = (Ok l, c') ->
  e ∈ l ->
  exists col row0, colls c !! name = Some col /\ row0 ∈ c_rows col /\ describes e row0.
Proof.
  unfold _search_with_new_schema. munfold.
  destruct (build_filter mf tf) as [expr |].
  { by rewrite client_search_expr_run. }
  destruct (client_search name data FAll 50 new_output_fields c) as [[results | e0 |] c1] eqn:Hs;
    [| done | done].
  intros Hrun He.
  destruct (readonly_client_search name data FAll 50 new_output_fields c) as (Hc & _).
  rewrite Hs in Hc. cbn [snd] in Hc. rewrite <- Hc.
  eapply entry_from_row; [apply old_fields_in_new | exact Hrun | exact He].
Qed.

Lemma old_path_entry_from_row sched name data (topk : Z) (c c' : client) l e :
  _search_with_old_schema sched name data topk c = (Ok l, c') ->
  e ∈ l ->
  exists col row0, colls c !! name = Some col /\ row0 ∈ c_rows col /\ describes e row0.
Proof.
  unfold _search_with_old_schema. munfold.
  destruct (client_search name data FAll 50 old_output_fields c) as [[results | e0 |] c1] eqn:Hs;
    [| done | done].
  intros Hrun He.
  destruct (readonly_client_search name data FAll 50 old_output_fields c) as (Hc & _).
  rewrite Hs in Hc. cbn [snd] in Hc. rewrite <- Hc.
  eapply entry_from_row; [by intros k Hk | exact Hrun | exact He].
Qed.

Lemma search_entry_from_row sched name data (topk : Z) mf tf (c c' : client) l e :
  search sched name data topk mf tf c = (Ok l, c') ->
  e ∈ l ->
  exists col row0, colls c !! name = Some col /\ row0 ∈ c_rows col /\ describes e row0.
Proof.
  unfold search. munfold.
  destruct (_search_with_new_schema sched name data topk mf tf c) as [[l1 | e1 |] c1] eqn:Hnew.
  - intros [= -> ->]. by apply (new_path_entry_from_row _ _ _ _ _ _ _ _ _ _ Hnew).
  - intros Hold He.
    destruct (readonly_search_with_new_schema sched name data topk mf tf c) as (Hc & _).
    rewrite Hnew in Hc. cbn [snd] in Hc. rewrite <- Hc.
    by apply (old_path_entry_from_row _ _ _ _ _ _ _ _ Hold).
  - done.
Qed.

(** X8: whatever [search] returns describes the store: every entry of the
    list, on either path and whatever the store does, has the group, the
    file and the page of a row that is in the collection. *)
Theorem search_results_describe_rows sched name data (topk : Z) mf tf (c c' : client) l :
  search sched name data topk mf tf c = (Ok l, c') ->
  forall e, e ∈ l ->
    exists col row0,
      colls c !! name = Some col /\ row0 ∈ c_rows col /\
      e !! "image_id" = row0 !! "image_id" /\
      e !! "file_id" = row0 !! "file_id" /\
      e !! "page_number" = row0 !! "page_number".
Proof.
  intros Hrun e He.
  destruct (search_entry_from_row _ _ _ _ _ _ _ _ _ _ Hrun He) as (col & row0 & H1 & H2 & H3).
  by exists col, row0.
Qed.

Lemma search_results_describe_rows_witness :
  exists l c',
    search id "kb" scenario_query 2 None None scenario_store = (Ok l, c') /\
    forall e, e ∈ l ->
      exists row0, row0 ∈ c_rows scenario_collection /\ e !! "file_id" = row0 !! "file_id".
Proof.
  destruct (new_schema_returns id "kb" scenario_query 2 None None scenario_store
              scenario_collection) as (l & c' & Hrun).
  - intros ids. reflexivity.
  - reflexivity.
  - intros n k. reflexivity.
  - reflexivity.
  - reflexivity.
  - exact scenario_rows_wf.
  - discriminate.
  - repeat constructor.
  - assert (Hsearch : search id "kb" scenario_query 2 None None scenario_store = (Ok l, c'))
      by (unfold search, try_except; by rewrite Hrun).
    exists l, c'. split; [exact Hsearch |]. intros e He.
    destruct (search_results_describe_rows _ _ _ _ _ _ _ _ _ Hsearch e He)
      as (col & row0 & Hcol & Hrow & _ & Hf & _).
    change (colls scenario_store !! "kb") with (Some scenario_collection) in Hcol.
    apply (inj Some) in Hcol. subst col. exists row0. split; [exact Hrow | exact Hf].
Defined.

Lemma client_delete_run name f c :
  client_delete name f c =
    if faulty c (CDelete name f)
    then (Raise MilvusException, logged (CDelete name f) c)
    else match colls c !! name with
         | None => (Raise MilvusException, logged (CDelete name f) c)
         | Some col =>
             if fields_known col (filter_fields f)
             then (Ok (answers c (length (log c)) (CDelete name f)),
                   with_colls
                     (<[name := {| c_dim := c_dim col; c_fields := c_fields col;
                                   c_rows := filter (fun r => ¬ eval_filter f r) (c_rows col) |}]>
                        (colls c))
                     (logged (CDelete name f) c))
             else (Raise MilvusException, logged (CDelete name f) c)
         end.
Proof.
  unfold client_delete, get_coll, get_state. munfold. rewrite tick_run.
  destruct (faulty c _); [done |]. simpl. destruct (colls c !! name) as [col |]; [| done].
  by destruct (fields_known _ _).
Qed.

Lemma delete_files_run name file_ids c :
  delete_files name file_ids c = client_delete name (FFileIdIn file_ids) c.
Proof.
  unfold delete_files. munfold.
  by destruct (client_delete name (FFileIdIn file_ids) c) as [[res | e |] c1].
Qed.

(** X9: what [delete_files] removes is not found again.  When
    [delete_files] returns, with whatever the client hands back, the
    collection keeps exactly the rows of the files that are not listed, in
    order, and no later [search] of the collection returns an entry of a
    listed file. *)
Theorem deleted_files_are_not_found sched name file_ids data (topk : Z) mf tf
    (c c1 c2 : client) (res : value) (l : list row) :
  delete_files name file_ids c = (Ok res, c1) ->
  search sched name data topk mf tf c1 = (Ok l, c2) ->
  (exists col,
      colls c !! name = Some col /\
      (c_rows <$> colls c1 !! name)
        = Some (filter (fun r => ¬ eval_filter (FFileIdIn file_ids) r) (c_rows col))) /\
  forall e file_id, e ∈ l -> e !! "file_id" = Some (VStr file_id) -> file_id ∉ file_ids.
Proof.
  rewrite delete_files_run, client_delete_run.
  destruct (faulty c _); [done |].
  destruct (colls c !! name) as [col |] eqn:Hcol; [| done].
  destruct (fields_known _ _); [| done].
  intros [= <- <-] Hsearch. split.
  { exists col. split; [done |].
    cbn [colls with_colls]. by rewrite lookup_insert_eq. }
  intros e file_id He Hfile Hin.
  destruct (search_entry_from_row _ _ _ _ _ _ _ _ _ _ Hsearch He)
    as (col1 & row0 & Hcol1 & Hrow0 & _ & Hf & _).
  cbn [colls with_colls] in Hcol1. rewrite lookup_insert_eq in Hcol1.
  injection Hcol1 as <-. cbn [c_rows] in Hrow0.
  apply list_elem_of_filter in Hrow0 as [Hkeep _]. apply Hkeep.
  cbn [eval_filter]. unfold str_in. rewrite <- Hf, Hfile.
  by apply bool_decide_pack.
Qed.

Lemma deleted_files_are_not_found_witness :
  exists res c1 l c2,
    delete_files "kb" ["f1"] scenario_store = (Ok res, c1) /\
    search id "kb" scenario_query 2 None None c1 = (Ok l, c2) /\
    forall e file_id, e ∈ l -> e !! "file_id" = Some (VStr file_id) -> file_id ∉ ["f1"].
Proof.
  set (kept := filter (fun r => ¬ eval_filter (FFileIdIn ["f1"]) r) [g1_a; g1_b; g1_c; g2_a]).
  set (col1 := {| c_dim := 2; c_fields := schema_fields; c_rows := kept |}).
  set (c1 := with_colls (<["kb" := col1]> (colls scenario_store))
               (logged (CDelete "kb" (FFileIdIn ["f1"])) scenario_store)).
  assert (Hdel : delete_files "kb" ["f1"] scenario_store = (Ok VNone, c1)).
  { rewrite delete_files_run, client_delete_run.
    change (faulty scenario_store (CDelete "kb" (FFileIdIn ["f1"]))) with false.
    change (colls scenario_store !! "kb") with (Some scenario_collection).
    cbv beta iota.
    change (fields_known scenario_collection (filter_fields (FFileIdIn ["f1"]))) with true.
    reflexivity. }
  destruct (new_schema_returns id "kb" scenario_query 2 None None c1 col1) as (l & c2 & Hrun).
  - intros ids. reflexivity.
  - apply lookup_insert_eq.
  - intros n k. reflexivity.
  - reflexivity.
  - reflexivity.
  - cbn [c_dim c_rows col1]. unfold kept. apply Forall_forall. intros r Hr.
    apply list_elem_of_filter in Hr as [_ Hr]. revert r Hr. apply Forall_forall.
    exact scenario_rows_wf.
  - discriminate.
  - repeat constructor.
  - assert (Hsearch : search id "kb" scenario_query 2 None None c1 = (Ok l, c2))
      by (unfold search, try_except; by rewrite Hrun).
    exists VNone, c1, l, c2. split; [exact Hdel |]. split; [exact Hsearch |].
    apply (deleted_files_are_not_found id "kb" ["f1"] scenario_query 2 None None
             scenario_store c1 c2 VNone l Hdel Hsearch).
Defined.

(** X10: a search of a collection that does not exist raises, after two
    calls: the search of the new-schema path fails, the search of the legacy
    path is tried and fails as well, and its error is the one that leaves
    [search].  Nothing is fetched and the collections are unchanged. *)
Theorem search_missing_collection_raises sched name data (topk : Z) mf tf (c : client) :
  colls c !! name = None ->
  exists c',
    search sched name data topk mf tf c = (Raise MilvusException, c') /\
    colls c' = colls c /\
    log c' = log c ++ [CSearch name (default FAll (build_filter mf tf)); CSearch name FAll].
Proof.
  intros Hnone. unfold search, try_except.
  assert (Hnew : _search_with_new_schema sched name data topk mf tf c
                 = (Raise MilvusException,
                    logged (CSearch name (default FAll (build_filter mf tf))) c)).
  { unfold _search_with_new_schema. munfold.
    destruct (build_filter mf tf) as [expr |]; cbn [default].
    - by rewrite client_search_expr_run.
    - by rewrite client_search_missing. }
  rewrite Hnew. unfold _search_with_old_schema. munfold.
  rewrite client_search_missing by done.
  eexists. split; [reflexivity |]. split; [done |].
  cbn [log logged]. by rewrite <- app_assoc.
Qed.

Lemma search_missing_collection_raises_witness :
  exists c',
    search id "other" scenario_query 2 None None scenario_store = (Raise MilvusException, c') /\
    log c' = [CSearch "other" FAll; CSearch "other" FAll].
Proof.
  destruct (search_missing_collection_raises id "other" scenario_query 2 None None
              scenario_store eq_refl) as (c' & Hrun & _ & Hlog).
  exists c'. split; [exact Hrun | exact Hlog].
Defined.

Lemma filter_none {A} (P : A -> bool) (l : list A) :
  Forall (fun x => P x = false) l -> filter (fun x => P x) l = [].
Proof.
  induction 1 as [| x l Hx _ IH]; [done |].
  rewrite filter_cons_False; [done |]. rewrite Hx. by intros ?.
Qed.


Lemma slice_to_nil {A} (k : Z) : slice_to k (@nil A) = [].
Proof. unfold slice_to. destruct (0 <=? k)%Z; apply take_nil. Qed.






(** X12: a group whose rows are missing when it is fetched cannot be
    returned.  For a group without rows [rerank_single_doc] answers the score
    0 and a metadata dictionary with the group and [None] for file and page,
    without the media fields; building the entry of such a group raises
    [KeyError('media_type')], so a search that meets one fails as a whole. *)
Theorem group_without_rows_has_no_entry image_id data name output_fields use_old_schema
    (c : client) col :
  colls c !! name = Some col ->
  faulty c (group_fetch name image_id) = false ->
  fields_known col output_fields = true ->
  "image_id" ∈ c_fields col ->
  Forall (fun r => r !! "image_id" <> Some (VStr image_id)) (c_rows col) ->
  exists metadata,
    rerank_single_doc image_id data name output_fields use_old_schema c
      = (Ok (0%Q, metadata), logged (group_fetch name image_id) c) /\
    metadata !! "image_id" = Some (VStr image_id) /\
    metadata !! "file_id" = Some VNone /\ metadata !! "page_number" = Some VNone /\
    forall c', result_entry (0%Q, metadata) c' = (Raise (KeyError "media_type"), c').
Proof.
  intros Hcol Hfault Hknown Hid Hrows.
  exists (dangling_metadata image_id). split; [| done].
  unfold rerank_single_doc. munfold. rewrite client_query_run.
  fold (group_fetch name image_id). rewrite Hfault, Hcol, Hknown.
  assert (Hf : fields_known col (filter_fields (FImageIdIn [image_id])) = true).
  { unfold fields_known. cbn [filter_fields forallb].
    rewrite (bool_decide_eq_true_2 ("image_id" ∈ c_fields col)) by done.
    by rewrite orb_true_r. }
  rewrite Hf. cbn [andb].
  rewrite (filter_none (eval_filter (FImageIdIn [image_id]))).
  2:{ eapply Forall_impl; [exact Hrows |]. intros r Hr. cbn [eval_filter]. unfold str_in.
      destruct (r !! "image_id") as [[| | | s | |] |] eqn:Hv; try done.
      apply bool_decide_eq_false_2. intros Hs. apply list_elem_of_singleton in Hs.
      congruence. }
  reflexivity.
Qed.

Lemma group_without_rows_has_no_entry_witness :
  exists metadata,
    rerank_single_doc "g9" scenario_query "kb" new_output_fields false scenario_store
      = (Ok (0%Q, metadata), logged (group_fetch "kb" "g9") scenario_store) /\
    result_entry (0%Q, metadata) scenario_store = (Raise (KeyError "media_type"), scenario_store).
Proof.
  destruct (group_without_rows_has_no_entry "g9" scenario_query "kb" new_output_fields false
              scenario_store scenario_collection)
    as (metadata & Hrun & _ & _ & _ & Hentry).
  - reflexivity.
  - reflexivity.
  - reflexivity.
  - cbn [c_fields scenario_collection]. unfold schema_fields. by repeat constructor.
  - repeat (constructor; [by vm_compute |]). constructor.
  - exists metadata. split; [exact Hrun | apply Hentry].
Defined.

End SearchSound.


(** ** Re-creating a collection in place (milvus.py) *)

Section Recreate.

Import Maintenance.

(** A store on which nothing but a query can fail. *)
Definition is_query (k : call) : bool :=
  match k with
  | CQuery _ _ _ _ => true
  | _ => false
  end.

Definition only_queries_fail (c : client) : Prop :=
  forall n k, is_query k = false -> faults c n k = false.

Lemma only_queries_fail_logged k c : only_queries_fail c -> only_queries_fail (logged k c).
Proof. intros H n k'. apply H. Qed.

Lemma only_queries_fail_with_colls cs c :
  only_queries_fail c -> only_queries_fail (with_colls cs c).
Proof. intros H n k'. apply H. Qed.


Lemma faulty_other c k : only_queries_fail c -> is_query k = false -> faulty c k = false.
Proof. intros H Hk. by apply H. Qed.

Ltac other_call Hq :=
  match goal with
  | |- context [faulty ?c ?k] =>
      rewrite (faulty_other c k)
        by (first [ reflexivity
                  | repeat first [ exact Hq | apply only_queries_fail_logged
                                 | apply only_queries_fail_with_colls ] ])
  end.

(** What [create_collection] keeps of the rows of an existing collection:
    the first 100000 when it is asked to migrate and its backup query
    answers, nothing otherwise. *)
Definition kept_rows (migrate_existing : bool) (c : client) (name : string) (col : collection)
  : list row :=
  if migrate_existing
     && negb (faulty (logged (CHasCollection name) (logged (CHasCollection name) c))
                (CQuery name FAll (100 * 1000) 0))
  then take (100 * 1000) (c_rows col)
  else [].

(** The second half of [create_collection]: drop, create, index, restore. *)
Definition recreate (name : string) (dim : nat) (existing_data : option (list row))
    (migrate_existing : bool) : M client unit :=
  ex' ← has_collection name;
  when ex' (drop_collection name);;
  client_create_collection name dim schema_fields;;
  _create_index name;;
  when (truthy existing_data && migrate_existing)
    (_restore_collection_data name (default [] existing_data)).

Lemma create_collection_recreate name dim migrate_existing :
  create_collection name dim migrate_existing =
    (ex ← has_collection name;
     existing_data ←
       (if ex && migrate_existing then
          try_except (_backup_collection_data name) (fun _ => ret None)
        else ret None);
     recreate name dim existing_data migrate_existing).
Proof. reflexivity. Qed.

Lemma only_queries_fail_eq c c' : faults c' = faults c -> only_queries_fail c -> only_queries_fail c'.
Proof. intros Hf H n k Hk. rewrite Hf. by apply H. Qed.

Lemma recreate_run name dim existing_data migrate_existing c col :
  only_queries_fail c -> colls c !! name = Some col ->
  Forall (has_vector dim)
    (if truthy existing_data && migrate_existing then default [] existing_data else []) ->
  exists c',
    recreate name dim existing_data migrate_existing c = (Ok tt, c') /\
    colls c' =
      <[name := {| c_dim := dim; c_fields := schema_fields;
                   c_rows := migrated_record <$>
                     (if truthy existing_data && migrate_existing
                      then default [] existing_data else []) |}]> (colls c) /\
    faults c' = faults c.
Proof.
  intros Hq Hcol Hrows. unfold recreate, _create_index. mstep.
  rewrite has_collection_run. other_call Hq. rewrite Hcol.
  rewrite bool_decide_eq_true_2 by eauto. mstep.
  rewrite drop_collection_run. other_call Hq. mstep.
  rewrite client_create_collection_run. other_call Hq.
  cbn [colls with_colls logged]. rewrite lookup_delete_eq. mstep.
  do 4 (rewrite index_call_run; other_call Hq; cbn [colls with_colls logged];
        rewrite lookup_insert_eq; mstep).
  rewrite insert_delete_eq.
  destruct (truthy existing_data && migrate_existing) eqn:Htruthy.
  2:{ eexists. split; [reflexivity |]. done. }
  destruct existing_data as [[| r0 rows] |]; try done. cbn [default id] in *.
  unfold _restore_collection_data. cbv zeta.
  rewrite fmap_cons. rewrite <- (fmap_cons migrated_record r0 rows).
  rewrite client_insert_run. other_call Hq. cbn [colls with_colls logged].
  rewrite lookup_insert_eq. cbn [c_dim c_fields c_rows].
  rewrite forallb_Forall_true.
  2:{ rewrite Forall_fmap. eapply Forall_impl; [exact Hrows |].
      intros r Hr. by apply migrated_record_ok. }
  eexists. split; [reflexivity |]. split; [| done].
  cbn [colls with_colls logged]. by rewrite insert_insert_eq.
Qed.

Lemma create_collection_run name dim migrate_existing c col :
  only_queries_fail c -> colls c !! name = Some col ->
  Forall (has_vector dim) (kept_rows migrate_existing c name col) ->
  exists c',
    create_collection name dim migrate_existing c = (Ok tt, c') /\
    colls c' = <[name := {| c_dim := dim; c_fields := schema_fields;
                            c_rows := migrated_record <$> kept_rows migrate_existing c name col |}]>
                 (colls c) /\
    faults c' = faults c.
Proof.
  intros Hq Hcol Hrows. rewrite create_collection_recreate. mstep.
  rewrite has_collection_run. other_call Hq. rewrite Hcol.
  rewrite bool_decide_eq_true_2 by eauto. cbn [andb]. mstep.
  unfold kept_rows in *.
  assert (Htail : forall data c0,
    colls c0 = colls c -> faults c0 = faults c ->
    (if truthy data && migrate_existing then default [] data else [])
      = (if migrate_existing
            && negb (faulty (logged (CHasCollection name) (logged (CHasCollection name) c))
                       (CQuery name FAll (100 * 1000) 0))
         then take (100 * 1000) (c_rows col) else []) ->
    exists c',
      recreate name dim data migrate_existing c0 = (Ok tt, c') /\
      colls c' =
        <[name := {| c_dim := dim; c_fields := schema_fields;
                     c_rows := migrated_record <$>
                       (if migrate_existing
                           && negb (faulty (logged (CHasCollection name)
                                              (logged (CHasCollection name) c))
                                      (CQuery name FAll (100 * 1000) 0))
                        then take (100 * 1000) (c_rows col) else []) |}]> (colls c) /\
      faults c' = faults c).
  { intros data c0 Hc0 Hf0 Hkept.
    destruct (recreate_run name dim data migrate_existing c0 col)
      as (c' & Hrun & Hc' & Hf'); [| by rewrite Hc0 | by rewrite Hkept |].
    { apply (only_queries_fail_eq c); [done |]. exact Hq. }
    exists c'. split; [done |]. split; [| by rewrite Hf'].
    by rewrite Hc', Hkept, Hc0. }
  destruct migrate_existing; mstep.
  - unfold _backup_collection_data. mstep.
    rewrite has_collection_run. other_call Hq. cbn [colls logged]. rewrite Hcol.
    rewrite bool_decide_eq_true_2 by eauto. cbn [negb andb]. mstep.
    rewrite client_query_run. cbn [colls logged]. rewrite Hcol.
    destruct (faulty _ (CQuery name FAll (100 * 1000) 0)) eqn:Hfault; cbn [negb andb] in *; mstep.
    + by apply Htail.
    + cbn [fields_known filter_fields forallb andb].
      rewrite bool_decide_eq_true_2 by done. cbn [orb andb].
      rewrite filter_all_rows, project_star, drop_0. mstep.
      apply Htail; [done | done |]. rewrite andb_true_r. by destruct (take _ _).
  - by apply Htail.
Qed.



(** X14: [create_collection] with [migrate_existing] does not notice a
    backup that fails.  When the backup query of an existing collection
    raises and every other call goes through, the collection is still
    dropped and created again and the call returns normally: afterwards the
    collection is new and empty, and all its rows are gone. *)
Theorem recreate_with_failed_backup_is_empty name dim c col :
  only_queries_fail c ->
  colls c !! name = Some col ->
  faulty (logged (CHasCollection name) (logged (CHasCollection name) c))
    (CQuery name FAll (100 * 1000) 0) = true ->
  exists c',
    create_collection name dim true c = (Ok tt, c') /\
    colls c' = <[name := new_empty dim]> (colls c).
Proof.
  intros Hq Hcol Hfault.
  destruct (create_collection_run name dim true c col Hq Hcol) as (c' & Hrun & Hc & _).
  { unfold kept_rows. rewrite Hfault. constructor. }
  exists c'. split; [exact Hrun |]. rewrite Hc. unfold kept_rows. by rewrite Hfault.
Qed.

Lemma recreate_with_failed_backup_is_empty_witness :
  exists c',
    create_collection "kb" 2 true (legacy_store query_faults) = (Ok tt, c') /\
    row_count_of (legacy_store query_faults) "kb" = 1 /\
    row_count_of c' "kb" = 0.
Proof.
  destruct (recreate_with_failed_backup_is_empty "kb" 2 (legacy_store query_faults)
              legacy_collection) as (c' & Hrun & Hc).
  - intros n k Hk. by destruct k.
  - reflexivity.
  - reflexivity.
  - exists c'. split; [exact Hrun |]. split; [reflexivity |].
    unfold row_count_of. by rewrite Hc, lookup_insert_eq.
Defined.

End Recreate.

(** ** The other operations of the manager *)

Section ManagerFrame.

Import Search Maintenance Rag.

Lemma framed_pure {A} name (m : M client A) : pure m -> framed name m.
Proof. intros Hm c. destruct (Hm c) as [-> _]. apply frame_refl. Qed.

Lemma framed_insert data name : framed name (insert data name).
Proof.
  unfold insert. apply framed_bind; [apply framed_pure, pure_dict_item | intros vecs].
  destruct vecs; try apply framed_raise.
  apply framed_bind; [| intros records; apply framed_client_insert].
  apply framed_pure, pure_mapM. intros vec. pure_tac.
Qed.

Lemma framed_insert_to_milvus_from name embeddings image_ids file_id : forall i,
  framed name (insert_to_milvus_from i name embeddings image_ids file_id).
Proof.
  induction embeddings as [| emb rest IH]; intros i; [apply framed_ret |].
  cbn [insert_to_milvus_from].
  apply framed_bind; [apply framed_pure, pure_of_option | intros image_id].
  apply framed_bind; [apply framed_insert | intros _; apply IH].
Qed.

Lemma framed_insert_records_from name zipped file_id media_type : forall i,
  framed name (insert_records_from i name zipped file_id media_type).
Proof.
  induction zipped as [| [[emb segment_id] segment] rest IH]; intros i; [apply framed_ret |].
  cbn [insert_records_from].
  apply framed_bind; [apply framed_insert | intros _; apply IH].
Qed.

Lemma framed_migrate_collection_schema name dim :
  framed name (migrate_collection_schema name dim).
Proof. unfold migrate_collection_schema. framed_tac. Qed.

Lemma framed_delete_collection name : framed name (delete_collection name).
Proof. unfold delete_collection. framed_tac. Qed.

(** X15: every operation of the manager on one collection leaves the other
    collections of the store alone, whatever the store does and however the
    operation ends: creating or re-creating the collection, migrating its
    schema, deleting it, deleting files from it, and inserting into it (one
    record set, the pages of a document, or the segments of a media file). *)
Theorem manager_leaves_other_collections name other (c : client) :
  other <> name ->
  (forall dim migrate_existing,
     colls (create_collection name dim migrate_existing c).2 !! other = colls c !! other) /\
  (forall dim, colls (migrate_collection_schema name dim c).2 !! other = colls c !! other) /\
  colls (delete_collection name c).2 !! other = colls c !! other /\
  (forall file_ids, colls (delete_files name file_ids c).2 !! other = colls c !! other) /\
  (forall data, colls (insert data name c).2 !! other = colls c !! other) /\
  (forall embeddings image_ids file_id,
     colls (insert_to_milvus name embeddings image_ids file_id c).2 !! other
       = colls c !! other) /\
  (forall embeddings segment_ids file_id segments media_type,
     colls (insert_media_to_milvus name embeddings segment_ids file_id segments media_type c).2
       !! other = colls c !! other).
Proof.
  intros Hne. repeat split; intros.
  - by apply (framed_create_collection name dim migrate_existing c).
  - by apply (framed_migrate_collection_schema name dim c).
  - by apply (framed_delete_collection name c).
  - rewrite delete_files_run. by apply (framed_client_delete name (FFileIdIn file_ids) c).
  - by apply (framed_insert data name c).
  - by apply (framed_insert_to_milvus_from name embeddings image_ids file_id 0 c).
  - by apply (framed_insert_records_from name _ file_id media_type 0 c).
Qed.

Lemma manager_leaves_other_collections_witness :
  colls (delete_collection "kb" shared_store).2 !! "docs" = colls shared_store !! "docs" /\
  colls (insert two_vector_page "kb" shared_store).2 !! "docs" = colls shared_store !! "docs".
Proof.
  destruct (manager_leaves_other_collections "kb" "docs" shared_store)
    as (_ & _ & Hdel & _ & Hins & _); [discriminate |].
  split; [exact Hdel | apply Hins].
Defined.

End ManagerFrame.


(** ** Sorting and filtering scored entries (rag/utils.py) *)

Section SortAndFilter.

Import Search Rag.

(** The score of an item, as a number. *)
Definition score_value (item : row) : Q :=
  match item !! "score" with
  | Some (VFloat x) => x
  | Some (VInt n) => inject_Z n
  | _ => 0%Q
  end.

Definition has_score (item : row) : Prop :=
  (exists x, item !! "score" = Some (VFloat x)) \/ (exists n, item !! "score" = Some (VInt n)).

(** [min_score <= score <= max_score], for the bounds that are given. *)
Definition within (lo hi : option Q) (item : row) : bool :=
  match lo with Some a => Qle_bool a (score_value item) | None => true end
  && match hi with Some b => Qle_bool (score_value item) b | None => true end.

Lemma item_score_run {S} (item : row) (s : S) :
  has_score item -> item_score item s = (Ok (score_value item), s).
Proof.
  unfold item_score, dict_item, score_value. munfold.
  by intros [[x ->] | [n ->]].
Qed.

Lemma item_score_inv {S} (item : row) (s s' : S) x :
  item_score item s = (Ok x, s') -> has_score item /\ x = score_value item /\ s' = s.
Proof.
  unfold item_score, dict_item, score_value, has_score. munfold.
  destruct (item !! "score") as [[| n | y | | |] |]; try done; intros [= <- <-]; eauto.
Qed.

Lemma filter_by_score_inv {S} keep (data : list row) (s s' : S) l :
  filter_by_score keep data s = (Ok l, s') ->
  Forall has_score data /\ s' = s /\
  l = filter (fun item => keep (score_value item) = true) data.
Proof.
  revert l s'. induction data as [| item data IH]; intros l s'.
  - intros [= <- <-]. by repeat split.
  - cbn [filter_by_score]. munfold.
    destruct (item_score item s) as [[x | e |] s1] eqn:Hitem; [| done | done].
    apply item_score_inv in Hitem as (Hs & -> & ->).
    destruct (filter_by_score keep data s) as [[rest | e |] s1] eqn:Hrest; [| done | done].
    destruct (IH _ _ eq_refl) as (Hall & -> & ->).
    intros [= <- <-]. split; [by constructor |]. split; [done |].
    rewrite filter_cons. by destruct (keep (score_value item)); destruct (decide _).
Qed.

Lemma filter_by_score_run {S} keep (data : list row) (s : S) :
  Forall has_score data ->
  filter_by_score keep data s
    = (Ok (filter (fun item => keep (score_value item) = true) data), s).
Proof.
  induction 1 as [| item data Hitem _ IH]; [done |].
  cbn [filter_by_score]. munfold. rewrite (item_score_run item s Hitem), IH.
  rewrite filter_cons. by destruct (keep (score_value item)); destruct (decide _).
Qed.

(** The key [sorted] computes for an item, and the number it stands for. *)
Definition item_key (item : row) : value := default VNone (item !! "score").

Definition number_of (v : value) : Q := default 0%Q (as_number v).

Lemma number_of_item_key (item : row) : number_of (item_key item) = score_value item.
Proof.
  unfold number_of, item_key, score_value.
  by destruct (item !! "score") as [[| n | x | | |] |].
Qed.

Lemma has_score_number (item : row) : has_score item -> is_Some (as_number (item_key item)).
Proof. unfold item_key. by intros [[x ->] | [n ->]]; eexists. Qed.

Lemma keyed_run {S} (data : list row) (s : S) :
  Forall (fun item => is_Some (item !! "score")) data ->
  mapM (fun item => score ← dict_item item "score"; ret (score, item)) data s
    = (Ok ((fun item => (item_key item, item)) <$> data), s).
Proof.
  induction 1 as [| item data [v Hv] _ IH]; [done |].
  cbn [mapM]. munfold. unfold dict_item at 1. rewrite Hv. munfold. cbv beta iota.
  assert (Hk : item_key item = v) by (unfold item_key; by rewrite Hv).
  by rewrite IH, fmap_cons, Hk.
Qed.

Lemma value_lt_numbers (a b : value) x y :
  as_number a = Some x -> as_number b = Some y ->
  value_lt a b = Some (negb (Qle_bool y x)).
Proof. unfold value_lt. by intros -> ->. Qed.

(** On numbers the sort is the descending sort by the number. *)
Lemma insert_by_key_numbers {S} (x : value * row) (l : list (value * row)) (s : S) :
  is_Some (as_number x.1) ->
  Forall (fun y => is_Some (as_number y.1)) l ->
  insert_by_key x l s = (Ok (insert_desc (fun p => number_of p.1) x l), s).
Proof.
  intros [nx Hx].
  assert (Hnx : number_of x.1 = nx) by (unfold number_of; by rewrite Hx).
  induction 1 as [| y l [ny Hy] _ IH]; [done |].
  assert (Hny : number_of y.1 = ny) by (unfold number_of; by rewrite Hy).
  cbn [insert_by_key insert_desc]. munfold.
  rewrite (value_lt_numbers _ _ _ _ Hx Hy). unfold Search.of_option. munfold. cbv beta iota.
  rewrite Hnx, Hny.
  destruct (Qle_bool ny nx); cbn [negb]; [done |]. by rewrite IH.
Qed.

Lemma sorted_by_key_numbers {S} (l : list (value * row)) (s : S) :
  Forall (fun y => is_Some (as_number y.1)) l ->
  sorted_by_key l s = (Ok (sort_desc (fun p => number_of p.1) l), s).
Proof.
  induction 1 as [| x l Hx Hl IH]; [done |].
  cbn [sorted_by_key]. munfold. rewrite IH.
  change (sort_desc (fun p : value * row => number_of p.1) (x :: l))
    with (insert_desc (fun p : value * row => number_of p.1) x
            (sort_desc (fun p : value * row => number_of p.1) l)).
  apply insert_by_key_numbers; [done |].
  apply Forall_forall. intros y Hy. rewrite sort_desc_perm in Hy.
  by apply (proj1 (Forall_forall _ _) Hl).
Qed.

Lemma insert_desc_fmap {A B} (f : A -> B) (key : B -> Q) (x : A) (l : list A) :
  insert_desc key (f x) (f <$> l) = f <$> insert_desc (fun a => key (f a)) x l.
Proof.
  induction l as [| y l IH]; [done |]. cbn [fmap list_fmap insert_desc].
  destruct (Qle_bool (key (f y)) (key (f x))); [done |].
  rewrite fmap_cons. f_equal. exact IH.
Qed.

Lemma sort_desc_fmap {A B} (f : A -> B) (key : B -> Q) (l : list A) :
  sort_desc key (f <$> l) = f <$> sort_desc (fun a => key (f a)) l.
Proof.
  induction l as [| x l IH]; [done |].
  rewrite fmap_cons. cbn [sort_desc foldr]. fold (sort_desc key (f <$> l)).
  fold (sort_desc (fun a => key (f a)) l). by rewrite IH, insert_desc_fmap.
Qed.

Lemma sort_desc_ext {A} (key key' : A -> Q) (l : list A) :
  (forall a, key a = key' a) -> sort_desc key l = sort_desc key' l.
Proof.
  intros Hk. induction l as [| x l IH]; [done |]. cbn [sort_desc foldr].
  fold (sort_desc key l). fold (sort_desc key' l). rewrite IH.
  generalize (sort_desc key' l). intros l'.
  induction l' as [| y l' IH']; [done |]. cbn [insert_desc]. by rewrite !Hk, IH'.
Qed.

Lemma sort_desc_keyed (data : list row) :
  snd <$> sort_desc (fun p => number_of p.1) ((fun item => (item_key item, item)) <$> data)
  = sort_desc score_value data.
Proof.
  rewrite sort_desc_fmap, <- list_fmap_compose.
  rewrite (sort_desc_ext _ score_value) by (intros item; apply number_of_item_key).
  apply list_fmap_id.
Qed.

Lemma filter_within (lo hi : option Q) (data : list row) :
  match hi with
  | Some b => filter (fun item => Qle_bool (score_value item) b = true)
  | None => fun l => l
  end (match lo with
       | Some a => filter (fun item => Qle_bool a (score_value item) = true)
       | None => fun l => l
       end data)
  = filter (fun item => within lo hi item = true) data.
Proof.
  unfold within. destruct lo as [a |], hi as [b |].
  - rewrite list_filter_filter. apply list_filter_iff. intros item.
    rewrite andb_true_iff. tauto.
  - apply list_filter_iff. intros item. by rewrite andb_true_r.
  - apply list_filter_iff. intros item. done.
  - induction data as [| item data IH]; [done |].
    rewrite filter_cons_True by done. by rewrite <- IH.
Qed.

Lemma has_score_is_Some (item : row) : has_score item -> is_Some (item !! "score").
Proof. by intros [[x ->] | [n ->]]. Qed.

Lemma sort_and_filter_run {S} (data : list row) lo hi (s : S) :
  Forall has_score data ->
  sort_and_filter data lo hi s
    = (Ok (sort_desc score_value (filter (fun item => within lo hi item = true) data)), s).
Proof.
  intros Hall. unfold sort_and_filter. munfold.
  assert (H1 : exists d1,
    match lo with
    | Some a => filter_by_score (fun x => Qle_bool a x) data
    | None => fun s0 : S => (Ok data, s0)
    end s = (Ok d1, s) /\ Forall has_score d1 /\
    d1 = match lo with
         | Some a => filter (fun item => Qle_bool a (score_value item) = true)
         | None => fun l => l
         end data).
  { destruct lo as [a |].
    - eexists. split; [by apply filter_by_score_run |]. split; [| done].
      apply Forall_forall. intros item Hitem. apply list_elem_of_filter in Hitem as [_ Hitem].
      revert item Hitem. by apply Forall_forall.
    - by eexists. }
  destruct H1 as (d1 & -> & Hd1 & Heq1).
  assert (H2 : exists d2,
    match hi with
    | Some b => filter_by_score (fun x => Qle_bool x b) d1
    | None => fun s0 : S => (Ok d1, s0)
    end s = (Ok d2, s) /\ Forall has_score d2 /\
    d2 = match hi with
         | Some b => filter (fun item => Qle_bool (score_value item) b = true)
         | None => fun l => l
         end d1).
  { destruct hi as [b |].
    - eexists. split; [by apply filter_by_score_run |]. split; [| done].
      apply Forall_forall. intros item Hitem. apply list_elem_of_filter in Hitem as [_ Hitem].
      revert item Hitem. by apply Forall_forall.
    - by eexists. }
  destruct H2 as (d2 & -> & Hd2 & Heq2).
  assert (Hk : mapM (fun item => score ← dict_item item "score"; ret (score, item)) d2 s
               = (Ok ((fun item => (item_key item, item)) <$> d2), s)).
  { apply keyed_run. eapply Forall_impl; [exact Hd2 |]. apply has_score_is_Some. }
  munfold. rewrite Hk. cbv beta iota.
  rewrite sorted_by_key_numbers.
  2:{ apply Forall_fmap. eapply Forall_impl; [exact Hd2 |]. apply has_score_number. }
  rewrite sort_desc_keyed. subst d2 d1. by rewrite filter_within.
Qed.

(** With a bound, every score is compared with it: the scores of a run
    that returns are numbers. *)
Lemma sort_and_filter_inv {S} (data : list row) lo hi (s s' : S) l :
  is_Some lo \/ is_Some hi ->
  sort_and_filter data lo hi s = (Ok l, s') -> Forall has_score data.
Proof.
  intros Hbound. unfold sort_and_filter. munfold. destruct lo as [a |].
  - destruct (filter_by_score _ data s) as [[d1 | e |] s1] eqn:H1; [| done | done].
    intros _. by apply filter_by_score_inv in H1 as (H & _).
  - destruct hi as [b |]; [| by destruct Hbound as [[? ?] | [? ?]]].
    destruct (filter_by_score _ data s) as [[d2 | e |] s2] eqn:H2; [| done | done].
    intros _. by apply filter_by_score_inv in H2 as (H & _).
Qed.

(** What a list returned for a bound is. *)
Lemma sort_and_filter_ok {S} (data : list row) lo hi (s s' : S) l :
  is_Some lo \/ is_Some hi ->
  sort_and_filter data lo hi s = (Ok l, s') ->
  StronglySorted (key_ge score_value) l /\
  l ≡ₚ filter (fun item => within lo hi item = true) data /\
  Forall (fun item => within lo hi item = true) l.
Proof.
  intros Hbound Hrun. pose proof (sort_and_filter_inv _ _ _ _ _ _ Hbound Hrun) as Hall.
  rewrite (sort_and_filter_run data lo hi s Hall) in Hrun. injection Hrun as <- _.
  split; [apply sort_desc_sorted |]. split; [apply sort_desc_perm |].
  apply Forall_forall. intros item Hitem. rewrite sort_desc_perm in Hitem.
  by apply list_elem_of_filter in Hitem as [Hitem _].
Qed.

(** X16: what [sort_and_filter] returns for items whose scores are numbers:
    the items whose score is within the given bounds (either bound may be
    left out), each as often as in the input, ordered by descending score.
    With a bound given it returns for no other items, since every score is
    compared with the bound.  Without bounds nothing is compared until two
    keys meet in the sort: a single item is returned as it is, whatever its
    score is. *)
Theorem sort_and_filter_sorts_within_bounds {S} (data : list row) lo hi (s : S) :
  (Forall has_score data ->
   exists l,
     sort_and_filter data lo hi s = (Ok l, s) /\
     StronglySorted (key_ge score_value) l /\
     l ≡ₚ filter (fun item => within lo hi item = true) data /\
     Forall (fun item => within lo hi item = true) l) /\
  (is_Some lo \/ is_Some hi ->
   forall l s', sort_and_filter data lo hi s = (Ok l, s') -> Forall has_score data) /\
  (forall item, is_Some (item !! "score") ->
     sort_and_filter [item] None None s = (Ok [item], s)).
Proof.
  split; [| split].
  - intros Hall. eexists. split; [by apply sort_and_filter_run |].
    split; [apply sort_desc_sorted |]. split; [apply sort_desc_perm |].
    apply Forall_forall. intros item Hitem. rewrite sort_desc_perm in Hitem.
    by apply list_elem_of_filter in Hitem as [Hitem _].
  - intros Hbound l s' Hrun. by apply (sort_and_filter_inv data lo hi s s' l).
  - intros item [v Hv]. unfold sort_and_filter. munfold. cbn [mapM]. unfold dict_item.
    munfold. rewrite Hv. reflexivity.
Qed.

(** Three scored items. *)
Definition scored (x : Q) : row := {[ "score" := VFloat x ]}.

(** Without bounds the keys only meet in the sort: strings are ordered as
    strings, two scores [None] cannot be compared, and with a bound a score
    that is a string cannot be compared with it. *)
Example sort_and_filter_compares_keys :
  (fun item => item !! "score")
    <$> match (sort_and_filter [({[ "score" := VStr "b" ]} : row); {[ "score" := VStr "a" ]};
                                {[ "score" := VStr "c" ]}] None None tt).1 with
        | Ok l => l
        | _ => []
        end
  = [Some (VStr "c"); Some (VStr "b"); Some (VStr "a")] /\
  (sort_and_filter [({[ "score" := VNone ]} : row); {[ "score" := VNone ]}] None None tt).1
  = Raise TypeError /\
  (sort_and_filter [({[ "score" := VStr "a" ]} : row)] (Some 0%Q) None tt).1 = Raise TypeError.
Proof. vm_compute. repeat split; reflexivity. Qed.

Lemma sort_and_filter_sorts_within_bounds_witness :
  (exists l,
    sort_and_filter [scored 1; scored 3; scored 2] (Some 2%Q) None tt = (Ok l, tt) /\
    StronglySorted (key_ge score_value) l /\
    Forall (fun item => within (Some 2%Q) None item = true) l) /\
  sort_and_filter [({[ "score" := VNone ]} : row)] None None tt
    = (Ok [({[ "score" := VNone ]} : row)], tt).
Proof.
  destruct (sort_and_filter_sorts_within_bounds [scored 1; scored 3; scored 2]
              (Some 2%Q) None tt) as (Hret & _ & Hone).
  destruct Hret as (l & Hrun & H1 & _ & H3).
  { repeat (constructor; [left; by eexists |]). constructor. }
  split; [exists l; by split |].
  apply Hone. by eexists.
Defined.

End SortAndFilter.

(** ** The retrieval of a chat (rag/llm_service.py) *)

Section Retrieve.

Import Search Maintenance Rag.

Lemma clamp_top_K_range (top_K : Z) : (1 <= clamp_top_K top_K <= 30)%Z.
Proof.
  unfold clamp_top_K.
  destruct (top_K =? -1)%Z; [lia |].
  destruct (top_K <? 1)%Z eqn:H1; [lia |].
  destruct (30 <? top_K)%Z eqn:H2; [lia |].
  apply Z.ltb_ge in H1, H2. lia.
Qed.

Lemma clamp_score_threshold_range (t : Q) :
  (0 <= clamp_score_threshold t)%Q /\ (clamp_score_threshold t <= 20)%Q.
Proof.
  unfold clamp_score_threshold.
  destruct (Qeq_bool t (-1)); [done |].
  destruct (Qle_bool 0 t) eqn:H1; cbn [negb]; [| done].
  destruct (Qle_bool t 20) eqn:H2; cbn [negb]; [| done].
  by split; apply Qle_bool_iff.
Qed.

(** An entry tagged with the collection of one of the bases. *)
Definition tagged (base_ids : list string) (e : row) : Prop :=
  exists base_id, base_id ∈ base_ids /\
    e !! "collection_name" = Some (VStr (collection_name_of base_id)).

Lemma search_bases_tagged sched base_ids data top_K : forall c c' rs,
  search_bases sched base_ids data top_K c = (Ok rs, c') -> Forall (tagged base_ids) rs.
Proof.
  induction base_ids as [| base_id rest IH]; intros c c' rs.
  - intros [= <- _]. constructor.
  - cbn [search_bases]. munfold.
    destruct (check_collection _ c) as [[ex | e |] c1]; [| done | done].
    assert (Hstep : forall c2 scores,
      (let (r, s') := search_bases sched rest data top_K c2 in
       match r with
       | Ok a => (Ok (scores ++ a), s')
       | Raise e => (Raise e, s')
       | Diverge => (Diverge, s')
       end) = (Ok rs, c') ->
      Forall (tagged [base_id]) scores -> Forall (tagged (base_id :: rest)) rs).
    { intros c2 scores Hrun Hscores.
      destruct (search_bases sched rest data top_K c2) as [[more | e |] c3] eqn:Hmore;
        [| done | done].
      injection Hrun as <- _. apply Forall_app. split.
      - eapply Forall_impl; [exact Hscores |]. intros e (b & Hb & He).
        apply list_elem_of_singleton in Hb as ->. exists base_id. split; [left | done].
      - eapply Forall_impl; [exact (IH _ _ _ Hmore) |]. intros e (b & Hb & He).
        exists b. split; [by right | done]. }
    destruct ex.
    + destruct (search sched _ data top_K None None c1) as [[scores | e |] c2]; [| done | done].
      intros Hrun. apply (Hstep _ _ Hrun).
      apply Forall_forall. intros e He. apply list_elem_of_fmap in He as (e0 & -> & _).
      exists base_id. split; [left |]. by rewrite lookup_insert_eq.
    + intros Hrun. apply (Hstep _ _ Hrun). constructor.
Qed.

(** X17: what [create_chat_stream] retrieves.  Whatever [top_K] and
    [score_threshold] are configured, the number of entries kept is at most
    the clamped [top_K], which is between 1 and 30; the entries are ordered
    by descending score; every entry has a score of at least the clamped
    threshold, which is between 0 and 20; and every entry is tagged with the
    collection of one of the knowledge bases searched. *)
Theorem retrieve_keeps_the_best sched base_ids data (top_K : Z) threshold (c c' : client) l :
  retrieve sched base_ids data top_K threshold c = (Ok l, c') ->
  (1 <= clamp_top_K top_K <= 30)%Z /\
  (0 <= clamp_score_threshold threshold)%Q /\ (clamp_score_threshold threshold <= 20)%Q /\
  length l ≤ Z.to_nat (clamp_top_K top_K) /\
  StronglySorted (key_ge score_value) l /\
  Forall (fun e => (clamp_score_threshold threshold <= score_value e)%Q /\ tagged base_ids e) l.
Proof.
  pose proof (clamp_top_K_range top_K) as HK.
  destruct (clamp_score_threshold_range threshold) as [Ht0 Ht20].
  unfold retrieve. cbv zeta. munfold.
  destruct (search_bases sched base_ids data (clamp_top_K top_K) c) as [[rs | e |] c1] eqn:Hrs;
    [| done | done].
  apply search_bases_tagged in Hrs.
  destruct (sort_and_filter rs (Some (clamp_score_threshold threshold)) None c1)
    as [[sorted | e |] c2] eqn:Hsort; [| done | done].
  destruct (sort_and_filter_ok _ _ _ _ _ _ (or_introl (mk_is_Some _ _ eq_refl)) Hsort)
    as (Hsorted & Hperm & Hwithin).
  intros [= <- _]. split; [done |]. split; [done |]. split; [done |].
  assert (Hall : Forall (fun e => (clamp_score_threshold threshold <= score_value e)%Q
                                  /\ tagged base_ids e) sorted).
  { apply Forall_forall. intros e He. split.
    - apply (proj1 (Forall_forall _ _) Hwithin) in He. unfold within in He.
      rewrite andb_true_r in He. by apply Qle_bool_iff.
    - rewrite Hperm in He. apply list_elem_of_filter in He as [_ He].
      by apply (proj1 (Forall_forall _ _) Hrs). }
  destruct (clamp_top_K top_K <=? Z.of_nat (length sorted))%Z eqn:Hle.
  - rewrite slice_to_nonneg by lia. split; [rewrite length_take; lia |].
    split; [by apply StronglySorted_take | by apply Forall_take].
  - apply Z.leb_gt in Hle. split; [lia | done].
Qed.

(** A store whose collection "colqwenkb" is the one of the knowledge base
    "kb". *)
Definition chat_store : client :=
  {| colls := {[ "colqwenkb" := scenario_collection ]}; log := []; faults := no_faults;
     answers := no_answers |}.

Definition is_ok {A} (r : result A) : bool :=
  match r with
  | Ok _ => true
  | _ => false
  end.

Lemma retrieve_keeps_the_best_witness :
  exists l c',
    retrieve id ["kb"] scenario_query 50 (3 # 2) chat_store = (Ok l, c') /\
    length l ≤ 30 /\
    Forall (fun e => (3 # 2 <= score_value e)%Q) l.
Proof.
  assert (Hok : is_ok (retrieve id ["kb"] scenario_query 50 (3 # 2) chat_store).1 = true)
    by (vm_compute; reflexivity).
  destruct (retrieve id ["kb"] scenario_query 50 (3 # 2) chat_store) as [[l | e |] c'] eqn:Hrun;
    [| discriminate Hok | discriminate Hok].
  exists l, c'. split; [reflexivity |].
  destruct (retrieve_keeps_the_best id ["kb"] scenario_query 50 (3 # 2) chat_store c' l Hrun)
    as (_ & _ & _ & Hlen & _ & Hall).
  split.
  - etransitivity; [exact Hlen |]. by vm_compute.
  - eapply Forall_impl; [exact Hall |]. intros e [He _]. exact He.
Defined.

End Retrieve.

(** ** Inserting pages and media segments (milvus.py, rag/utils.py) *)

Section Ingest.

Import Search Maintenance Rag.

(** X18: [insert] reads the keys of its dictionary before it calls the
    store.  Without "colqwen_vecs" it raises [KeyError] at once; with at
    least one vector and one of "image_id", "page_number", "file_id" missing
    it raises [KeyError] for a missing key; in both cases the store is not
    called and nothing is written.  With an empty list of vectors the other
    keys are never read: the call is an insert of no records. *)
Theorem insert_reads_keys_before_writing (data : row) name (c : client) :
  (data !! "colqwen_vecs" = None ->
   insert data name c = (Raise (KeyError "colqwen_vecs"), c)) /\
  (forall v vs k,
     data !! "colqwen_vecs" = Some (VVecs (v :: vs)) ->
     k ∈ ["image_id"; "page_number"; "file_id"] -> data !! k = None ->
     exists k', insert data name c = (Raise (KeyError k'), c) /\ data !! k' = None) /\
  (data !! "colqwen_vecs" = Some (VVecs []) ->
   insert data name c = client_insert name [] c).
Proof.
  split; [| split].
  - intros Hnone. unfold insert, dict_item. rewrite Hnone. reflexivity.
  - intros v vs k Hvecs Hk Hnone. unfold insert, dict_item. rewrite Hvecs. mstep.
    cbn [mapM]. mstep.
    destruct (data !! "image_id") as [image_id |] eqn:Hi; mstep;
      [| by exists "image_id"].
    destruct (data !! "page_number") as [page |] eqn:Hp; mstep;
      [| by exists "page_number"].
    destruct (data !! "file_id") as [file_id |] eqn:Hf; mstep;
      [| by exists "file_id"].
    exfalso. repeat (apply elem_of_cons in Hk as [-> | Hk]; [congruence |]).
    by apply elem_of_nil in Hk.
  - intros Hvecs. unfold insert, dict_item. rewrite Hvecs. reflexivity.
Qed.

Lemma record_of_ok (col : collection) (data : row) image_id page file_id (v : list Q) :
  c_fields col = schema_fields -> length v = c_dim col ->
  row_ok col (record_of data image_id page file_id v) = true.
Proof.
  intros Hfields Hlen. unfold row_ok. rewrite Hfields. apply andb_true_iff. split.
  - unfold schema_fields. cbn [forallb].
    repeat (apply andb_true_iff; split); try done;
      apply orb_true_iff; right; apply bool_decide_eq_true_2; by eexists.
  - change (record_of data image_id page file_id v !! "vector") with (Some (VVec v)).
    by apply bool_decide_eq_true_2.
Qed.

(** One page, on a store that answers and accepts its records. *)
Lemma insert_page_run name (c : client) col i id file_id (emb : list (list Q)) :
  no_faults_in c -> colls c !! name = Some col ->
  c_fields col = schema_fields -> Forall (fun v => length v = c_dim col) emb ->
  insert (<["colqwen_vecs" := VVecs emb]>
          (<["page_number" := VInt (Z.of_nat i)]>
          (<["image_id" := VStr id]>
          (<["file_id" := VStr file_id]> (∅ : row))))) name c
  = (Ok tt,
     with_colls (<[name := add_rows col (page_records i id file_id emb)]> (colls c))
       (logged (CInsert name (length emb)) c)).
Proof.
  intros Hno Hcol Hfields Hdim.
  rewrite (insert_run _ name emb (VStr id) (VInt (Z.of_nat i)) (VStr file_id)) by done.
  rewrite client_insert_run, length_fmap. no_fault Hno. rewrite Hcol.
  rewrite forallb_Forall_true; [done |].
  rewrite Forall_fmap. eapply Forall_impl; [exact Hdim |].
  intros v Hv. by apply record_of_ok.
Qed.

(** The pages written for the ids [ids], which are those of the positions
    [i], [i + 1], ... *)
Definition pages_written (i : nat) (ids : list string) (file_id : string)
    (embeddings : list (list (list Q))) : list row :=
  concat (zip_with (fun j_id emb => page_records j_id.1 j_id.2 file_id emb)
            (zip (seq i (length ids)) ids) embeddings).

Lemma insert_to_milvus_short name image_ids file_id embeddings : forall i (c : client) col,
  no_faults_in c -> colls c !! name = Some col ->
  c_fields col = schema_fields ->
  Forall (Forall (fun v => length v = c_dim col)) embeddings ->
  length (drop i image_ids) < length embeddings ->
  exists c',
    insert_to_milvus_from i name embeddings image_ids file_id c = (Raise IndexError, c') /\
    colls c' = <[name := add_rows col (pages_written i (drop i image_ids) file_id embeddings)]>
                 (colls c) /\
    log c' = log c ++ ((fun emb => CInsert name (length emb))
                         <$> take (length (drop i image_ids)) embeddings).
Proof.
  induction embeddings as [| emb rest IH]; intros i c col Hno Hcol Hfields Hdim Hlen.
  { simpl in Hlen. lia. }
  apply Forall_cons in Hdim as [Hemb Hrest].
  cbn [insert_to_milvus_from]. unfold of_option. mstep.
  destruct (drop i image_ids) as [| id ids] eqn:Hdrop.
  - assert (Hnone : image_ids !! i = None).
    { apply lookup_ge_None. apply (f_equal length) in Hdrop.
      rewrite length_drop in Hdrop. simpl in Hdrop. lia. }
    rewrite Hnone. mstep. exists c. split; [done |]. split.
    + unfold pages_written. simpl. by rewrite add_rows_nil, insert_id.
    + simpl. by rewrite app_nil_r.
  - assert (Hid : image_ids !! i = Some id).
    { rewrite <- (Nat.add_0_r i), <- lookup_drop, Hdrop. done. }
    assert (Hnext : drop (S i) image_ids = ids).
    { replace (S i) with (i + 1) by lia. by rewrite <- drop_drop, Hdrop. }
    rewrite Hid. mstep.
    rewrite (insert_page_run name c col i id file_id emb) by done. mstep.
    match goal with |- context [insert_to_milvus_from (S i) name rest image_ids file_id ?c1] =>
      destruct (IH (S i) c1 (add_rows col (page_records i id file_id emb)))
        as (c' & Hrun & Hc' & Hlog)
    end.
    + by apply no_faults_with_colls, no_faults_logged.
    + apply lookup_insert_eq.
    + done.
    + done.
    + rewrite Hnext. simpl in Hlen. lia.
    + rewrite Hrun. exists c'. split; [done |]. split.
      * rewrite Hc', Hnext. cbn [colls with_colls]. rewrite insert_insert_eq. f_equal.
        unfold pages_written. cbn [length seq zip zip_with concat].
        by rewrite add_rows_app.
      * rewrite Hlog, Hnext. cbn [log logged with_colls length take fmap list_fmap].
        by rewrite <- app_assoc.
Qed.

(** X19: [insert_to_milvus] is not all-or-nothing.  With fewer image ids
    than embeddings, on a store that answers and accepts the records, the
    pages that have an id are written, one insert each, and then the call
    raises [IndexError]: the pages written stay in the collection. *)
Theorem insert_to_milvus_stops_at_missing_id name image_ids file_id embeddings
    (c : client) col :
  no_faults_in c -> colls c !! name = Some col ->
  c_fields col = schema_fields ->
  Forall (Forall (fun v => length v = c_dim col)) embeddings ->
  length image_ids < length embeddings ->
  exists c',
    insert_to_milvus name embeddings image_ids file_id c = (Raise IndexError, c') /\
    colls c' =
      <[name := add_rows col
                  (concat (zip_with (fun j_id emb => page_records j_id.1 j_id.2 file_id emb)
                             (zip (seq 0 (length image_ids)) image_ids) embeddings))]>
        (colls c) /\
    log c' = log c ++ ((fun emb => CInsert name (length emb))
                         <$> take (length image_ids) embeddings).
Proof.
  intros Hno Hcol Hfields Hdim Hlen.
  destruct (insert_to_milvus_short name image_ids file_id embeddings 0 c col)
    as (c' & Hrun & Hc & Hlog); try done.
  exists c'. rewrite drop_0 in Hc, Hlog. by split.
Qed.

Lemma insert_to_milvus_stops_at_missing_id_witness :
  exists c',
    insert_to_milvus "kb" [[[1; 0]]; [[0; 1]]]%Q ["g1"] "f1" empty_store
      = (Raise IndexError, c') /\
    log c' = [CInsert "kb" 1].
Proof.
  destruct (insert_to_milvus_stops_at_missing_id "kb" ["g1"] "f1" [[[1; 0]]; [[0; 1]]]%Q
              empty_store {| c_dim := 2; c_fields := schema_fields; c_rows := [] |})
    as (c' & Hrun & _ & Hlog).
  - done.
  - reflexivity.
  - reflexivity.
  - repeat constructor.
  - simpl. lia.
  - exists c'. split; [exact Hrun | exact Hlog].
Defined.

(** The records written for the segment at position [i]: one per vector,
    with the segment id as group and as segment, and the times of the
    segment. *)
Definition segment_records (i : nat) (emb : list (list Q)) (segment_id : string)
    (segment : row) (file_id media_type : string) : list row :=
  (fun vec =>
     <["vector" := VVec vec]>
     (<["image_id" := VStr segment_id]>
     (<["page_number" := VInt (Z.of_nat i)]>
     (<["file_id" := VStr file_id]>
     (<["media_type" := VStr media_type]>
     (<["timestamp_start" := segment_start segment]>
     (<["timestamp_end" := segment_end segment]>
     (<["duration" := dict_get segment "duration" (VFloat 0)]>
     (<["segment_id" := VStr segment_id]> (∅ : row)))))))))) <$> emb.

Lemma insert_segment_run name (c : client) i emb segment_id segment file_id media_type :
  insert (media_record i emb segment_id segment file_id media_type) name c
  = client_insert name (segment_records i emb segment_id segment file_id media_type) c.
Proof.
  rewrite (insert_run _ name emb (VStr segment_id) (VInt (Z.of_nat i)) (VStr file_id))
    by reflexivity.
  reflexivity.
Qed.

Lemma insert_records_from_spec name file_id media_type zipped :
  forall i (c c' : client) col,
    insert_records_from i name zipped file_id media_type c = (Ok tt, c') ->
    colls c !! name = Some col ->
    colls c' !! name =
      Some (add_rows col
              (concat (zip_with (fun j t => segment_records j t.1.1 t.1.2 t.2 file_id media_type)
                         (seq i (length zipped)) zipped))) /\
    log c' = log c ++ ((fun t : list (list Q) * string * row => CInsert name (length t.1.1))
                         <$> zipped).
Proof.
  induction zipped as [| [[emb segment_id] segment] rest IH]; intros i c c' col Hrun Hcol.
  - injection Hrun as <-. split.
    + rewrite Hcol. simpl. by rewrite add_rows_nil.
    + simpl. by rewrite app_nil_r.
  - cbn [insert_records_from] in Hrun. munfold.
    rewrite insert_segment_run, client_insert_run in Hrun.
    destruct (faulty c _); [done |]. rewrite Hcol in Hrun.
    destruct (forallb _ _); [| done].
    eapply IH in Hrun; [| apply lookup_insert_eq].
    destruct Hrun as (Hc' & Hlog). split.
    + rewrite Hc'. f_equal. unfold add_rows.
      cbn [c_dim c_fields c_rows length seq zip_with concat fst snd]. f_equal.
      by rewrite <- app_assoc.
    + rewrite Hlog. cbn [log with_colls logged fmap list_fmap fst]. unfold segment_records.
      by rewrite length_fmap, <- app_assoc.
Qed.

(** X20: [insert_media_to_milvus] writes one record set per segment, for
    as many segments as the shortest of the three lists has: embeddings,
    segment ids or segment dictionaries beyond that are left out without an
    error.  When it returns, the collection has gained, for the segment at
    position [i], one record per vector of its embedding, each with the
    segment id as [image_id] and as [segment_id], [i] as page number, the
    media type of the call, and the start, end and duration of the
    segment. *)
Theorem insert_media_writes_zipped_segments name embeddings segment_ids file_id segments
    media_type (c c' : client) col :
  insert_media_to_milvus name embeddings segment_ids file_id segments media_type c
    = (Ok tt, c') ->
  colls c !! name = Some col ->
  let zipped := zip (zip embeddings segment_ids) segments in
  length zipped = length embeddings `min` (length segment_ids `min` length segments) /\
  colls c' !! name =
    Some (add_rows col
            (concat (zip_with (fun j t => segment_records j t.1.1 t.1.2 t.2 file_id media_type)
                       (seq 0 (length zipped)) zipped))) /\
  log c' = log c ++ ((fun t : list (list Q) * string * row => CInsert name (length t.1.1))
                       <$> zipped) /\
  forall i emb segment_id segment r,
    r ∈ segment_records i emb segment_id segment file_id media_type ->
    (exists vec, vec ∈ emb /\ r !! "vector" = Some (VVec vec)) /\
    r !! "image_id" = Some (VStr segment_id) /\
    r !! "segment_id" = Some (VStr segment_id) /\
    r !! "page_number" = Some (VInt (Z.of_nat i)) /\
    r !! "file_id" = Some (VStr file_id) /\
    r !! "media_type" = Some (VStr media_type) /\
    r !! "timestamp_start"
      = Some (dict_get segment "start_time" (dict_get segment "timestamp" (VFloat 0))) /\
    r !! "timestamp_end"
      = Some (dict_get segment "end_time" (dict_get segment "timestamp" (VFloat 0))) /\
    r !! "duration" = Some (dict_get segment "duration" (VFloat 0)).
Proof.
  intros Hrun Hcol zipped. split; [| split; [| split]].
  - unfold zipped. rewrite !length_zip. lia.
  - by apply (insert_records_from_spec name file_id media_type zipped 0 c c' col).
  - by apply (insert_records_from_spec name file_id media_type zipped 0 c c' col).
  - intros i emb segment_id segment r Hr. unfold segment_records in Hr.
    apply list_elem_of_fmap in Hr as (vec & -> & Hvec).
    split; [by exists vec | done].
Qed.

(** Two embeddings, one segment id and one segment: an audio segment from
    second 0 to second 30. *)
Definition first_segment : row :=
  <["start_time" := VFloat 0]> (<["end_time" := VFloat 30]> (<["duration" := VFloat 30]> ∅)).

Lemma insert_media_writes_zipped_segments_witness :
  exists c',
    insert_media_to_milvus "kb" [[[1; 0]]; [[0; 1]]]%Q ["s1"] "f1" [first_segment] "audio"
      empty_store = (Ok tt, c') /\
    log c' = [CInsert "kb" 1].
Proof.
  assert (Hok : is_ok (insert_media_to_milvus "kb" [[[1; 0]]; [[0; 1]]]%Q ["s1"] "f1"
                         [first_segment] "audio" empty_store).1 = true)
    by (vm_compute; reflexivity).
  destruct (insert_media_to_milvus "kb" [[[1; 0]]; [[0; 1]]]%Q ["s1"] "f1"
              [first_segment] "audio" empty_store) as [[[] | e |] c'] eqn:Hrun;
    [| discriminate Hok | discriminate Hok].
  exists c'. split; [reflexivity |].
  destruct (insert_media_writes_zipped_segments "kb" [[[1; 0]]; [[0; 1]]]%Q ["s1"] "f1"
              [first_segment] "audio" empty_store c'
              {| c_dim := 2; c_fields := schema_fields; c_rows := [] |} Hrun eq_refl)
    as (_ & _ & Hlog & _).
  exact Hlog.
Defined.

End Ingest.


(** ** A migration that reports a backup has kept the rows *)

Section MigrationSafety.

Lemma readonly_backup_loop name fuel : forall all_data offset,
  readonly (backup_loop fuel name all_data offset).
Proof.
  induction fuel as [| fuel IH]; intros all_data offset; [intros c; apply extends_refl |].
  cbn [backup_loop]. apply readonly_bind; [apply readonly_client_query | intros batch].
  destruct batch; [apply readonly_ret |].
  destruct (_ <? _); [apply readonly_ret | apply IH].
Qed.

Lemma readonly_create_safe_backup name : readonly (_create_safe_backup name).
Proof.
  unfold _create_safe_backup. apply readonly_try; [| intros ?; apply readonly_ret].
  intros c. munfold. cbv beta.
  pose proof (readonly_backup_loop name (S (row_count_of c name)) [] 0 c) as H.
  destruct (backup_loop _ name [] 0 c) as [[l | e |] c']; exact H.
Qed.

(** Whatever the store does, a backup loop that returns has read every row
    from [offset] on. *)
Lemma backup_loop_ok fuel name : forall all_data offset (c c' : client) col l,
  colls c !! name = Some col ->
  backup_loop fuel name all_data offset c = (Ok l, c') ->
  l = all_data ++ drop offset (c_rows col).
Proof.
  induction fuel as [| fuel IH]; intros all_data offset c c' col l Hcol; [done |].
  cbn [backup_loop]. munfold. rewrite client_query_run.
  destruct (faulty c _); [done |]. rewrite Hcol.
  cbn [fields_known filter_fields forallb andb].
  rewrite bool_decide_eq_true_2 by done. cbn [orb andb].
  rewrite filter_all_rows, project_star.
  assert (Hpos : 0 < batch_size_backup) by (unfold batch_size_backup; lia).
  destruct (take batch_size_backup (drop offset (c_rows col))) as [| r batch] eqn:Hbatch.
  - intros [= <- _].
    assert (Hlen : length (take batch_size_backup (drop offset (c_rows col))) = 0)
      by (by rewrite Hbatch).
    rewrite length_take in Hlen.
    assert (Hnil : drop offset (c_rows col) = []) by (apply length_zero_iff_nil; lia).
    by rewrite Hnil, app_nil_r.
  - assert (Hlen : length (r :: batch)
                   = Nat.min batch_size_backup (length (drop offset (c_rows col)))).
    { by rewrite <- Hbatch, length_take. }
    destruct (length (r :: batch) <? batch_size_backup) eqn:Hlt.
    + apply Nat.ltb_lt in Hlt. intros [= <- _]. f_equal.
      rewrite <- Hbatch. apply take_ge. lia.
    + apply Nat.ltb_ge in Hlt. intros Hrun.
      apply (IH _ _ _ _ col) in Hrun; [| done]. rewrite Hrun, <- app_assoc. f_equal.
      assert (Hfull : length (r :: batch) = batch_size_backup) by lia.
      by rewrite Hfull, <- Hbatch, <- drop_drop, take_drop.
Qed.

Lemma create_safe_backup_ok name (c c' : client) col backup_data :
  colls c !! name = Some col ->
  _create_safe_backup name c = (Ok backup_data, c') ->
  (backup_data = None \/ backup_data = Some (c_rows col)) /\
  colls c' = colls c /\ faults c' = faults c.
Proof.
  intros Hcol Hrun.
  destruct (readonly_create_safe_backup name c) as (Hc & Hf & _).
  rewrite Hrun in Hc, Hf. cbn [snd] in Hc, Hf. split; [| done].
  revert Hrun. unfold _create_safe_backup. munfold. cbv beta.
  destruct (backup_loop _ name [] 0 c) as [[l | e |] c1] eqn:Hloop; [| | done].
  - apply (backup_loop_ok _ _ _ _ _ _ col) in Hloop; [| done].
    rewrite drop_0 in Hloop. cbn [app] in Hloop. subst l. intros [= <- _]. by right.
  - intros [= <- _]. by left.
Qed.

(** X21: a migration that reports success and a backup has kept every
    row, whatever else the store did.  When [safe_migrate_collection]
    returns with [success] and [backup_created] both true, the collection has
    the new schema and the migrated form of each row it had before, in
    order; [records_processed] is the number of rows, and [data_migrated]
    tells whether there was any. *)
Theorem reported_backup_means_rows_kept name dim backup (c c' : client) col r :
  colls c !! name = Some col ->
  safe_migrate_collection name dim backup c = (Ok r, c') ->
  success r = true -> backup_created r = true ->
  colls c' !! name = Some {| c_dim := dim; c_fields := schema_fields;
                             c_rows := migrated_record <$> c_rows col |} /\
  records_processed r = length (c_rows col) /\
  data_migrated r = bool_decide (c_rows col <> []).
Proof.
  intros Hcol. unfold safe_migrate_collection, safe_migrate_body. mstep. cbn [fst snd].
  destruct (check_schema_compatibility name c) as [[compat | e |] c1] eqn:Hcheck;
    [| by intros [= <- _] | done].
  destruct (readonly_check_schema_compatibility name c) as (Hc1 & Hf1 & _).
  rewrite Hcheck in Hc1, Hf1. cbn [snd] in Hc1, Hf1.
  mstep. destruct (needs_migration compat) eqn:Hneeds; cbn [negb]; mstep;
    [| by intros [= <- _]].
  destruct (needs_migration_exists _ _ _ _ Hcheck Hneeds) as (Hex & _ & _).
  rewrite Hex, andb_true_r. cbn [fst snd].
  destruct backup; mstep; cbn [fst snd].
  2:{ rewrite drop_collection_run.
      destruct (faulty c1 _); mstep; cbn [fst snd]; [by intros [= <- _] |].
      match goal with |- context [create_collection name dim false ?c3] =>
        destruct (create_collection name dim false c3) as [[[] | e |] c4]
      end; mstep; cbn [fst snd truthy]; by intros [= <- _]. }
  destruct (_create_safe_backup name c1) as [[backup_data | e |] c2] eqn:Hbackup;
    [| by intros [= <- _] | done].
  destruct (create_safe_backup_ok name c1 c2 col backup_data) as (Hdata & Hc2 & Hf2);
    [by rewrite Hc1 | done |].
  mstep. cbn [fst snd].
  rewrite drop_collection_run.
  destruct (faulty c2 _); mstep; cbn [fst snd]; [by intros [= <- _] |].
  match goal with |- context [create_collection name dim false ?c3] =>
    destruct (create_collection_fresh name dim c3) as (r4 & c4 & Hcreate & Hnd & _ & _ & Hok);
      [ apply lookup_delete_eq | rewrite Hcreate ]
  end.
  destruct r4 as [[] | e |]; [| by intros [= <- _] | done].
  specialize (Hok eq_refl). mstep. cbn [fst snd].
  destruct Hdata as [-> | ->]; [by intros [= <- _] |].
  destruct (c_rows col) as [| r0 rows] eqn:Hrows.
  { cbn [truthy]. intros [= <- <-] _ _. by rewrite Hok. }
  cbn [truthy default id]. cbv beta iota. cbn [fst snd].
  unfold _restore_with_new_schema, range_step.
  destruct (range_step_bounds (length (r0 :: rows))) as (Hne & Hup). cbv zeta in Hne, Hup.
  set (m := (length (r0 :: rows) + batch_size_restore - 1) / batch_size_restore) in *.
  destruct (restore_loop_spec name (r0 :: rows) m 0 0 c4 (new_empty dim) Hok Hne)
    as (r5 & c5 & k & l & Hrun & Hc5 & _ & _ & _ & Hres & _).
  rewrite Hrun.
  destruct Hres as [(-> & -> & _) | (-> & _ & _)]; [| by intros [= <- _]].
  unfold batch_size_restore in *. cbn [Nat.mul] in Hc5. rewrite drop_0 in Hc5 |- *.
  rewrite take_ge in Hc5 |- * by lia.
  intros [= <- <-] _ _. rewrite Hc5, lookup_insert_eq. done.
Qed.

Lemma reported_backup_means_rows_kept_witness :
  exists r c',
    safe_migrate_collection "kb" 2 true (legacy_store no_faults) = (Ok r, c') /\
    (c_rows <$> colls c' !! "kb") = Some [migrated_record (legacy_row "g1" "f1" 0 [1; 0]%Q)].
Proof.
  assert (Hok : is_ok (safe_migrate_collection "kb" 2 true (legacy_store no_faults)).1 = true)
    by (vm_compute; reflexivity).
  assert (Hs : (fun r => success r && backup_created r) <$>
                 match (safe_migrate_collection "kb" 2 true (legacy_store no_faults)).1 with
                 | Ok r => Some r
                 | _ => None
                 end = Some true)
    by (vm_compute; reflexivity).
  destruct (safe_migrate_collection "kb" 2 true (legacy_store no_faults))
    as [[r | e |] c'] eqn:Hrun; [| discriminate Hok | discriminate Hok].
  cbn [fst fmap option_fmap option_map] in Hs. injection Hs as Hs.
  apply andb_true_iff in Hs as [Hs Hb].
  exists r, c'. split; [reflexivity |].
  destruct (reported_backup_means_rows_kept "kb" 2 true (legacy_store no_faults) c'
              legacy_collection r eq_refl Hrun Hs Hb) as (Hc & _).
  by rewrite Hc.
Defined.

End MigrationSafety.

(** ** The segments of an audio file *)

Section AudioSegments.

Import MediaConverter.

(** A number, as a rational. *)
Definition as_number (v : value) : Q :=
  match v with
  | VInt n => inject_Z n
  | VFloat x => x
  | _ => 0%Q
  end.





End AudioSegments.


(** ** What a migrated record keeps *)

Section MigratedRecord.

Import Search.

(** X23: the record a migration writes has exactly the nine fields of the
    new schema.  A field of the old record that is one of the nine is
    carried over unchanged; every other key of the old record (the primary
    key, any dynamic field) is dropped; and migrating a migrated record
    changes nothing. *)
Theorem migrated_record_keeps_schema_fields (record : row) :
  (forall k v, k ∈ new_output_fields -> record !! k = Some v ->
     migrated_record record !! k = Some v) /\
  (forall k, is_Some (migrated_record record !! k) <-> k ∈ new_output_fields) /\
  migrated_record (migrated_record record) = migrated_record record.
Proof.
  split; [| split].
  - intros k v Hk Hv. unfold new_output_fields in Hk.
    repeat (apply elem_of_cons in Hk as [-> | Hk];
            [ unfold migrated_record; repeat (rewrite lookup_insert_ne by done);
              rewrite lookup_insert_eq; unfold dict_get; by rewrite Hv |]).
    by apply elem_of_nil in Hk.
  - intros k. split.
    + intros Hsome. unfold new_output_fields.
      destruct (decide (k ∈ ["vector"; "image_id"; "page_number"; "file_id"; "media_type";
                              "timestamp_start"; "timestamp_end"; "duration"; "segment_id"]))
        as [Hin | Hout]; [exact Hin |].
      exfalso. unfold migrated_record in Hsome.
      repeat (rewrite lookup_insert_ne in Hsome
                by (intros <-; apply Hout; by repeat constructor)).
      rewrite lookup_empty in Hsome. by destruct Hsome.
    + intros Hk. unfold new_output_fields in Hk.
      repeat (apply elem_of_cons in Hk as [-> | Hk]; [by eexists |]).
      by apply elem_of_nil in Hk.
  - reflexivity.
Qed.

End MigratedRecord.

(** ** Knowledge bases without a collection *)

Section MissingBases.

Import Search Maintenance Rag.

Lemma search_bases_missing sched data top_K base_ids : forall c,
  no_faults_in c ->
  Forall (fun base_id => colls c !! collection_name_of base_id = None) base_ids ->
  exists c',
    search_bases sched base_ids data top_K c = (Ok [], c') /\
    colls c' = colls c /\ faults c' = faults c /\
    log c' = log c ++ ((fun base_id => CHasCollection (collection_name_of base_id))
                         <$> base_ids).
Proof.
  induction base_ids as [| base_id rest IH]; intros c Hno Hall.
  - exists c. split; [done |]. split; [done |]. split; [done |]. simpl. by rewrite app_nil_r.
  - apply Forall_cons in Hall as [Hnone Hrest].
    cbn [search_bases]. unfold check_collection. mstep.
    rewrite has_collection_run. no_fault Hno. rewrite Hnone.
    rewrite bool_decide_eq_false_2 by (by intros [? ?]). mstep.
    destruct (IH (logged (CHasCollection (collection_name_of base_id)) c))
      as (c' & Hrun & Hc & Hf & Hlog); [by apply no_faults_logged | done |].
    rewrite Hrun. exists c'. split; [done |]. split; [done |]. split; [done |].
    rewrite Hlog. cbn [log logged fmap list_fmap]. by rewrite <- app_assoc.
Qed.

(** X24: a chat whose knowledge bases have no collection retrieves
    nothing: on a store that answers, the retrieval asks once for each base
    whether its collection exists, makes no search, and returns the empty
    list. *)
Theorem retrieve_skips_missing_bases sched base_ids data (top_K : Z) threshold (c : client) :
  no_faults_in c ->
  Forall (fun base_id => colls c !! collection_name_of base_id = None) base_ids ->
  exists c',
    retrieve sched base_ids data top_K threshold c = (Ok [], c') /\
    log c' = log c ++ ((fun base_id => CHasCollection (collection_name_of base_id))
                         <$> base_ids).
Proof.
  intros Hno Hall. unfold retrieve. cbv zeta. mstep.
  destruct (search_bases_missing sched data (clamp_top_K top_K) base_ids c Hno Hall)
    as (c' & Hrun & _ & _ & Hlog).
  rewrite Hrun. exists c'. split; [| exact Hlog].
  rewrite (sort_and_filter_run [] _ _ c') by constructor.
  rewrite filter_nil. cbn [sort_desc foldr]. mstep.
  destruct (_ <=? _)%Z; [by rewrite slice_to_nil | done].
Qed.

Lemma retrieve_skips_missing_bases_witness :
  exists c',
    retrieve id ["a-b"; "c"] scenario_query 3 10 scenario_store = (Ok [], c') /\
    log c' = [CHasCollection "colqwena_b"; CHasCollection "colqwenc"].
Proof.
  destruct (retrieve_skips_missing_bases id ["a-b"; "c"] scenario_query 3 10 scenario_store)
    as (c' & Hrun & Hlog).
  - done.
  - repeat constructor.
  - exists c'. split; [exact Hrun | exact Hlog].
Defined.

(** X25: [delete_collection] answers whether the collection existed, and
    the collection is gone when it returns: a following [check_collection]
    can only answer [False]. *)
Theorem deleted_collection_is_gone name (c c1 : client) (existed : bool) :
  delete_collection name c = (Ok existed, c1) ->
  existed = bool_decide (is_Some (colls c !! name)) /\
  colls c1 = delete name (colls c) /\
  forall answer c2, check_collection name c1 = (Ok answer, c2) -> answer = false.
Proof.
  unfold delete_collection. mstep. rewrite has_collection_run.
  destruct (faulty c _); [done |]. mstep.
  destruct (bool_decide (is_Some (colls c !! name))) eqn:Hex; mstep.
  - rewrite drop_collection_run. destruct (faulty _ _); [done |]. mstep.
    intros [= <- <-]. split; [done |]. split; [done |].
    intros answer c2. unfold check_collection. mstep. rewrite has_collection_run.
    destruct (faulty _ _); [done |]. cbn [colls with_colls logged].
    rewrite lookup_delete_eq. rewrite bool_decide_eq_false_2 by (by intros [? ?]).
    mstep. by intros [= <- _].
  - intros [= <- <-]. apply bool_decide_eq_false in Hex.
    assert (Hnone : colls c !! name = None).
    { destruct (colls c !! name) eqn:H; [| done]. exfalso. apply Hex. eauto. }
    split; [done |]. split; [by rewrite delete_id |].
    intros answer c2. unfold check_collection. mstep. rewrite has_collection_run.
    destruct (faulty _ _); [done |]. cbn [colls logged]. rewrite Hnone.
    rewrite bool_decide_eq_false_2 by (by intros [? ?]).
    mstep. by intros [= <- _].
Qed.

Lemma deleted_collection_is_gone_witness :
  exists c1,
    delete_collection "kb" (legacy_store no_faults) = (Ok true, c1) /\
    colls c1 !! "kb" = None.
Proof.
  assert (Hrun : exists c1, delete_collection "kb" (legacy_store no_faults) = (Ok true, c1))
    by (by eexists).
  destruct Hrun as [c1 Hrun]. exists c1. split; [exact Hrun |].
  destruct (deleted_collection_is_gone "kb" (legacy_store no_faults) c1 true Hrun)
    as (_ & -> & _).
  apply lookup_delete_eq.
Defined.

End MissingBases.

(** ** What the check asks for *)

Section CheckAsks.

(** X26: [check_schema_compatibility] never raises and never writes.  It
    asks for a migration only for a collection that exists and lacks a media
    field, and then reports the collection as existing and not compatible,
    with exactly the missing media fields, in the order of the new schema.
    On a store that answers it asks for a migration exactly when a media
    field is missing. *)
Theorem check_asks_when_fields_are_missing name (c : client) :
  exists compat c',
    check_schema_compatibility name c = (Ok compat, c') /\
    colls c' = colls c /\
    (needs_migration compat = true ->
     exists col,
       colls c !! name = Some col /\
       exists_ compat = true /\ compatible compat = false /\
       missing_fields compat = filter (fun f => f ∉ c_fields col) required_new_fields /\
       missing_fields compat <> []) /\
    (no_faults_in c ->
     forall col, colls c !! name = Some col ->
       needs_migration compat = true <->
       exists f, f ∈ required_new_fields /\ f ∉ c_fields col).
Proof.
  unfold check_schema_compatibility, check_body, describe_collection, get_coll. mstep.
  rewrite has_collection_run. destruct (faulty c _) eqn:F1; mstep.
  { eexists _, _. split; [reflexivity |]. split; [done |].
    cbn. split; [done |]. intros Hno. by rewrite (faulty_no_faults _ _ Hno) in F1. }
  destruct (colls c !! name) as [col |] eqn:Hcol.
  2:{ rewrite bool_decide_eq_false_2 by (by intros [? ?]). cbn [negb]. mstep.
      eexists _, _. split; [reflexivity |]. split; [done |]. cbn. done. }
  rewrite bool_decide_eq_true_2 by eauto. cbn [negb]. mstep.
  rewrite tick_run.
  destruct (faulty (logged (CHasCollection name) c) (CDescribeCollection name)) eqn:F2; mstep.
  { eexists _, _. split; [reflexivity |]. split; [done |].
    cbn. split; [done |]. intros Hno.
    rewrite faulty_no_faults in F2 by (by apply no_faults_logged). done. }
  cbn [colls logged]. rewrite Hcol. mstep.
  destruct (filter (fun field => field ∉ c_fields col) required_new_fields)
    as [| g missing] eqn:Hfilter;
    (eexists _, _; split; [reflexivity |]; split; [done |]); cbn.
  - split; [done |]. intros _ col' [= <-]. split; [done |]. intros (f & Hf & Hmiss).
    assert (Hin : f ∈ filter (fun field => field ∉ c_fields col) required_new_fields)
      by (by apply list_elem_of_filter).
    rewrite Hfilter in Hin. by apply elem_of_nil in Hin.
  - split.
    + intros _. by exists col.
    + intros _ col' [= <-]. split; [| done]. intros _. exists g.
      assert (Hin : g ∈ filter (fun field => field ∉ c_fields col) required_new_fields)
        by (rewrite Hfilter; left).
      apply list_elem_of_filter in Hin as [H1 H2]. done.
Qed.

End CheckAsks.
